(** * The Puller: replication of a content-addressed chunk store

    A shallow embedding of [package pull] (the file holding [NewPuller],
    [Pull], [getCmp], [limitToNewChunks], [processCompletedTables],
    [uploadTempTableFile] and [emitStats]) and the properties its
    specification states about it.

    Conventions.
    - A [hash.HashSet] is a [gset Hash]; a Go [map[string]int] is a
      [gmap string Z].
    - [uint64] counters are [Z] with the wrap-around at [2^64] written out.
    - The collaborators the package only knows through an interface (source
      and sink chunk stores, the address walker, the table-file writer, the
      operating system) are records of functions; a call that can fail
      returns a [result].
    - A method with a pointer receiver becomes a function from [State] to
      [State]: the state holds the [Puller] and what it shares with the other
      goroutines. *)

From Stdlib Require Import ZArith String Ascii List Lia SpecFloat.
From stdpp Require Import base gmap sets list strings.

Local Open Scope Z_scope.

(** ** Addresses, chunks, errors *)

(** [hash.Hash] is a 20-byte digest; only equality and hashing are used, so
    it is read as a number. *)
Abbreviation Hash := N (only parsing).
Abbreviation HashSet := (gset N) (only parsing).

Definition len_set (hs : HashSet) : Z := Z.of_nat (size hs).

(** [nbs.CompressedChunk]. *)
Record CompressedChunk : Type := mkCompressedChunk {
  chunkHash : Hash;
  FullCompressedChunk : list Byte.byte
}.

Definition len_bytes (c : CompressedChunk) : Z :=
  Z.of_nat (length (FullCompressedChunk c)).

(** [chunks.Chunk]: the raw bytes. *)
Abbreviation Chunk := (list Byte.byte) (only parsing).

Inductive error : Type :=
| ErrDBUpToDate
| ErrIncompatibleSourceChunkStore
| ErrorsNew (msg : string)
| ErrVersions (srcVersion sinkVersion : string)
| ErrCtx
| ErrExternal (code : nat)
| Panic.

(** The two error values [NewPuller] and [getCmp] build in place. *)
Definition errNotFound : error := ErrorsNew "not found".
Definition errIncompleteFetch : error := ErrorsNew "failed to get all chunks.".




Inductive result (A : Type) : Type :=
| Ok (a : A)
| Err (e : error).
Arguments Ok {A} a.
Arguments Err {A} e.

(** ** Unsigned 64-bit counters *)

Definition two64 : Z := 2 ^ 64.
Definition u64 (z : Z) : Z := z mod two64.
Definition u64_add (a b : Z) : Z := u64 (a + b).
Definition u64_sub (a b : Z) : Z := u64 (a - b).
Definition u64_mul (a b : Z) : Z := u64 (a * b).

Arguments u64 : simpl never.
Arguments u64_add : simpl never.
Arguments u64_sub : simpl never.
Arguments u64_mul : simpl never.

(** ** Collaborators *)

(** [WalkAddrs]: the callback is invoked once per outbound address, in the
    order of the list; the walker may fail. *)
Definition WalkAddrs : Type := Chunk → result (list (Hash * bool)).

(** What a sink does with one [WriteTableFile] call: how many times it opens
    the body, how many bytes it reads from each of them, and what it
    returns. *)
Record WritePlan : Type := mkWritePlan {
  attempts : list Z;
  outcome : option error
}.

(** The calls made to the two chunk stores. *)
Inductive Call : Type :=
| CallHasMany (hs : HashSet)
| CallGetManyCompressed (batch : HashSet)
| CallWriteTableFile (id : string) (numChunks : Z) (ret : option error)
| CallAddTableFilesToManifest (m : gmap string Z).

(** [chunks.ChunkStore], with the optional interfaces the puller asserts:
    [GetManyCompressed] is present when the store is an
    [nbs.NBSCompressedChunkStore]; [WriteTableFile] and
    [AddTableFilesToManifest] are those of [nbs.TableFileStore].
    [GetManyCompressed] gives the chunks it hands to its callback, in order,
    and then its return value. [LogLines] is present when the store is a
    [chunks.LoggingChunkStore]: once it has been given a logger with
    [SetLogger], these are the lines it hands to the logger's [Logf] in the
    course of a call. *)
Record ChunkStore : Type := mkChunkStore {
  Version : string;
  HasMany : HashSet → result HashSet;
  GetManyCompressed : option (HashSet → list CompressedChunk * option error);
  WriteTableFile : string → Z → list Byte.byte → Z → WritePlan;
  AddTableFilesToManifest : gmap string Z → option error;
  LogLines : option (Call → list string)
}.

(** Modelled from the spec: what package [nbs] does (its code is outside
    this package). [ToChunk] decompresses a compressed chunk and fails on a
    corrupt payload. [Finish] appends an index and a footer and yields an id,
    "a deterministic function of the ordered chunk sequence written", and an
    MD5 of the content; the writer's operations can fail. *)
Record TableFormat : Type := mkTableFormat {
  ToChunk : CompressedChunk → result Chunk;
  tableId : list CompressedChunk → string;
  indexAndFooterLen : list CompressedChunk → Z;
  tableMD5 : list CompressedChunk → list Byte.byte;
  newWriterFails : nat → option error;
  addFails : list CompressedChunk → CompressedChunk → option error;
  finishFails : list CompressedChunk → option error;
  readerFails : nat → nat → option error
}.

(** Modelled from the spec: [nbs.CmpChunkTableWriter], "append-only writer
    that packs compressed chunks into a temp file, reports running length,
    finalizes with an index+footer". [w_path] names the backing file in the
    temp directory. *)
Record CmpChunkTableWriter : Type := mkWriter {
  w_path : nat;
  w_chunks : list CompressedChunk;
  w_finished : bool
}.

Definition ChunkCount (w : CmpChunkTableWriter) : Z :=
  Z.of_nat (length (w_chunks w)).

Fixpoint chunkDataLen (cs : list CompressedChunk) : Z :=
  match cs with
  | [] => 0
  | c :: cs' => len_bytes c + chunkDataLen cs'
  end.

Definition ContentLength (tf : TableFormat) (w : CmpChunkTableWriter) : Z :=
  if w_finished w
  then u64 (chunkDataLen (w_chunks w) + indexAndFooterLen tf (w_chunks w))
  else u64 (chunkDataLen (w_chunks w)).

Definition GetMD5 (tf : TableFormat) (w : CmpChunkTableWriter) : list Byte.byte :=
  tableMD5 tf (w_chunks w).

(** The operating system as [NewPuller] sees it. *)
Record OS : Type := mkOS {
  LookupEnv : string → option string;
  openFileFails : string → option error
}.

(** The temp directory: the table files in it, the counter that names the
    next one, and the lines of [push.log] when that file exists. *)
Record TempDir : Type := mkTempDir {
  tables : gset nat;
  fresh : nat;
  pushLogFile : option (list string)
}.

(** ** The statistics counters *)

Record stats : Type := mkStats {
  finishedSendBytes : Z;
  bufferedSendBytes : Z;
  totalSourceChunks : Z;
  fetchedSourceChunks : Z;
  fetchedSourceBytes : Z
}.

Definition stats0 : stats := mkStats 0 0 0 0 0.

Definition add_finishedSendBytes (n : Z) (s : stats) : stats :=
  mkStats (u64_add (finishedSendBytes s) n) (bufferedSendBytes s)
          (totalSourceChunks s) (fetchedSourceChunks s) (fetchedSourceBytes s).
Definition add_bufferedSendBytes (n : Z) (s : stats) : stats :=
  mkStats (finishedSendBytes s) (u64_add (bufferedSendBytes s) n)
          (totalSourceChunks s) (fetchedSourceChunks s) (fetchedSourceBytes s).
Definition add_totalSourceChunks (n : Z) (s : stats) : stats :=
  mkStats (finishedSendBytes s) (bufferedSendBytes s)
          (u64_add (totalSourceChunks s) n) (fetchedSourceChunks s) (fetchedSourceBytes s).
Definition add_fetchedSourceChunks (n : Z) (s : stats) : stats :=
  mkStats (finishedSendBytes s) (bufferedSendBytes s)
          (totalSourceChunks s) (u64_add (fetchedSourceChunks s) n) (fetchedSourceBytes s).
Definition add_fetchedSourceBytes (n : Z) (s : stats) : stats :=
  mkStats (finishedSendBytes s) (bufferedSendBytes s)
          (totalSourceChunks s) (fetchedSourceChunks s) (u64_add (fetchedSourceBytes s) n).

(** ** The Puller *)

Record Puller : Type := mkPuller {
  waf : WalkAddrs;
  srcChunkStore : HashSet → list CompressedChunk * option error;
  sinkDBCS : ChunkStore;
  hashes : HashSet;
  downloaded : HashSet;
  wr : option CmpChunkTableWriter;
  tempDir : string;
  chunksPerTF : Z;
  pushLog : option string;
  statsCh : bool;
  pstats : stats
}.

(** [strings.ToLower] on the ASCII letters; the comparison with ["true"] sees
    no other character. *)
Definition lower_ascii (c : ascii) : ascii :=
  let n := nat_of_ascii c in
  if (Nat.leb 65 n && Nat.leb n 90)%bool then ascii_of_nat (n + 32) else c.

Fixpoint ToLower (s : string) : string :=
  match s with
  | EmptyString => EmptyString
  | String c s' => String (lower_ascii c) (ToLower s')
  end.

Definition filepath_Join (dir name : string) : string :=
  (dir ++ "/" ++ name)%string.

(** [nbs.NewCmpChunkTableWriter(tempDir)]: a new writer over a new file of
    the temp directory. *)
Definition NewCmpChunkTableWriter (tf : TableFormat) (d : TempDir)
  : result CmpChunkTableWriter * TempDir :=
  match newWriterFails tf (fresh d) with
  | Some e => (Err e, d)
  | None =>
      (Ok (mkWriter (fresh d) [] false),
       mkTempDir ({[ fresh d ]} ∪ tables d) (S (fresh d)) (pushLogFile d))
  end.

(** [os.OpenFile(path, O_CREATE|O_TRUNC|O_WRONLY, ModePerm)] on
    [<tempDir>/push.log]. *)
Definition OpenPushLog (os : OS) (path : string) (d : TempDir)
  : result string * TempDir :=
  match openFileFails os path with
  | Some e => (Err e, d)
  | None => (Ok path, mkTempDir (tables d) (fresh d) (Some []))
  end.

(** What [NewPuller] asks of the two stores, in order: the calls it makes
    on the source and on the sink, and [SetLogger] on a sink that is a
    [chunks.LoggingChunkStore]. *)
Inductive StartupCall : Type :=
| OnSource (c : Call)
| OnSink (c : Call)
| SinkSetLogger.

Section NewPuller.

Context (os : OS) (tf : TableFormat).

(** [NewPuller], with the calls it has made next to what it returns. The
    last step hands the new puller to a logging sink as its logger: from
    then on the lines that sink logs go through [Logf] of this puller (see
    [log_call] below). *)
Definition NewPuller_traced (tempDir : string) (chunksPerTF : Z)
    (srcCS sinkCS : ChunkStore)
    (walkAddrs : WalkAddrs) (hashes : list Hash) (statsCh : bool)
    (d : TempDir) : result Puller * TempDir * list StartupCall :=
  let hs : HashSet := list_to_set hashes in
  let made := [OnSource (CallHasMany hs)] in
  match HasMany srcCS hs with
  | Err e => (Err e, d, made)
  | Ok missing =>
    if negb (len_set missing =? 0) then (Err errNotFound, d, made) else
    let hs : HashSet := list_to_set hashes in
    let made := made ++ [OnSink (CallHasMany hs)] in
    match HasMany sinkCS hs with
    | Err e => (Err e, d, made)
    | Ok missing =>
      if len_set missing =? 0 then (Err ErrDBUpToDate, d, made) else
      if negb (String.eqb (Version srcCS) (Version sinkCS))
      then (Err (ErrVersions (Version srcCS) (Version sinkCS)), d, made) else
      match GetManyCompressed srcCS with
      | None => (Err ErrIncompatibleSourceChunkStore, d, made)
      | Some srcChunkStore =>
        match NewCmpChunkTableWriter tf d with
        | (Err e, d1) => (Err e, d1, made)
        | (Ok wr, d1) =>
          let '(pushLogger, d2) :=
            match LookupEnv os "PUSH_LOG" with
            | Some dbg =>
                if String.eqb (ToLower dbg) "true" then
                  let logFilePath := filepath_Join tempDir "push.log" in
                  match OpenPushLog os logFilePath d1 with
                  | (Ok f, d2) => (Some f, d2)
                  | (Err _, d2) => (None, d2)
                  end
                else (None, d1)
            | None => (None, d1)
            end in
          let p := {| waf := walkAddrs;
                      srcChunkStore := srcChunkStore;
                      sinkDBCS := sinkCS;
                      hashes := list_to_set hashes;
                      downloaded := ∅;
                      wr := Some wr;
                      tempDir := tempDir;
                      chunksPerTF := chunksPerTF;
                      pushLog := pushLogger;
                      statsCh := statsCh;
                      pstats := stats0 |} in
          let made :=
            match LogLines sinkCS with
            | Some _ => made ++ [SinkSetLogger]
            | None => made
            end in
          (Ok p, d2, made)
        end
      end
    end
  end.

(** [NewPuller] as its caller sees it: the puller or the error, and the
    temp directory. *)
Definition NewPuller (tempDir : string) (chunksPerTF : Z)
    (srcCS sinkCS : ChunkStore)
    (walkAddrs : WalkAddrs) (hashes : list Hash) (statsCh : bool)
    (d : TempDir) : result Puller * TempDir :=
  fst (NewPuller_traced tempDir chunksPerTF srcCS sinkCS walkAddrs hashes
         statsCh d).

End NewPuller.

(** [Logf]: a line goes to the log file when the puller has a logger. A sink
    that is a [chunks.LoggingChunkStore] is given the puller as its logger
    by [NewPuller] and calls [Logf] through it. *)
Definition Logf (p : Puller) (line : string) (d : TempDir) : TempDir :=
  match pushLog p with
  | Some _ =>
      mkTempDir (tables d) (fresh d)
                (Some (default [] (pushLogFile d) ++ [line]))
  | None => d
  end.

(** The lines the sink of [p] hands to [p.Logf] in the course of the call
    [c], and [Logf] on each of them. [GetManyCompressed] is a call on the
    source, which has not been given the puller as its logger. *)
Definition sinkLines (p : Puller) (c : Call) : list string :=
  match c with
  | CallGetManyCompressed _ => []
  | _ =>
      match LogLines (sinkDBCS p) with
      | Some lines => lines c
      | None => []
      end
  end.

Definition Logfs (p : Puller) (lines : list string) (d : TempDir) : TempDir :=
  fold_left (fun d line => Logf p line d) lines d.

(** ** Shared state

    What the goroutines of one pull share: the puller (its writer, its
    [downloaded] set and its counters are updated in place), the temp
    directory, the permits taken from [tablefileSema], every [FilledWriters]
    sent on [completedTables] so far (oldest first), the map
    [fileIdToNumChunks] of [processCompletedTables], and the calls made to the
    two chunk stores (oldest first). *)

Record State : Type := mkState {
  puller : Puller;
  dir : TempDir;
  tablefileSema : Z;
  completedTables : list CmpChunkTableWriter;
  fileIdToNumChunks : gmap string Z;
  calls : list Call
}.

Definition set_puller (f : Puller → Puller) (s : State) : State :=
  mkState (f (puller s)) (dir s) (tablefileSema s) (completedTables s)
          (fileIdToNumChunks s) (calls s).
Definition set_dir (f : TempDir → TempDir) (s : State) : State :=
  mkState (puller s) (f (dir s)) (tablefileSema s) (completedTables s)
          (fileIdToNumChunks s) (calls s).
Definition set_sema (f : Z → Z) (s : State) : State :=
  mkState (puller s) (dir s) (f (tablefileSema s)) (completedTables s)
          (fileIdToNumChunks s) (calls s).
Definition send_completed (w : CmpChunkTableWriter) (s : State) : State :=
  mkState (puller s) (dir s) (tablefileSema s) (completedTables s ++ [w])
          (fileIdToNumChunks s) (calls s).
Definition set_fileIdToNumChunks
    (f : gmap string Z → gmap string Z) (s : State) : State :=
  mkState (puller s) (dir s) (tablefileSema s) (completedTables s)
          (f (fileIdToNumChunks s)) (calls s).
(** The call [c] is made: it is added to the calls, and a logging sink
    writes its lines for it through the puller. *)
Definition log_call (c : Call) (s : State) : State :=
  mkState (puller s) (Logfs (puller s) (sinkLines (puller s) c) (dir s))
          (tablefileSema s) (completedTables s)
          (fileIdToNumChunks s) (calls s ++ [c]).

Definition with_wr (w : option CmpChunkTableWriter) (p : Puller) : Puller :=
  mkPuller (waf p) (srcChunkStore p) (sinkDBCS p) (hashes p)
           (downloaded p) w (tempDir p) (chunksPerTF p) (pushLog p)
           (statsCh p) (pstats p).
Definition with_downloaded (hs : HashSet) (p : Puller) : Puller :=
  mkPuller (waf p) (srcChunkStore p) (sinkDBCS p) (hashes p)
           hs (wr p) (tempDir p) (chunksPerTF p) (pushLog p)
           (statsCh p) (pstats p).
Definition with_stats (f : stats → stats) (p : Puller) : Puller :=
  mkPuller (waf p) (srcChunkStore p) (sinkDBCS p) (hashes p)
           (downloaded p) (wr p) (tempDir p) (chunksPerTF p) (pushLog p)
           (statsCh p) (f (pstats p)).

Definition remove_table (path : nat) (d : TempDir) : TempDir :=
  mkTempDir (tables d ∖ {[ path ]}) (fresh d) (pushLogFile d).

(** ** [uploadTempTableFile] *)

Record tempTblFile : Type := mkTempTblFile {
  id : string;
  read : CmpChunkTableWriter;
  numChunks : Z;
  chunksLen : Z;
  contentLen : Z;
  contentHash : list Byte.byte
}.

Section Upload.

Context (tf : TableFormat).

(** The body callback handed to [WriteTableFile]. Its closure holds
    [localUploaded]; [attempt] counts the invocations so far. It returns
    the content length next to the reader, or the error of [Reader()]. *)
Definition openBody (tmpTblFile : tempTblFile) (attempt : nat)
    (localUploaded : Z) (st : stats) : result Z * Z * stats :=
  let fileSize := contentLen tmpTblFile in
  match readerFails tf (w_path (read tmpTblFile)) attempt with
  | Some e => (Err e, localUploaded, st)
  | None =>
      if localUploaded =? 0
      then (Ok (u64 fileSize), localUploaded,
            add_bufferedSendBytes (u64_sub (u64 fileSize) (chunksLen tmpTblFile)) st)
      else (Ok (u64 fileSize), 0,
            add_bufferedSendBytes (u64 localUploaded) st)
  end.

(** Reading [n] bytes through the two nested [countingReader]s: the inner
    one counts into [localUploaded], the outer one into
    [finishedSendBytes]. A reader over the file gives no more than the
    file holds. *)
Definition readBody (tmpTblFile : tempTblFile) (n : Z)
    (localUploaded : Z) (st : stats) : Z * stats :=
  let got := Z.min (Z.max 0 n) (contentLen tmpTblFile) in
  (u64_add localUploaded got, add_finishedSendBytes got st).

(** The sink opens the body once per attempt of its plan; an error of the
    callback ends the call with that error. *)
Fixpoint bodyAttempts (tmpTblFile : tempTblFile) (reads : list Z)
    (attempt : nat) (localUploaded : Z) (st : stats) : option error * stats :=
  match reads with
  | [] => (None, st)
  | n :: reads' =>
      match openBody tmpTblFile attempt localUploaded st with
      | (Err e, _, st1) => (Some e, st1)
      | (Ok _, lu1, st1) =>
          let '(lu2, st2) := readBody tmpTblFile n lu1 st1 in
          bodyAttempts tmpTblFile reads' (S attempt) lu2 st2
      end
  end.

Definition uploadTempTableFile (tmpTblFile : tempTblFile) (s : State)
    : option error * State :=
  let fileSize := contentLen tmpTblFile in
  let localUploaded := 0 in
  let plan := WriteTableFile (sinkDBCS (puller s)) (id tmpTblFile)
                (numChunks tmpTblFile) (contentHash tmpTblFile) (u64 fileSize) in
  let '(bodyErr, st1) :=
    bodyAttempts tmpTblFile (attempts plan) 0 localUploaded (pstats (puller s)) in
  let ret := match bodyErr with Some e => Some e | None => outcome plan end in
  let s1 := set_puller (with_stats (fun _ => st1)) s in
  let s2 := log_call (CallWriteTableFile (id tmpTblFile) (numChunks tmpTblFile) ret) s1 in
  (* deferred: tmpTblFile.read.Remove() *)
  let s3 := set_dir (remove_table (w_path (read tmpTblFile))) s2 in
  (ret, s3).

(** ** [processCompletedTables] *)

Definition Finish (w : CmpChunkTableWriter)
    : result (string * CmpChunkTableWriter) :=
  match finishFails tf (w_chunks w) with
  | Some e => Err e
  | None => Ok (tableId tf (w_chunks w), mkWriter (w_path w) (w_chunks w) true)
  end.

(** The body of the loop for one [tblFile] received from
    [completedTables]. *)
Definition processCompletedTable (tblFile : CmpChunkTableWriter) (s : State)
    : option error * State :=
  let s := set_sema (fun n => n - 1) s in
  let chunksLen := ContentLength tf tblFile in
  match Finish tblFile with
  | Err e => (Some e, s)
  | Ok (id, w) =>
      let ttf := {| id := id;
                    read := w;
                    numChunks := ChunkCount w;
                    chunksLen := chunksLen;
                    contentLen := ContentLength tf w;
                    contentHash := GetMD5 tf w |} in
      match uploadTempTableFile ttf s with
      | (Some e, s1) => (Some e, s1)
      | (None, s1) =>
          (None, set_fileIdToNumChunks (insert id (numChunks ttf)) s1)
      end
  end.

(** After the loop: the one call that commits the manifest. *)
Definition commitManifest (s : State) : option error * State :=
  let m := fileIdToNumChunks s in
  (AddTableFilesToManifest (sinkDBCS (puller s)) m,
   log_call (CallAddTableFilesToManifest m) s).

End Upload.

(** ** [goUploadTempTableFile]

    The goroutine uploads the table files it receives on [files] and
    returns the first error of an upload; it returns no error when the
    channel is closed or the context is done. [files] are the table files
    it receives before one of the two happens.

    The two goroutines next to it in the source are not embedded:
    [goFinalizeTableFiles] reads a variable [tblFile] that it does not
    declare, and [goNovelHashesFilter] reads a field [destDB] that the
    puller does not have and calls [limitToNewChunks] with two arguments. *)
Fixpoint goUploadTempTableFile (tf : TableFormat) (files : list tempTblFile)
    (s : State) : option error * State :=
  match files with
  | [] => (None, s)
  | f :: files' =>
      match uploadTempTableFile tf f s with
      | (Some e, s1) => (Some e, s1)
      | (None, s1) => goUploadTempTableFile tf files' s1
      end
  end.

(** ** [limitToNewChunks]

    Go leaves the order of [range] over a map open: [range_of] gives the
    order in which the keys of a set are visited. The counters are [int64];
    they are bounded by the size of a map, so no operation on them wraps.
    Both call sites pass [64*1024] for [maxBatchSize]. *)

Section Limit.

Context (range_of : HashSet → list Hash).

(** The loop of the first branch. [smaller] is visited; [longer] is either
    [downloaded] or [absent] itself, and in the second case [longer.Has]
    sees the removals already made. *)
Definition removeSeen (smaller : list Hash) (longerIsAbsent : bool)
    (downloaded absent : HashSet) : HashSet :=
  fold_left
    (fun (absent : HashSet) (k : Hash) =>
       let longer := if longerIsAbsent then absent else downloaded in
       if decide (k ∈ longer) then absent ∖ {[ k ]} else absent)
    smaller absent.

(** The loop of the second branch. [newBatches] is [done ++ [currentNewBatch]]:
    the last batch of the slice is the one being filled. The source spells
    the receiver of the second insertion [downlaoded]; it is read as the
    parameter [downloaded]. *)
Fixpoint fillBatches (keys : list Hash) (batchSize : Z)
    (downloaded : HashSet) (done : list HashSet) (currentNewBatch : HashSet)
    (totalAbsent : Z) : Z * list HashSet * HashSet :=
  match keys with
  | [] => (totalAbsent, done ++ [currentNewBatch], downloaded)
  | k :: keys' =>
      if decide (k ∈ downloaded)
      then fillBatches keys' batchSize downloaded done currentNewBatch totalAbsent
      else
        let currentNewBatch := {[ k ]} ∪ currentNewBatch in
        let downloaded := {[ k ]} ∪ downloaded in
        let totalAbsent := totalAbsent + 1 in
        if Z.rem totalAbsent batchSize =? 0
        then fillBatches keys' batchSize downloaded
               (done ++ [currentNewBatch]) ∅ totalAbsent
        else fillBatches keys' batchSize downloaded done currentNewBatch totalAbsent
  end.

(** Returns the count, the batches and the [downloaded] set as the call
    leaves it (the Go function updates it in place). *)
Definition limitToNewChunks (absent downloaded : HashSet) (maxBatchSize : Z)
    : Z * list HashSet * HashSet :=
  let numAbsent := len_set absent in
  if numAbsent <? maxBatchSize then
    let absent' :=
      if len_set absent >? len_set downloaded
      then removeSeen (range_of downloaded) true downloaded absent
      else removeSeen (range_of absent) false downloaded absent in
    (len_set absent', [absent'], downloaded)
  else
    let numBatches := Z.quot numAbsent maxBatchSize + 1 in
    let batchSize := Z.quot numAbsent numBatches + 1 in
    fillBatches (range_of absent) batchSize downloaded [] ∅ 0.

End Limit.

(** ** [getCmp] and [Pull]

    The goroutines are run in one schedule: a chunk goes through the three
    stages of [getCmp] before the next one is emitted, and a table file sent
    on [completedTables] is received by [processCompletedTables] at once. The
    first error returned by a goroutine is the error of the group. In this
    schedule a permit of [tablefileSema] is released before the next one is
    acquired, so [Acquire] never waits; the state counts the permits held.

    [getCmp] is declared with the parameters [(ctx, nextLevel,
    completedTables)] while its body reads [batch] and its one call passes
    [(ctx, batch, nextLevel, completedTables)]; it is given the parameters of
    the call. The goroutines that [emitStats] starts when [statsCh] is set
    only read the counters; they are modelled apart, below. *)

Inductive outcome_of (A : Type) : Type :=
| Done (r : result A)
| OutOfFuel.
Arguments Done {A} r.
Arguments OutOfFuel {A}.

Section Pull.

Context (tf : TableFormat) (range_of : HashSet → list Hash).

Definition AddCmpChunk (w : CmpChunkTableWriter) (c : CompressedChunk)
    : result CmpChunkTableWriter :=
  match addFails tf (w_chunks w) c with
  | Some e => Err e
  | None => Ok (mkWriter (w_path w) (w_chunks w ++ [c]) (w_finished w))
  end.

(** [refs[h] = isleaf] for every address the walker reports. *)
Definition collectRefs (walked : list (Hash * bool)) : gmap N bool :=
  fold_left (fun (refs : gmap N bool) (hl : Hash * bool) =>
               <[ fst hl := snd hl ]> refs) walked ∅.

(** [completedTables <- FilledWriters{p.wr}], and the receiver's turn. *)
Definition sendCompleted (w : CmpChunkTableWriter) (s : State)
    : option error * State :=
  processCompletedTable tf w (send_completed w s).

(** One [CompressedChunk] through the three goroutines of [getCmp]. *)
Definition getCmpChunk (c : CompressedChunk) (seen : Z) (nextLevel : HashSet)
    (s : State) : result (Z * HashSet) * State :=
  (* the callback of GetManyCompressed *)
  let s := set_puller (with_stats (add_fetchedSourceBytes (len_bytes c))) s in
  let s := set_puller (with_stats (add_fetchedSourceChunks 1)) s in
  (* decode and walk *)
  match ToChunk tf c with
  | Err e => (Err e, s)
  | Ok chnk =>
    match waf (puller s) chnk with
    | Err e => (Err e, s)
    | Ok walked =>
      let refs := collectRefs walked in
      (* pack *)
      let seen := seen + 1 in
      match wr (puller s) with
      | None => (Err Panic, s)
      | Some w =>
        match AddCmpChunk w c with
        | Err e => (Err e, s)
        | Ok w1 =>
          let s := set_puller (with_wr (Some w1)) s in
          let s := set_puller (with_stats (add_bufferedSendBytes (len_bytes c))) s in
          let rotated :=
            if ChunkCount w1 >=? chunksPerTF (puller s) then
              match sendCompleted w1 s with
              | (Some e, s1) => (Some e, s1)
              | (None, s1) =>
                  let s2 := set_puller (with_wr None) s1 in
                  let s3 := set_sema (fun n => n + 1) s2 in
                  match NewCmpChunkTableWriter tf (dir s3) with
                  | (Err e, d) => (Some e, set_dir (fun _ => d) s3)
                  | (Ok w2, d) =>
                      (None, set_puller (with_wr (Some w2)) (set_dir (fun _ => d) s3))
                  end
              end
            else (None, s) in
          match rotated with
          | (Some e, s1) => (Err e, s1)
          | (None, s1) => (Ok (seen, nextLevel ∪ dom refs), s1)
          end
        end
      end
    end
  end.

Fixpoint getCmpLoop (found : list CompressedChunk) (seen : Z)
    (nextLevel : HashSet) (s : State) : result (Z * HashSet) * State :=
  match found with
  | [] => (Ok (seen, nextLevel), s)
  | c :: found' =>
      match getCmpChunk c seen nextLevel s with
      | (Err e, s1) => (Err e, s1)
      | (Ok (seen1, nextLevel1), s1) => getCmpLoop found' seen1 nextLevel1 s1
      end
  end.

(** [getCmp(ctx, batch, nextLevel, completedTables)]; the value returned is
    [nextLevel] as the call leaves it. *)
Definition getCmp (batch nextLevel : HashSet) (s : State)
    : result HashSet * State :=
  let s := set_puller (with_stats (add_totalSourceChunks (len_set batch))) s in
  let s := log_call (CallGetManyCompressed batch) s in
  let '(found, srcErr) := srcChunkStore (puller s) batch in
  match getCmpLoop found 0 nextLevel s with
  | (Err e, s1) => (Err e, s1)
  | (Ok (seen, nextLevel1), s1) =>
      match srcErr with
      | Some e => (Err e, s1)
      | None =>
          if negb (seen =? len_set batch)
          then (Err errIncompleteFetch, s1)
          else (Ok nextLevel1, s1)
      end
  end.

Definition maxBatch : Z := 64 * 1024.

(** The loop over [absentBatches]. When [nextAbsent] reaches [64*1024]
    entries the source computes [newBatches] and drops them, sets [i] to
    [-1] and takes a new, empty [nextAbsent]: the same [absentBatches] are
    visited again from the first. *)
Fixpoint batchLoop (fuel : nat) (absentBatches : list HashSet) (i : nat)
    (nextAbsent : HashSet) (s : State) : outcome_of HashSet * State :=
  match fuel with
  | O => (OutOfFuel, s)
  | S fuel' =>
    match absentBatches !! i with
    | None => (Done (Ok nextAbsent), s)
    | Some batch =>
      let s := log_call (CallHasMany batch) s in
      match HasMany (sinkDBCS (puller s)) batch with
      | Err e => (Done (Err e), s)
      | Ok batch' =>
        let absentBatches := <[ i := batch' ]> absentBatches in
        if len_set batch' >? 0 then
          match getCmp batch' nextAbsent s with
          | (Err e, s1) => (Done (Err e), s1)
          | (Ok nextAbsent1, s1) =>
            if len_set nextAbsent1 >=? maxBatch then
              let '(_, _, dl) :=
                limitToNewChunks range_of nextAbsent1
                  (downloaded (puller s1)) maxBatch in
              let s2 := set_puller (with_downloaded dl) s1 in
              batchLoop fuel' absentBatches 0 ∅ s2
            else batchLoop fuel' absentBatches (S i) nextAbsent1 s1
          end
        else batchLoop fuel' absentBatches (S i) nextAbsent s
      end
    end
  end.

(** [for numAbsent > 0 { ... }] *)
Fixpoint levelLoop (fuel : nat) (absent : HashSet) (numAbsent : Z)
    (s : State) : outcome_of unit * State :=
  match fuel with
  | O => (OutOfFuel, s)
  | S fuel' =>
    if numAbsent >? 0 then
      let '(numAbsent1, absentBatches, dl) :=
        limitToNewChunks range_of absent (downloaded (puller s)) maxBatch in
      let s := set_puller (with_downloaded dl) s in
      match batchLoop fuel' absentBatches 0 ∅ s with
      | (OutOfFuel, s1) => (OutOfFuel, s1)
      | (Done (Err e), s1) => (Done (Err e), s1)
      | (Done (Ok nextAbsent), s1) => levelLoop fuel' nextAbsent numAbsent1 s1
      end
    else (Done (Ok tt), s)
  end.

(** The last writer goes to [completedTables] when it holds a chunk. *)
Definition flushLast (s : State) : option error * State :=
  match wr (puller s) with
  | Some w => if ChunkCount w >? 0 then sendCompleted w s else (None, s)
  | None => (None, s)
  end.

(** [Pull]: the error it returns, or [OutOfFuel] when the loops need more
    than [fuel] turns. *)
Definition Pull (fuel : nat) (s : State) : outcome_of unit * State :=
  let absent : HashSet := hashes (puller s) in
  let s := set_sema (fun n => n + 1) s in
  let numAbsent := len_set absent in
  match levelLoop fuel absent numAbsent s with
  | (OutOfFuel, s1) => (OutOfFuel, s1)
  | (Done (Err e), s1) => (Done (Err e), s1)
  | (Done (Ok _), s1) =>
      match flushLast s1 with
      | (Some e, s2) => (Done (Err e), s2)
      | (None, s2) =>
          (* close(completedTables) *)
          match commitManifest s2 with
          | (Some e, s3) => (Done (Err e), s3)
          | (None, s3) => (Done (Ok tt), s3)
          end
      end
  end.

End Pull.

Definition initState (p : Puller) (d : TempDir) : State :=
  mkState p d 0 [] ∅ [].

(** ** [emitStats]: the goroutine that samples the rates

    [float64] values are the binary64 floats of [SpecFloat] (53 bits of
    precision, exponents up to 1024), with each operation rounded on its
    own. The two rates are kept in [stats] as the bits of a [float64];
    [math.Float64bits] and [math.Float64frombits] are inverse to each other,
    so the state below holds the floats themselves, next to the two locals
    [lastSendBytes] and [lastFetchedBytes] of the goroutine. *)

Definition float64_of_uint64 (z : Z) : spec_float :=
  binary_normalize 53 1024 z 0 false.
Definition f64_add : spec_float → spec_float → spec_float := SFadd 53 1024.
Definition f64_sub : spec_float → spec_float → spec_float := SFsub 53 1024.
Definition f64_mul : spec_float → spec_float → spec_float := SFmul 53 1024.
Definition f64_zero : spec_float := S754_zero false.
Definition f64_one : spec_float := float64_of_uint64 1.

(** [time.Duration] counts nanoseconds. *)
Definition Millisecond : Z := 1000000.
Definition Second : Z := 1000 * Millisecond.

Definition sampleduration : Z := 100 * Millisecond.
Definition samplesinsec : Z := u64 (Z.quot (1 * Second) sampleduration).

(** The constant [0.1] as a [float64]. *)
Definition weight : spec_float := S754_finite false 7205759403792794 (-56).

Record sampler : Type := mkSampler {
  lastSendBytes : Z;
  lastFetchedBytes : Z;
  sendBytesPerSec : spec_float;
  fetchedSourceBytesPerSec : spec_float
}.

Definition sampler0 : sampler := mkSampler 0 0 f64_zero f64_zero.

(** What the goroutine does when the ticker fires, given the counters it
    reads. *)
Definition sampleRates (s : stats) (r : sampler) : sampler :=
  let newSendBytes := finishedSendBytes s in
  let newFetchedBytes := fetchedSourceBytes s in
  let sendBytesDiff := u64_sub newSendBytes (lastSendBytes r) in
  let fetchedBytesDiff := u64_sub newFetchedBytes (lastFetchedBytes r) in
  let newSendBPS := float64_of_uint64 (u64_mul sendBytesDiff samplesinsec) in
  let newFetchedBPS := float64_of_uint64 (u64_mul fetchedBytesDiff samplesinsec) in
  let curSendBPS := sendBytesPerSec r in
  let curFetchedBPS := fetchedSourceBytesPerSec r in
  let smoothedSendBPS :=
    if negb (SFeqb curSendBPS f64_zero)
    then f64_add curSendBPS (f64_mul weight (f64_sub newSendBPS curSendBPS))
    else newSendBPS in
  let smoothedFetchBPS :=
    if negb (SFeqb curFetchedBPS f64_zero)
    then f64_add curFetchedBPS (f64_mul weight (f64_sub newFetchedBPS curFetchedBPS))
    else newFetchedBPS in
  let smoothedSendBPS :=
    if SFltb smoothedSendBPS f64_one then f64_zero else smoothedSendBPS in
  let smoothedFetchBPS :=
    if SFltb smoothedFetchBPS f64_one then f64_zero else smoothedFetchBPS in
  mkSampler newSendBytes newFetchedBytes smoothedSendBPS smoothedFetchBPS.

(** The loop of the goroutine over the ticks that come before [done]; each
    tick is given as the counters read at it. *)
Definition sampleLoop (ticks : list stats) (r : sampler) : sampler :=
  fold_left (fun r s => sampleRates s r) ticks r.

(** ** [processCompletedTables] beside the goroutine that feeds it

    [processCompletedTables] runs in a goroutine of its own; the channel
    [completedTables] (capacity 8) and the context are all it shares with the
    driver of [Pull]. A [Pipe] holds the shared state, the table files sent
    and not yet received, whether the channel is closed, whether the context
    is done, and what [processCompletedTables] returned once it has. The
    driver is any goroutine that sends, works on the puller and the temp
    directory, calls [HasMany] and [GetManyCompressed], and closes the
    channel last. *)

Record Pipe : Type := mkPipe {
  shared : State;
  buffer : list CmpChunkTableWriter;
  closed : bool;
  cancelled : bool;
  returned : option (option error)
}.

Definition pipe0 (s : State) : Pipe := mkPipe s [] false false None.

Definition driver_call (c : Call) : bool :=
  match c with
  | CallHasMany _ | CallGetManyCompressed _ => true
  | CallWriteTableFile _ _ _ | CallAddTableFilesToManifest _ => false
  end.

(** What a driver may do to the shared state between two sends. *)
Definition driver_work (s s' : State) : Prop :=
  sinkDBCS (puller s') = sinkDBCS (puller s) ∧
  completedTables s' = completedTables s ∧
  fileIdToNumChunks s' = fileIdToNumChunks s ∧
  calls s' = calls s.

Inductive step (tf : TableFormat) : Pipe → Pipe → Prop :=
| step_send (w : CmpChunkTableWriter) (π : Pipe) :
    closed π = false →
    (length (buffer π) < 8)%nat →
    step tf π (mkPipe (send_completed w (shared π)) (buffer π ++ [w])
                      (closed π) (cancelled π) (returned π))
| step_close (π : Pipe) :
    closed π = false →
    step tf π (mkPipe (shared π) (buffer π) true (cancelled π) (returned π))
| step_cancel (π : Pipe) :
    step tf π (mkPipe (shared π) (buffer π) (closed π) true (returned π))
| step_driver_call (c : Call) (π : Pipe) :
    closed π = false →
    driver_call c = true →
    step tf π (mkPipe (log_call c (shared π)) (buffer π)
                      (closed π) (cancelled π) (returned π))
| step_driver_work (s' : State) (π : Pipe) :
    closed π = false →
    driver_work (shared π) s' →
    step tf π (mkPipe s' (buffer π) (closed π) (cancelled π) (returned π))
| step_receive (w : CmpChunkTableWriter) (ws : list CmpChunkTableWriter)
    (π : Pipe) (s' : State) :
    returned π = None →
    buffer π = w :: ws →
    processCompletedTable tf w (shared π) = (None, s') →
    step tf π (mkPipe s' ws (closed π) (cancelled π) None)
| step_receive_fail (w : CmpChunkTableWriter) (ws : list CmpChunkTableWriter)
    (π : Pipe) (s' : State) (e : error) :
    returned π = None →
    buffer π = w :: ws →
    processCompletedTable tf w (shared π) = (Some e, s') →
    step tf π (mkPipe s' ws (closed π) true (Some (Some e)))
| step_receive_closed (π : Pipe) :
    returned π = None →
    buffer π = [] →
    closed π = true →
    step tf π (mkPipe (snd (commitManifest (shared π))) [] true (cancelled π)
                      (Some (fst (commitManifest (shared π)))))
| step_ctx_done (π : Pipe) :
    returned π = None →
    cancelled π = true →
    step tf π (mkPipe (shared π) (buffer π) (closed π) true (Some (Some ErrCtx))).

(** The map [processCompletedTables] builds from the table files it has
    uploaded, oldest first. *)
Definition accumulate (tf : TableFormat) (ws : list CmpChunkTableWriter)
    : gmap string Z :=
  fold_left (fun (m : gmap string Z) (w : CmpChunkTableWriter) =>
               <[ tableId tf (w_chunks w) := ChunkCount w ]> m) ws ∅.

(** ** Stores and formats to run the puller on

    A source store over a graph given as a map from the address of a chunk to
    its payload; the payload lists the outbound addresses, one byte each, so
    that decoding is the identity and the walker reads the bytes. *)

Module Fixtures.

Definition hash_of_byte (b : Byte.byte) : Hash := Byte.to_N b.

Definition walkBytes : WalkAddrs :=
  fun chnk => Ok (map (fun b => (hash_of_byte b, false)) chnk).

Definition decodeId (c : CompressedChunk) : result (list Byte.byte) :=
  Ok (FullCompressedChunk c).

Definition lookupChunks (graph : gmap N (list Byte.byte)) (hs : list Hash)
    : list CompressedChunk :=
  omap (fun h => mkCompressedChunk h <$> graph !! h) hs.

(** A store holding [graph]. As a source it emits every chunk it has
    [copies] times; as a sink it reads a table file as [reads] tells. *)
Definition store (version : string) (graph : gmap N (list Byte.byte))
    (copies : nat) (reads : Z → list Z) : ChunkStore :=
  {| Version := version;
     HasMany := fun hs => Ok (filter (fun h => h ∉ dom graph) hs);
     GetManyCompressed :=
       Some (fun batch =>
               (mjoin (replicate copies (lookupChunks graph (elements batch))),
                None));
     WriteTableFile := fun _ _ _ contentLen => mkWritePlan (reads contentLen) None;
     AddTableFilesToManifest := fun _ => None;
     LogLines := None |}.

Definition readOnce (contentLen : Z) : list Z := [contentLen].

(** A sink whose first attempt reads nothing and whose second reads all. *)
Definition readAfterEmptyAttempt (contentLen : Z) : list Z := [0; contentLen].

Definition graphStore (version : string) (graph : gmap N (list Byte.byte))
    : ChunkStore :=
  store version graph 1 readOnce.

Definition idChar (c : CompressedChunk) : ascii :=
  ascii_of_N (chunkHash c + 48).

Definition plainFormat : TableFormat :=
  {| ToChunk := decodeId;
     tableId := fun cs => string_of_list_ascii (map idChar cs);
     indexAndFooterLen := fun cs => 28 * Z.of_nat (length cs) + 20;
     tableMD5 := fun _ => [];
     newWriterFails := fun _ => None;
     addFails := fun _ _ => None;
     finishFails := fun _ => None;
     readerFails := fun _ _ => None |}.

Definition quietOS : OS :=
  {| LookupEnv := fun _ => None; openFileFails := fun _ => None |}.

Definition emptyDir : TempDir := mkTempDir ∅ 0 None.

(** [NewPuller] followed by [Pull]. *)
Definition run (fuel : nat) (chunksPerTF : Z) (src sink : ChunkStore)
    (roots : list Hash) : option (outcome_of unit * State) :=
  match NewPuller quietOS plainFormat "tmp" chunksPerTF src sink
          walkBytes roots false emptyDir with
  | (Ok p, d) => Some (Pull plainFormat elements fuel (initState p d))
  | (Err _, _) => None
  end.

(** A puller as [NewPuller] leaves it, over a given sink and source
    function, with the writer [w]. *)
Definition pullerOver (getMany : HashSet → list CompressedChunk * option error)
    (sink : ChunkStore) (roots : HashSet) (w : CmpChunkTableWriter)
    (chunksPerTF : Z) (st : stats) : Puller :=
  mkPuller walkBytes getMany sink roots ∅ (Some w) "tmp" chunksPerTF
           None false st.

Definition sourceOf (src : ChunkStore)
    : HashSet → list CompressedChunk * option error :=
  default (fun _ => ([], None)) (GetManyCompressed src).

(** One table file of one chunk of ten bytes, finished: 10 bytes of chunk
    data, 58 bytes in all. *)
Definition tenBytes : CompressedChunk :=
  mkCompressedChunk 1 (replicate 10 Byte.x00).

Definition oneChunkWriter (finished : bool) : CmpChunkTableWriter :=
  mkWriter 0 [tenBytes] finished.

Definition oneChunkFile : tempTblFile :=
  {| id := tableId plainFormat [tenBytes];
     read := oneChunkWriter true;
     numChunks := 1;
     chunksLen := ContentLength plainFormat (oneChunkWriter false);
     contentLen := ContentLength plainFormat (oneChunkWriter true);
     contentHash := [] |}.

(** The state in which that file reaches [uploadTempTableFile]: the ten
    bytes of chunk data were added to [bufferedSendBytes] when the chunk was
    packed; the sink is one whose first attempt reads nothing. *)
Definition retryState : State :=
  mkState
    (pullerOver (fun _ => ([], None))
       (store "v" ∅ 1 readAfterEmptyAttempt) ∅ (mkWriter 1 [] false) 10
       (mkStats 0 10 0 0 0))
    (mkTempDir {[ 0%nat; 1%nat ]} 2 None) 1 [oneChunkWriter false] ∅ [].

(** A source that holds the childless chunk 1 and emits every chunk twice,
    and the state of a puller in front of it. *)
Definition leaf1 : gmap N (list Byte.byte) := {[ 1%N := [] ]}.

Definition twiceState : State :=
  initState
    (pullerOver (sourceOf (store "v" leaf1 2 readOnce)) (graphStore "v" ∅)
       {[ 1%N ]} (mkWriter 0 [] false) 10 stats0)
    (mkTempDir {[ 0%nat ]} 1 None).

(** A puller with an empty writer, in front of an empty sink that reads a
    table file in one attempt. *)
Definition idleState : State :=
  initState
    (pullerOver (fun _ => ([], None)) (graphStore "v" ∅) ∅
       (mkWriter 1 [] false) 10 stats0)
    (mkTempDir {[ 0%nat; 1%nat ]} 2 None).

(** The tree [1 → {2, 3}] with childless [2] and [3], and the chain
    [1 → 2 → 3 → 4] whose last chunk the source does not hold. *)
Definition tree : gmap N (list Byte.byte) :=
  {[ 1%N := [Byte.x02; Byte.x03]; 2%N := []; 3%N := [] ]}.

Definition brokenChain : gmap N (list Byte.byte) :=
  {[ 1%N := [Byte.x02]; 2%N := [Byte.x03]; 3%N := [Byte.x04] ]}.

(** The chain [1 → 2 → 3 → 4 → 5], all five chunks held. *)
Definition chain5 : gmap N (list Byte.byte) :=
  {[ 1%N := [Byte.x02]; 2%N := [Byte.x03]; 3%N := [Byte.x04];
     4%N := [Byte.x05]; 5%N := [] ]}.

(** The chunk [1] whose only outbound address is [1]. *)
Definition selfCycle : gmap N (list Byte.byte) := {[ 1%N := [Byte.x01] ]}.

(** The state [NewPuller] leaves for a pull of root [1] from [graph] into an
    empty sink, in an empty temp directory. *)
Definition pullOf (graph : gmap N (list Byte.byte)) (chunksPerTF : Z) : State :=
  initState
    (pullerOver (sourceOf (graphStore "v" graph)) (graphStore "v" ∅)
       {[ 1%N ]} (mkWriter 0 [] false) chunksPerTF stats0)
    (mkTempDir {[ 0%nat ]} 1 None).


(** [PUSH_LOG=True] in the environment, and no file can be opened. *)
Definition lockedOS : OS :=
  {| LookupEnv := fun name =>
       if String.eqb name "PUSH_LOG" then Some "True"%string else None;
     openFileFails := fun _ => Some (ErrExternal 13) |}.

End Fixtures.

(** ** A sink that refuses table files

    A sink that takes the table file ["1"] and refuses every other one,
    three finished table files of one chunk each, and a state in which
    their temp files exist. *)
Definition pickySink : ChunkStore :=
  {| Version := "v";
     HasMany := fun hs => Ok hs;
     GetManyCompressed := None;
     WriteTableFile := fun id _ _ contentLen =>
       mkWritePlan [contentLen]
         (if String.eqb id "1" then None else Some (ErrExternal 5));
     AddTableFilesToManifest := fun _ => None;
     LogLines := None |}.

Definition fileAt (name : string) (path : nat) : tempTblFile :=
  {| id := name;
     read := mkWriter path [Fixtures.tenBytes] true;
     numChunks := 1;
     chunksLen := 10;
     contentLen := 58;
     contentHash := [] |}.

Definition threeFiles : list tempTblFile :=
  [fileAt "1" 0; fileAt "2" 1; fileAt "3" 2].

Definition uploadState : State :=
  initState
    (Fixtures.pullerOver (fun _ => ([], None)) pickySink ∅
       (mkWriter 3 [] false) 10 stats0)
    (mkTempDir {[ 0%nat; 1%nat; 2%nat; 3%nat ]} 4 None).

(** ** A sink that logs

    An empty sink that is a [chunks.LoggingChunkStore] and logs one line
    for each call made on it, and an environment with [PUSH_LOG=true] in
    which the log file can be opened. *)
Definition loggingSink : ChunkStore :=
  {| Version := "v";
     HasMany := fun hs => Ok hs;
     GetManyCompressed := Some (fun _ => ([], None));
     WriteTableFile := fun _ _ _ contentLen => mkWritePlan [contentLen] None;
     AddTableFilesToManifest := fun _ => None;
     LogLines :=
       Some (fun c =>
               match c with
               | CallHasMany _ => ["HasMany"%string]
               | CallGetManyCompressed _ => ["GetManyCompressed"%string]
               | CallWriteTableFile id _ _ => [("WriteTableFile " ++ id)%string]
               | CallAddTableFilesToManifest _ =>
                   ["AddTableFilesToManifest"%string]
               end) |}.

Definition loggingOS : OS :=
  {| LookupEnv := fun name =>
       if String.eqb name "PUSH_LOG" then Some "true"%string else None;
     openFileFails := fun _ => None |}.

(** ** What the properties are stated with *)





(** The state in which [getCmp] starts its three goroutines. *)
Definition getCmpStart (batch : HashSet) (s : State) : State :=
  log_call (CallGetManyCompressed batch)
    (set_puller (with_stats (add_totalSourceChunks (len_set batch))) s).

(** The claim as the specification words it: a batch fails when fewer chunks
    arrive than were asked for, and passes otherwise. *)
Definition fails_only_when_fewer (tf : TableFormat)
    (batch nextLevel : HashSet) (s : State) : Prop :=
  ∀ found seen nextLevel1 s1,
    srcChunkStore (puller s) batch = (found, None) →
    getCmpLoop tf found 0 nextLevel (getCmpStart batch s)
      = (Ok (seen, nextLevel1), s1) →
    (seen < len_set batch →
     getCmp tf batch nextLevel s = (Err errIncompleteFetch, s1)) ∧
    (¬ seen < len_set batch →
     getCmp tf batch nextLevel s = (Ok nextLevel1, s1)).

Definition no_commit (cs : list Call) : Prop :=
  ∀ m, CallAddTableFilesToManifest m ∉ cs.

(** [w] was uploaded: [WriteTableFile] was called with its id and its chunk
    count and returned no error. *)
Definition uploaded (tf : TableFormat) (cs : list Call)
    (w : CmpChunkTableWriter) : Prop :=
  CallWriteTableFile (tableId tf (w_chunks w)) (ChunkCount w) None ∈ cs.

(** What holds of every state the two goroutines can reach. While
    [processCompletedTables] runs, the table files sent are those received
    followed by those waiting in the channel, every received one was
    uploaded, the map holds exactly the received ones, and no commit was
    made. Once it has returned, either no commit was made, or the commit is
    the last call, the channel was closed and empty, and every table file
    ever sent was uploaded before it. *)
Definition pipe_inv (tf : TableFormat) (π : Pipe) : Prop :=
  let s := shared π in
  match returned π with
  | None =>
      ∃ received,
        completedTables s = received ++ buffer π ∧
        Forall (uploaded tf (calls s)) received ∧
        no_commit (calls s) ∧
        fileIdToNumChunks s = accumulate tf received
  | Some _ =>
      no_commit (calls s) ∨
      ∃ pre,
        calls s = pre ++ [CallAddTableFilesToManifest
                            (accumulate tf (completedTables s))] ∧
        no_commit pre ∧
        Forall (uploaded tf pre) (completedTables s) ∧
        closed π = true ∧ buffer π = []
  end.

(** What every step of a pull keeps: the threshold and the sink of the
    puller, a property of every call made and a property of every writer
    sent. *)
Definition kept (c : Z) (sink : ChunkStore) (okCall : Call → Prop)
    (okSent : CmpChunkTableWriter → Prop) (s : State) : Prop :=
  chunksPerTF (puller s) = c ∧
  sinkDBCS (puller s) = sink ∧
  Forall okCall (calls s) ∧
  Forall okSent (completedTables s).


(** The claim as the specification words it: whatever a pull returns, the
    temp directory holds no table file it did not hold before. *)
Definition temp_dir_clean_after (tf : TableFormat)
    (range_of : HashSet → list Hash) (fuel : nat) (s : State) : Prop :=
  ∀ r s', Pull tf range_of fuel s = (Done r, s') →
          tables (dir s') ⊆ tables (dir s).

(** How often address [h] was asked of the source. *)
Fixpoint fetchesOf (h : Hash) (cs : list Call) : nat :=
  match cs with
  | [] => 0
  | CallGetManyCompressed batch :: cs' =>
      if decide (h ∈ batch) then S (fetchesOf h cs') else fetchesOf h cs'
  | _ :: cs' => fetchesOf h cs'
  end.

(** The states of a pull of the self-referring chunk into the empty sink:
    nothing is ever marked downloaded, and there is a writer. *)
Definition cycling (s : State) : Prop :=
  waf (puller s) = Fixtures.walkBytes ∧
  srcChunkStore (puller s) = Fixtures.sourceOf (Fixtures.graphStore "v" Fixtures.selfCycle) ∧
  sinkDBCS (puller s) = Fixtures.graphStore "v" ∅ ∧
  downloaded (puller s) = ∅ ∧
  is_Some (wr (puller s)).

(** ** More to state properties with *)

(** [P] after a step that returned no error, [Pfail] after one that did. *)
Definition holds_after {A : Type} (P Pfail : State → Prop)
    (r : result A) (s : State) : Prop :=
  match r with
  | Ok _ => P s
  | Err _ => Pfail s
  end.

Definition holds_after_opt (P Pfail : State → Prop)
    (r : option error) (s : State) : Prop :=
  match r with
  | None => P s
  | Some _ => Pfail s
  end.

Definition holds_at {A : Type} (P Pfail : State → Prop)
    (o : outcome_of A) (s : State) : Prop :=
  match o with
  | Done (Err _) => Pfail s
  | Done (Ok _) | OutOfFuel => P s
  end.

(** The sum of the sizes of the batches. *)
Definition total_len (batches : list HashSet) : Z :=
  foldr (fun b acc => len_set b + acc) 0 batches.

(** [range_of] visits the keys of a set and no others. *)
Definition visits_keys (range_of : HashSet → list Hash) : Prop :=
  ∀ (hs : HashSet) (k : Hash), k ∈ range_of hs ↔ k ∈ hs.

(** The fields of the puller that [NewPuller] sets and [Pull] only reads. *)
Definition same_config (p p' : Puller) : Prop :=
  waf p' = waf p ∧ srcChunkStore p' = srcChunkStore p ∧
  sinkDBCS p' = sinkDBCS p ∧ hashes p' = hashes p ∧
  tempDir p' = tempDir p ∧ chunksPerTF p' = chunksPerTF p ∧
  pushLog p' = pushLog p ∧ statsCh p' = statsCh p.

(** The log file [l'] is [l] with lines added at its end, if any. *)
Definition log_grows (l l' : option (list string)) : Prop :=
  l' = l ∨ ∃ new, l' = Some (default [] l ++ new).

(** [s'] comes after [s]: the same configuration, more marked as
    downloaded, more calls made and more table files sent, a log file that
    has only gained lines (none when the puller has no logger), and no
    table file in the temp directory that was not there or was made
    since. *)
Definition extends (s s' : State) : Prop :=
  same_config (puller s) (puller s') ∧
  downloaded (puller s) ⊆ downloaded (puller s') ∧
  calls s `prefix_of` calls s' ∧
  completedTables s `prefix_of` completedTables s' ∧
  log_grows (pushLogFile (dir s)) (pushLogFile (dir s')) ∧
  (pushLog (puller s) = None → pushLogFile (dir s') = pushLogFile (dir s)) ∧
  (fresh (dir s) ≤ fresh (dir s'))%nat ∧
  ∀ x, x ∈ tables (dir s') →
       x ∈ tables (dir s) ∨ (fresh (dir s) ≤ x < fresh (dir s'))%nat.

(** The bytes of chunk data in the writer the puller is filling. *)
Definition unsent (s : State) : Z :=
  match wr (puller s) with
  | Some w => chunkDataLen (w_chunks w)
  | None => 0
  end.

(** A sink that opens the body of every table file once and reads it to
    its end, and a format whose files can always be opened for reading. *)
Definition reads_to_end (cs : ChunkStore) : Prop :=
  ∀ id n md5 len,
    ∃ k, attempts (WriteTableFile cs id n md5 len) = [k] ∧ len ≤ k.

Definition readers_open (tf : TableFormat) : Prop :=
  ∀ path attempt, readerFails tf path attempt = None.

(** The writer being filled is not finished, and [bufferedSendBytes] is
    [finishedSendBytes] plus the chunk data not yet sent, as [uint64]
    values. *)
Definition balanced (s : State) : Prop :=
  (∀ w, wr (puller s) = Some w → w_finished w = false) ∧
  finishedSendBytes (pstats (puller s))
  = u64 (finishedSendBytes (pstats (puller s))) ∧
  bufferedSendBytes (pstats (puller s))
  = u64 (finishedSendBytes (pstats (puller s)) + unsent s).

(** The chunks the source has handed over for the batches asked of it, in
    the order of the calls. *)
Definition delivered (src : HashSet → list CompressedChunk * option error)
    (cs : list Call) : list CompressedChunk :=
  flat_map (fun c => match c with
                     | CallGetManyCompressed batch => fst (src batch)
                     | _ => []
                     end) cs.

(** The chunks packed so far: those of the table files sent, oldest
    first, then those of the writer being filled. *)
Definition sent_chunks (s : State) : list CompressedChunk :=
  concat (map w_chunks (completedTables s)).

Definition packed (s : State) : list CompressedChunk :=
  sent_chunks s ++ match wr (puller s) with
                   | Some w => w_chunks w
                   | None => []
                   end.

Definition is_upload (c : Call) : Prop :=
  match c with
  | CallWriteTableFile _ _ _ => True
  | _ => False
  end.

(** What is packed is what the writer held at the start followed by what
    the source has handed over. *)
Definition follows (src : HashSet → list CompressedChunk * option error)
    (start : list CompressedChunk) (s : State) : Prop :=
  srcChunkStore (puller s) = src ∧
  packed s = start ++ delivered src (calls s).

(** [h] is an outbound address of a chunk of [found], as the walker
    reports them; the walker's leaf flag is not looked at. *)
Definition referenced (tf : TableFormat) (walk : WalkAddrs)
    (found : list CompressedChunk) (h : Hash) : Prop :=
  ∃ c chnk walked isleaf,
    c ∈ found ∧ ToChunk tf c = Ok chnk ∧ walk chnk = Ok walked ∧
    (h, isleaf) ∈ walked.

(** The last call of [cs], or [prev] when [cs] is empty. *)
Definition last_call (prev : option Call) (cs : list Call) : option Call :=
  match last cs with
  | Some c => Some c
  | None => prev
  end.

(** A call of the source's [GetManyCompressed] comes right after a call
    of the sink's [HasMany], and its batch is what the sink answered, which
    was not empty. *)
Definition asked_of (sink : ChunkStore) (prev : option Call) (c : Call)
    : Prop :=
  match c with
  | CallGetManyCompressed batch =>
      ∃ asked, prev = Some (CallHasMany asked) ∧
               HasMany sink asked = Ok batch ∧ 0 < len_set batch
  | _ => True
  end.

Fixpoint asked_first (sink : ChunkStore) (prev : option Call)
    (cs : list Call) : Prop :=
  match cs with
  | [] => True
  | c :: cs' => asked_of sink prev c ∧ asked_first sink (Some c) cs'
  end.

(** The calls of the driver among [cs]: those of [HasMany] and of
    [GetManyCompressed], in order. The calls of [WriteTableFile] are made
    by the goroutine that receives the table files and can fall anywhere
    between them. *)
Definition driver_calls (cs : list Call) : list Call :=
  filter (fun c => driver_call c = true) cs.

(** The temp file of the writer the puller is filling. *)
Definition own_file (s : State) : gset nat :=
  match wr (puller s) with
  | Some w => {[ w_path w ]}
  | None => ∅
  end.

(** The temp directory holds nothing but the files of [old] and the file
    of the writer being filled. *)
Definition only_own (old : gset nat) (s : State) : Prop :=
  tables (dir s) ⊆ old ∪ own_file s.

(** The call that uploads [f], and the temp files of a list of table
    files. *)
Definition uploadCall (ret : option error) (f : tempTblFile) : Call :=
  CallWriteTableFile (id f) (numChunks f) ret.

Definition paths (files : list tempTblFile) : gset nat :=
  list_to_set (map (fun f => w_path (read f)) files).

(** A call of the driver that came back without error. *)
Definition answered (src : HashSet → list CompressedChunk * option error)
    (sink : ChunkStore) (c : Call) : Prop :=
  match c with
  | CallHasMany hs => ∃ absent, HasMany sink hs = Ok absent
  | CallGetManyCompressed batch => snd (src batch) = None
  | _ => True
  end.

(** All calls of [cs] but the last one. *)
Definition all_but_last (P : Call → Prop) (cs : list Call) : Prop :=
  ∀ init c, cs = init ++ [c] → Forall P init.

(** The temp file [x] is that of a table file that was sent on
    [completedTables] and for which [WriteTableFile] was called. *)
Definition handed_to_upload (tf : TableFormat) (s : State) (x : nat) : Prop :=
  ∃ w ret,
    w ∈ completedTables s ∧ w_path w = x ∧
    CallWriteTableFile (tableId tf (w_chunks w)) (ChunkCount w) ret ∈ calls s.

(** [s'] comes after [s], and every table file that was in the temp
    directory at [s] or was made since is still there at [s'] or was
    handed to the upload. *)
Definition removes_by_upload (tf : TableFormat) (s s' : State) : Prop :=
  extends s s' ∧
  ∀ x, x ∈ tables (dir s) ∨ (fresh (dir s) ≤ x < fresh (dir s'))%nat →
       x ∈ tables (dir s') ∨ handed_to_upload tf s' x.

(** * Properties *)

(** ** The startup checks of [NewPuller] *)

Lemma len_set_zero (hs : HashSet) : (len_set hs =? 0) = true ↔ hs = ∅.
Proof.
  unfold len_set. rewrite Z.eqb_eq. split.
  - intros Hz. apply leibniz_equiv, size_empty_iff. lia.
  - intros ->. by rewrite size_empty.
Qed.

Lemma len_set_nonzero (hs : HashSet) : (len_set hs =? 0) = false ↔ hs ≠ ∅.
Proof.
  rewrite <- len_set_zero. destruct (len_set hs =? 0); split; congruence.
Qed.


Section StartupChecks.

Context (os : OS) (tf : TableFormat) (tempDir : string) (chunksPerTF : Z)
        (srcCS sinkCS : ChunkStore)
        (walkAddrs : WalkAddrs) (hashes : list Hash) (statsCh : bool)
        (d : TempDir).

Local Abbreviation roots := (list_to_set hashes : gset N).
Local Abbreviation new :=
  (NewPuller os tf tempDir chunksPerTF srcCS sinkCS
     walkAddrs hashes statsCh d).
Local Abbreviation traced :=
  (NewPuller_traced os tf tempDir chunksPerTF srcCS sinkCS
     walkAddrs hashes statsCh d).



(** C10. With [PUSH_LOG] set to a spelling of "true" and the opening of
    [<tempDir>/push.log] failing, a [NewPuller] that passes its checks
    returns a puller and no error; the puller has no logger, no log file
    was made, and [Logf] changes nothing. *)
Theorem NewPuller_push_log_open_failure
    (dbg : string) (e : error) (sinkMissing : HashSet)
    (getMany : HashSet → list CompressedChunk * option error) :
  LookupEnv os "PUSH_LOG" = Some dbg →
  ToLower dbg = "true"%string →
  openFileFails os (filepath_Join tempDir "push.log") = Some e →
  HasMany srcCS roots = Ok ∅ →
  HasMany sinkCS roots = Ok sinkMissing →
  sinkMissing ≠ ∅ →
  Version srcCS = Version sinkCS →
  GetManyCompressed srcCS = Some getMany →
  newWriterFails tf (fresh d) = None →
  ∃ (p : Puller) (d' : TempDir),
    new = (Ok p, d') ∧
    pushLog p = None ∧
    pushLogFile d' = pushLogFile d ∧
    ∀ (line : string) (d'' : TempDir), Logf p line d'' = d''.
Proof.
  unfold NewPuller, NewPuller_traced.
  intros Henv Hlow Hopen -> -> Hne Hv -> Hnew.
  replace (len_set ∅ =? 0) with true by done. cbn [negb].
  apply len_set_nonzero in Hne. rewrite Hne.
  rewrite Hv, String.eqb_refl. cbn [negb].
  unfold NewCmpChunkTableWriter. rewrite Hnew.
  rewrite Henv, Hlow. cbn [String.eqb Ascii.eqb Bool.eqb].
  replace ("true" =? "true")%string with true by done.
  unfold OpenPushLog. rewrite Hopen.
  eexists _, _. split; [reflexivity|]. cbn. done.
Qed.

End StartupChecks.

Lemma singleton_nonempty (h : Hash) : ({[ h ]} : gset N) ≠ ∅.
Proof. apply non_empty_singleton_L. Qed.



Lemma NewPuller_push_log_open_failure_witness :
  ∃ (p : Puller) (d' : TempDir),
    NewPuller Fixtures.lockedOS Fixtures.plainFormat "tmp" 2
      (Fixtures.graphStore "v" Fixtures.tree) (Fixtures.graphStore "v" ∅)
      Fixtures.walkBytes [1%N] false Fixtures.emptyDir
    = (Ok p, d') ∧
    pushLog p = None ∧
    pushLogFile d' = pushLogFile Fixtures.emptyDir ∧
    ∀ (line : string) (d'' : TempDir), Logf p line d'' = d''.
Proof.
  eapply (NewPuller_push_log_open_failure Fixtures.lockedOS
            Fixtures.plainFormat "tmp" 2
            (Fixtures.graphStore "v" Fixtures.tree) (Fixtures.graphStore "v" ∅)
            Fixtures.walkBytes [1%N] false Fixtures.emptyDir
            "True" (ErrExternal 13) {[ 1%N ]}).
  - reflexivity.
  - reflexivity.
  - reflexivity.
  - vm_compute. reflexivity.
  - vm_compute. reflexivity.
  - apply singleton_nonempty.
  - reflexivity.
  - reflexivity.
  - reflexivity.
Defined.

(** ** The body callback of [uploadTempTableFile] *)

Section BodyCallback.

Context (tf : TableFormat) (t : tempTblFile) (attempt : nat) (st : stats).

Hypothesis reader_ok : readerFails tf (w_path (read t)) attempt = None.

(** With [localUploaded] at zero the callback adds the bytes of the index and
    the footer: the final content length less the chunk-data length. *)
Lemma openBody_nothing_uploaded :
  openBody tf t attempt 0 st =
  (Ok (u64 (contentLen t)), 0,
   add_bufferedSendBytes (u64_sub (u64 (contentLen t)) (chunksLen t)) st).
Proof. unfold openBody. by rewrite reader_ok. Qed.

(** With [localUploaded] not zero the callback adds what the previous attempt
    read and starts counting anew. *)
Lemma openBody_after_progress (localUploaded : Z) :
  localUploaded ≠ 0 →
  openBody tf t attempt localUploaded st =
  (Ok (u64 (contentLen t)), 0, add_bufferedSendBytes (u64 localUploaded) st).
Proof.
  intros Hne. unfold openBody. rewrite reader_ok.
  by destruct (Z.eqb_spec localUploaded 0).
Qed.

End BodyCallback.

(** C8. The code tells a retry from the first invocation by [localUploaded]
    being zero, so a retry that follows an attempt which read nothing is
    taken for the first invocation. On the 58-byte table file (10 bytes of
    chunk data, already counted in [bufferedSendBytes]) and a sink whose
    first attempt reads no byte and whose second reads all 58: the first
    invocation adds the 48 bytes of index and footer; the second invocation
    adds 48 bytes again, not the 0 bytes read by the attempt before it; the
    upload ends with [finishedSendBytes] at 58 and [bufferedSendBytes] at
    106. *)
Theorem uploadTempTableFile_retry_without_progress :
  openBody Fixtures.plainFormat Fixtures.oneChunkFile 0 0 (mkStats 0 10 0 0 0)
    = (Ok 58, 0, mkStats 0 58 0 0 0) ∧
  readBody Fixtures.oneChunkFile 0 0 (mkStats 0 58 0 0 0)
    = (0, mkStats 0 58 0 0 0) ∧
  openBody Fixtures.plainFormat Fixtures.oneChunkFile 1 0 (mkStats 0 58 0 0 0)
    = (Ok 58, 0, mkStats 0 106 0 0 0) ∧
  ∃ s' : State,
    uploadTempTableFile Fixtures.plainFormat Fixtures.oneChunkFile
      Fixtures.retryState = (None, s') ∧
    pstats (puller s') = mkStats 58 106 0 0 0.
Proof.
  repeat split; try (vm_compute; reflexivity).
  eexists. split; vm_compute; reflexivity.
Qed.

(** ** The completeness check of [getCmp] *)

Section Completeness.

Context (tf : TableFormat).

Lemma getCmpChunk_seen c seen nextLevel s seen1 nextLevel1 s1 :
  getCmpChunk tf c seen nextLevel s = (Ok (seen1, nextLevel1), s1) →
  seen1 = seen + 1.
Proof.
  unfold getCmpChunk. intros Hc.
  repeat match type of Hc with
         | context [match ?x with _ => _ end] => destruct x eqn:?
         end; congruence.
Qed.

Lemma getCmpLoop_seen found : ∀ seen nextLevel s seen1 nextLevel1 s1,
  getCmpLoop tf found seen nextLevel s = (Ok (seen1, nextLevel1), s1) →
  seen1 = seen + Z.of_nat (length found).
Proof.
  induction found as [|c found IH]; cbn [getCmpLoop length]; intros * Hl.
  - inversion Hl. lia.
  - destruct (getCmpChunk tf c seen nextLevel s) as [[[seen2 nl2]|e] s2] eqn:Hc;
      [|congruence].
    apply getCmpChunk_seen in Hc. apply IH in Hl. lia.
Qed.

(** C4. When the source returns no error and every chunk it emitted went
    through decoding, walking and packing without error, the pack stage has
    seen as many chunks as were emitted; [getCmp] fails with "failed to get
    all chunks." when that number differs from the size of the batch, be it
    smaller or larger, and passes when the two are equal. *)
Theorem getCmp_completeness_check
    (batch nextLevel : HashSet) (s : State)
    (found : list CompressedChunk) (seen : Z) (nextLevel1 : HashSet)
    (s1 : State) :
  srcChunkStore (puller s) batch = (found, None) →
  getCmpLoop tf found 0 nextLevel (getCmpStart batch s)
    = (Ok (seen, nextLevel1), s1) →
  seen = Z.of_nat (length found) ∧
  (seen ≠ len_set batch →
   getCmp tf batch nextLevel s = (Err errIncompleteFetch, s1)) ∧
  (seen = len_set batch →
   getCmp tf batch nextLevel s = (Ok nextLevel1, s1)).
Proof.
  intros Hsrc Hloop. split.
  - apply getCmpLoop_seen in Hloop. lia.
  - unfold getCmp. fold (getCmpStart batch s).
    replace (srcChunkStore (puller (getCmpStart batch s)) batch)
      with (found, @None error) by (symmetry; exact Hsrc).
    rewrite Hloop. split; intros Hs.
    + by destruct (Z.eqb_spec seen (len_set batch)).
    + by destruct (Z.eqb_spec seen (len_set batch)).
Qed.

End Completeness.

(** The run of [getCmp] on the one-address batch against the source that
    emits the chunk twice. *)
Lemma twice_emitted :
  ∃ found nextLevel1 s1,
    srcChunkStore (puller Fixtures.twiceState) {[ 1%N ]} = (found, None) ∧
    getCmpLoop Fixtures.plainFormat found 0 ∅
      (getCmpStart {[ 1%N ]} Fixtures.twiceState) = (Ok (2, nextLevel1), s1).
Proof.
  eexists _, _, _. split; [vm_compute; reflexivity | vm_compute; reflexivity].
Qed.

Lemma twice_emitted_fails :
  fst (getCmp Fixtures.plainFormat {[ 1%N ]} ∅ Fixtures.twiceState)
  = Err errIncompleteFetch.
Proof. vm_compute. reflexivity. Qed.

Lemma getCmp_completeness_check_witness :
  ∃ s1 : State,
    getCmp Fixtures.plainFormat {[ 1%N ]} ∅ Fixtures.twiceState
    = (Err errIncompleteFetch, s1).
Proof.
  eexists.
  refine (proj1 (proj2 (getCmp_completeness_check Fixtures.plainFormat
            {[ 1%N ]} ∅ Fixtures.twiceState _ 2 _ _ _ _)) _).
  - vm_compute. reflexivity.
  - vm_compute. reflexivity.
  - vm_compute. discriminate.
Defined.

(** The claim as worded fails where more chunks arrive than were asked for:
    the batch holds one address, the source emits the chunk twice, and
    [getCmp] fails. *)
Lemma fails_only_when_fewer_counterexample :
  ¬ fails_only_when_fewer Fixtures.plainFormat {[ 1%N ]} ∅ Fixtures.twiceState.
Proof.
  intros Hclaim.
  destruct twice_emitted as (found & nextLevel1 & s1 & Hsrc & Hloop).
  destruct (Hclaim found 2 nextLevel1 s1 Hsrc Hloop) as [_ Hpass].
  assert (Hge : ¬ 2 < len_set ({[ 1%N ]} : gset N)) by (vm_compute; discriminate).
  specialize (Hpass Hge).
  pose proof twice_emitted_fails as Hfail.
  rewrite Hpass in Hfail. discriminate.
Qed.

(** ** The manifest commit comes after every upload *)

Section Commit.

Context (tf : TableFormat).

Lemma no_commit_snoc cs c :
  no_commit cs → (∀ m, c ≠ CallAddTableFilesToManifest m) → no_commit (cs ++ [c]).
Proof.
  intros Hcs Hc m Hin. apply elem_of_app in Hin as [Hin|Hin].
  - by apply (Hcs m).
  - apply list_elem_of_singleton in Hin. by apply (Hc m).
Qed.

Lemma uploaded_mono cs cs' w : uploaded tf cs w → uploaded tf (cs ++ cs') w.
Proof. unfold uploaded. intros Hin. apply elem_of_app. by left. Qed.

Lemma accumulate_snoc ws w :
  accumulate tf (ws ++ [w])
  = <[ tableId tf (w_chunks w) := ChunkCount w ]> (accumulate tf ws).
Proof. unfold accumulate. by rewrite fold_left_app. Qed.

(** What one upload does to the part of the state the commit depends on. *)
Lemma uploadTempTableFile_shared t s ret s' :
  uploadTempTableFile tf t s = (ret, s') →
  calls s' = calls s ++ [CallWriteTableFile (id t) (numChunks t) ret] ∧
  completedTables s' = completedTables s ∧
  fileIdToNumChunks s' = fileIdToNumChunks s ∧
  sinkDBCS (puller s') = sinkDBCS (puller s).
Proof.
  unfold uploadTempTableFile.
  destruct (bodyAttempts _ _ _ _ _ _) as [bodyErr st1].
  intros [= <- <-]. cbn. done.
Qed.

Lemma processCompletedTable_done w s s' :
  processCompletedTable tf w s = (None, s') →
  calls s' = calls s
               ++ [CallWriteTableFile (tableId tf (w_chunks w)) (ChunkCount w) None] ∧
  completedTables s' = completedTables s ∧
  fileIdToNumChunks s'
    = <[ tableId tf (w_chunks w) := ChunkCount w ]> (fileIdToNumChunks s) ∧
  sinkDBCS (puller s') = sinkDBCS (puller s).
Proof.
  unfold processCompletedTable, Finish.
  destruct (finishFails tf (w_chunks w)); [discriminate|].
  destruct (uploadTempTableFile _ _ _) as [[e|] s1] eqn:Hup; [discriminate|].
  intros [= <-]. apply uploadTempTableFile_shared in Hup as (Hc & Ht & Hm & Hs).
  cbn in *. rewrite Hc, Ht, Hm, Hs. done.
Qed.

Lemma processCompletedTable_failed w s e s' :
  processCompletedTable tf w s = (Some e, s') →
  no_commit (calls s) → no_commit (calls s').
Proof.
  unfold processCompletedTable, Finish.
  destruct (finishFails tf (w_chunks w)).
  - intros [= _ <-]. done.
  - destruct (uploadTempTableFile _ _ _) as [[e'|] s1] eqn:Hup; [|discriminate].
    intros [= _ <-]. apply uploadTempTableFile_shared in Hup as (Hc & _).
    cbn in Hc. rewrite Hc. intros Hno. by apply no_commit_snoc.
Qed.

Lemma pipe_inv_init p d : pipe_inv tf (pipe0 (initState p d)).
Proof.
  exists []. cbn. repeat split; [constructor|].
  intros m Hin. by apply not_elem_of_nil in Hin.
Qed.

Lemma pipe_inv_step π π' : step tf π π' → pipe_inv tf π → pipe_inv tf π'.
Proof.
  intros Hstep. unfold pipe_inv.
  destruct Hstep as [w π Hcl Hcap | π Hcl | π | c π Hcl Hc | s' π Hcl Hw
                    | w ws π s' Hret Hbuf Hp | w ws π s' e Hret Hbuf Hp
                    | π Hret Hbuf Hcl | π Hret Hcan]; cbn.
  - (* send *)
    destruct (returned π).
    + intros [Hno | (pre & _ & _ & _ & Hclosed & _)]; [by left | congruence].
    + intros (received & Hsent & Hup & Hno & Hmap).
      exists received. rewrite Hsent, <- app_assoc. done.
  - (* close *)
    destruct (returned π); [|done].
    intros [Hno | (pre & ? & ? & ? & ? & ?)]; [by left | right; eauto 10].
  - (* cancel *)
    done.
  - (* a call of the driver *)
    assert (Hnc : ∀ m, c ≠ CallAddTableFilesToManifest m)
      by (intros m ->; discriminate).
    destruct (returned π).
    + intros [Hno | (pre & _ & _ & _ & Hclosed & _)]; [|congruence].
      left. by apply no_commit_snoc.
    + intros (received & Hsent & Hup & Hno & Hmap).
      exists received. repeat split; [done | | by apply no_commit_snoc | done].
      eapply Forall_impl; [exact Hup|]. intros w. apply uploaded_mono.
  - (* work of the driver *)
    destruct Hw as (_ & Ht & Hm & Hc). rewrite Ht, Hm, Hc. done.
  - (* a table file received and uploaded *)
    rewrite Hret, Hbuf.
    intros (received & Hsent & Hup & Hno & Hmap).
    apply processCompletedTable_done in Hp as (Hc & Ht & Hm & _).
    exists (received ++ [w]). rewrite Ht, Hc, Hm, Hsent, Hmap, <- app_assoc.
    repeat split.
    + apply Forall_app. split.
      * eapply Forall_impl; [exact Hup|]. intros w'. apply uploaded_mono.
      * apply Forall_singleton. unfold uploaded. apply elem_of_app. right.
        by apply list_elem_of_singleton.
    + by apply no_commit_snoc.
    + by rewrite accumulate_snoc.
  - (* a table file received, the upload failed *)
    rewrite Hret. intros (received & _ & _ & Hno & _).
    left. by eapply processCompletedTable_failed.
  - (* the channel is closed and drained: commit *)
    rewrite Hret, Hbuf.
    intros (received & Hsent & Hup & Hno & Hmap).
    right. exists (calls (shared π)).
    rewrite app_nil_r in Hsent. rewrite Hmap, Hsent. done.
  - (* the context is done *)
    rewrite Hret. intros (received & _ & _ & Hno & _). by left.
Qed.

Lemma pipe_inv_reachable p d π :
  rtc (step tf) (pipe0 (initState p d)) π → pipe_inv tf π.
Proof.
  revert π. apply (rtc_ind_r (pipe_inv tf)).
  - apply pipe_inv_init.
  - intros π1 π2 _ Hstep IH. by eapply pipe_inv_step.
Qed.

Lemma commit_is_last (pre pre' post : list Call) (m m' : gmap string Z) :
  pre ++ CallAddTableFilesToManifest m :: post
    = pre' ++ [CallAddTableFilesToManifest m'] →
  no_commit pre' →
  post = [] ∧ pre = pre' ∧ m = m'.
Proof.
  intros Heq Hno.
  destruct post as [|c post _] using rev_ind.
  - apply app_inj_tail in Heq as [-> [= ->]]. done.
  - exfalso. rewrite app_comm_cons, app_assoc in Heq.
    apply app_inj_tail in Heq as [<- _].
    apply (Hno m). apply elem_of_app. right. apply list_elem_of_here.
Qed.

(** C1. In every state the driver and [processCompletedTables] can reach,
    by whatever interleaving, a call of [AddTableFilesToManifest] is the
    last call made and the only one of its kind; when it is made the channel
    is closed and empty, every table file that was ever sent on the channel
    has had its [WriteTableFile] return without error before it, and its
    argument is the map from table-file id to chunk count accumulated over
    those files. *)
Theorem manifest_commit_after_all_uploads
    (p : Puller) (d : TempDir) (π : Pipe)
    (pre post : list Call) (m : gmap string Z) :
  rtc (step tf) (pipe0 (initState p d)) π →
  calls (shared π) = pre ++ CallAddTableFilesToManifest m :: post →
  post = [] ∧
  no_commit pre ∧
  closed π = true ∧ buffer π = [] ∧
  Forall (uploaded tf pre) (completedTables (shared π)) ∧
  m = accumulate tf (completedTables (shared π)).
Proof.
  intros Hreach Hcalls. apply pipe_inv_reachable in Hreach.
  unfold pipe_inv in Hreach.
  assert (Hin : CallAddTableFilesToManifest m ∈ calls (shared π)).
  { rewrite Hcalls. apply elem_of_app. right. apply list_elem_of_here. }
  destruct (returned π).
  - destruct Hreach as [Hno | (pre' & Hc & Hno & Hup & Hcl & Hbuf)].
    + by apply Hno in Hin.
    + rewrite Hc in Hcalls. symmetry in Hcalls.
      apply commit_is_last in Hcalls as (-> & -> & ->); done.
  - destruct Hreach as (received & _ & _ & Hno & _). by apply Hno in Hin.
Qed.

End Commit.

(** One table file sent, the channel closed, the file received and uploaded,
    the manifest committed. *)
Lemma one_file_committed :
  ∃ π : Pipe,
    rtc (step Fixtures.plainFormat) (pipe0 Fixtures.idleState) π ∧
    calls (shared π)
    = [CallWriteTableFile "1" 1 None]
        ++ CallAddTableFilesToManifest {[ "1"%string := 1 ]} :: [].
Proof.
  eexists. split.
  - eapply rtc_l.
    { apply (step_send _ (Fixtures.oneChunkWriter false)); [reflexivity|].
      cbn. lia. }
    eapply rtc_l. { apply step_close. reflexivity. }
    eapply rtc_l.
    { eapply step_receive; [reflexivity | reflexivity |].
      vm_compute. reflexivity. }
    eapply rtc_l. { apply step_receive_closed; reflexivity. }
    apply rtc_refl.
  - vm_compute. reflexivity.
Qed.

Lemma manifest_commit_after_all_uploads_witness :
  ∃ π : Pipe,
    rtc (step Fixtures.plainFormat) (pipe0 Fixtures.idleState) π ∧
    closed π = true ∧ buffer π = [] ∧
    Forall (uploaded Fixtures.plainFormat [CallWriteTableFile "1" 1 None])
           (completedTables (shared π)) ∧
    ({[ "1"%string := 1 ]} : gmap string Z)
    = accumulate Fixtures.plainFormat (completedTables (shared π)).
Proof.
  destruct one_file_committed as (π & Hreach & Hcalls).
  exists π. split; [exact Hreach|].
  destruct (manifest_commit_after_all_uploads Fixtures.plainFormat _ _ π
              _ _ _ Hreach Hcalls) as (_ & _ & Hcl & Hbuf & Hup & Hm).
  done.
Defined.

(** ** What every step of a pull keeps

    Two facts about a pull are kept by each of its steps: what is true of
    every call made so far, and what is true of every table file sent so
    far. They are proved once, for any property [okCall] of calls that holds
    of the calls a pull makes, any property [okBatch] of batches that the
    sink's [HasMany] and [limitToNewChunks] keep, and any property [okSent]
    of the writers that have reached [chunksPerTF] chunks. *)

Section Kept.

Context (tf : TableFormat) (range_of : HashSet → list Hash).
Context (c : Z) (sink : ChunkStore).
Context (okCall : Call → Prop) (okBatch : HashSet → Prop)
        (okSent : CmpChunkTableWriter → Prop).

Hypothesis ok_write : ∀ id n r, okCall (CallWriteTableFile id n r).
Hypothesis ok_has : ∀ hs, okCall (CallHasMany hs).
Hypothesis ok_get : ∀ b, okBatch b → okCall (CallGetManyCompressed b).
Hypothesis ok_sink : ∀ b b', okBatch b → HasMany sink b = Ok b' → okBatch b'.
Hypothesis ok_limit :
  ∀ absent dl n batches dl',
    limitToNewChunks range_of absent dl maxBatch = (n, batches, dl') →
    Forall okBatch batches.
Hypothesis ok_full : ∀ w, c ≤ ChunkCount w → okSent w.

Lemma kept_with_stats f s : kept c sink okCall okSent s → kept c sink okCall okSent (set_puller (with_stats f) s).
Proof. by intros (? & ? & ? & ?). Qed.

Lemma kept_with_wr w s : kept c sink okCall okSent s → kept c sink okCall okSent (set_puller (with_wr w) s).
Proof. by intros (? & ? & ? & ?). Qed.

Lemma kept_with_downloaded dl s :
  kept c sink okCall okSent s → kept c sink okCall okSent (set_puller (with_downloaded dl) s).
Proof. by intros (? & ? & ? & ?). Qed.

Lemma kept_set_sema f s : kept c sink okCall okSent s → kept c sink okCall okSent (set_sema f s).
Proof. by intros (? & ? & ? & ?). Qed.

Lemma kept_set_dir f s : kept c sink okCall okSent s → kept c sink okCall okSent (set_dir f s).
Proof. by intros (? & ? & ? & ?). Qed.

Lemma kept_set_fileIdToNumChunks f s :
  kept c sink okCall okSent s → kept c sink okCall okSent (set_fileIdToNumChunks f s).
Proof. by intros (? & ? & ? & ?). Qed.

Lemma kept_log_call call s : kept c sink okCall okSent s → okCall call → kept c sink okCall okSent (log_call call s).
Proof.
  intros (? & ? & Hc & ?) Hok. repeat split; try done.
  cbn. apply Forall_app. split; [done|]. by apply Forall_singleton.
Qed.

Lemma kept_send_completed w s : kept c sink okCall okSent s → okSent w → kept c sink okCall okSent (send_completed w s).
Proof.
  intros (? & ? & ? & Ht) Hok. repeat split; try done.
  cbn. apply Forall_app. split; [done|]. by apply Forall_singleton.
Qed.

Lemma uploadTempTableFile_kept t s r s' :
  uploadTempTableFile tf t s = (r, s') → kept c sink okCall okSent s → kept c sink okCall okSent s'.
Proof.
  unfold uploadTempTableFile.
  destruct (bodyAttempts _ _ _ _ _ _) as [bodyErr st1].
  intros [= _ <-] Hk.
  apply kept_set_dir, kept_log_call; [|apply ok_write].
  by apply kept_with_stats.
Qed.

Lemma processCompletedTable_kept w s r s' :
  processCompletedTable tf w s = (r, s') → kept c sink okCall okSent s → kept c sink okCall okSent s'.
Proof.
  unfold processCompletedTable. intros Hp Hk.
  apply (kept_set_sema (fun n => n - 1)) in Hk.
  destruct (Finish tf w) as [[id w']|e]; [|by inversion Hp; subst].
  destruct (uploadTempTableFile _ _ _) as [[e|] s1] eqn:Hup;
    inversion Hp; subst; clear Hp.
  - by eapply uploadTempTableFile_kept.
  - apply kept_set_fileIdToNumChunks. by eapply uploadTempTableFile_kept.
Qed.

Lemma sendCompleted_kept w s r s' :
  sendCompleted tf w s = (r, s') → kept c sink okCall okSent s → okSent w → kept c sink okCall okSent s'.
Proof.
  unfold sendCompleted. intros Hp Hk Hw.
  eapply processCompletedTable_kept; [exact Hp|]. by apply kept_send_completed.
Qed.

Lemma getCmpChunk_kept ch seen nextLevel s r s' :
  getCmpChunk tf ch seen nextLevel s = (r, s') → kept c sink okCall okSent s → kept c sink okCall okSent s'.
Proof.
  unfold getCmpChunk. intros Hg Hk.
  apply (kept_with_stats (add_fetchedSourceBytes (len_bytes ch))) in Hk.
  apply (kept_with_stats (add_fetchedSourceChunks 1)) in Hk.
  revert Hg Hk. generalize
    (set_puller (with_stats (add_fetchedSourceChunks 1))
       (set_puller (with_stats (add_fetchedSourceBytes (len_bytes ch))) s)).
  clear s. intros s Hg Hk.
  destruct (ToChunk tf ch) as [chnk|e]; [|by inversion Hg; subst].
  destruct (waf (puller s) chnk) as [walked|e]; [|by inversion Hg; subst].
  destruct (wr (puller s)) as [w|]; [|by inversion Hg; subst].
  destruct (AddCmpChunk tf w ch) as [w1|e]; [|by inversion Hg; subst].
  apply (kept_with_wr (Some w1)) in Hk.
  apply (kept_with_stats (add_bufferedSendBytes (len_bytes ch))) in Hk.
  revert Hg Hk. generalize
    (set_puller (with_stats (add_bufferedSendBytes (len_bytes ch)))
       (set_puller (with_wr (Some w1)) s)).
  clear s. intros s Hg Hk.
  destruct (Z.geb_spec (ChunkCount w1) (chunksPerTF (puller s))) as [Hfull|Hnot].
  - destruct (sendCompleted tf w1 s) as [[e|] s1] eqn:Hsend.
    + inversion Hg; subst. eapply sendCompleted_kept; [exact Hsend|done|].
      apply ok_full. destruct Hk as (<- & _). lia.
    + assert (Hk1 : kept c sink okCall okSent s1).
      { eapply sendCompleted_kept; [exact Hsend|done|].
        apply ok_full. destruct Hk as (<- & _). lia. }
      cbn [dir set_sema set_puller] in Hg.
      destruct (NewCmpChunkTableWriter tf (dir s1)) as [[w2|e] d];
        inversion Hg; subst; clear Hg.
      * apply kept_with_wr, kept_set_dir, (kept_set_sema (fun n => n + 1)).
        by apply kept_with_wr.
      * apply kept_set_dir, (kept_set_sema (fun n => n + 1)).
        by apply kept_with_wr.
  - by inversion Hg; subst.
Qed.

Lemma getCmpLoop_kept found : ∀ seen nextLevel s r s',
  getCmpLoop tf found seen nextLevel s = (r, s') → kept c sink okCall okSent s → kept c sink okCall okSent s'.
Proof.
  induction found as [|ch found IH]; cbn [getCmpLoop];
    intros seen nextLevel s r s' Hl Hk.
  - by inversion Hl; subst.
  - destruct (getCmpChunk tf ch seen nextLevel s) as [[[seen1 nl1]|e] s1] eqn:Hc.
    + eapply IH; [exact Hl|]. by eapply getCmpChunk_kept.
    + inversion Hl; subst. by eapply getCmpChunk_kept.
Qed.

Lemma getCmp_kept batch nextLevel s r s' :
  getCmp tf batch nextLevel s = (r, s') → kept c sink okCall okSent s → okBatch batch → kept c sink okCall okSent s'.
Proof.
  unfold getCmp. intros Hg Hk Hb.
  apply (kept_with_stats (add_totalSourceChunks (len_set batch))) in Hk.
  apply (kept_log_call (CallGetManyCompressed batch)) in Hk; [|by apply ok_get].
  revert Hg Hk. generalize
    (log_call (CallGetManyCompressed batch)
       (set_puller (with_stats (add_totalSourceChunks (len_set batch))) s)).
  clear s. intros s Hg Hk.
  destruct (srcChunkStore (puller s) batch) as [found srcErr].
  destruct (getCmpLoop tf found 0 nextLevel s) as [[[seen nl1]|e] s1] eqn:Hl.
  - apply getCmpLoop_kept in Hl; [|done].
    destruct srcErr; [by inversion Hg; subst|].
    destruct (negb _); by inversion Hg; subst.
  - inversion Hg; subst. by eapply getCmpLoop_kept.
Qed.

Lemma batchLoop_kept fuel : ∀ absentBatches i nextAbsent s r s',
  batchLoop tf range_of fuel absentBatches i nextAbsent s = (r, s') →
  kept c sink okCall okSent s → Forall okBatch absentBatches → kept c sink okCall okSent s'.
Proof.
  induction fuel as [|fuel IH]; cbn [batchLoop];
    intros absentBatches i nextAbsent s r s' Hb Hk Hok.
  - by inversion Hb; subst.
  - destruct (absentBatches !! i) as [batch|] eqn:Hi; [|by inversion Hb; subst].
    assert (Hbatch : okBatch batch).
    { eapply Forall_forall; [exact Hok|]. by eapply list_elem_of_lookup_2. }
    apply (kept_log_call (CallHasMany batch)) in Hk; [|apply ok_has].
    cbn [puller log_call] in Hb.
    destruct (HasMany (sinkDBCS (puller s)) batch) as [batch'|e] eqn:Hhas;
      [|by inversion Hb; subst].
    assert (Hbatch' : okBatch batch').
    { destruct Hk as (_ & Hsink & _). cbn in Hsink. rewrite Hsink in Hhas.
      by eapply ok_sink. }
    assert (Hok' : Forall okBatch (<[i:=batch']> absentBatches))
      by (by apply Forall_insert).
    destruct (len_set batch' >? 0).
    + destruct (getCmp _ _ _ _) as [[nextAbsent1|e] s1] eqn:Hg.
      * apply getCmp_kept in Hg; [|done|done].
        destruct (len_set nextAbsent1 >=? maxBatch).
        -- destruct (limitToNewChunks _ _ _ _) as [[n bs] dl].
           eapply IH; [exact Hb| |done]. by apply kept_with_downloaded.
        -- eapply IH; [exact Hb|done|done].
      * inversion Hb; subst. by eapply getCmp_kept.
    + eapply IH; [exact Hb|done|done].
Qed.

Lemma levelLoop_kept fuel : ∀ absent numAbsent s r s',
  levelLoop tf range_of fuel absent numAbsent s = (r, s') →
  kept c sink okCall okSent s → kept c sink okCall okSent s'.
Proof.
  induction fuel as [|fuel IH]; cbn [levelLoop];
    intros absent numAbsent s r s' Hl Hk.
  - by inversion Hl; subst.
  - destruct (numAbsent >? 0); [|by inversion Hl; subst].
    destruct (limitToNewChunks _ _ _ _) as [[n bs] dl] eqn:Hlim.
    apply ok_limit in Hlim.
    apply (kept_with_downloaded dl) in Hk.
    destruct (batchLoop _ _ _ _ _ _ _) as [[[nextAbsent|e]|] s1] eqn:Hb;
      apply batchLoop_kept in Hb; try done.
    + by eapply IH.
    + by inversion Hl; subst.
    + by inversion Hl; subst.
Qed.



End Kept.

(** ** Writer rotation *)

Section Rotation.

Context (tf : TableFormat) (range_of : HashSet → list Hash).

Lemma processCompletedTable_sent w s r s' :
  processCompletedTable tf w s = (r, s') →
  completedTables s' = completedTables s.
Proof.
  unfold processCompletedTable. intros Hp.
  destruct (Finish tf w) as [[id w']|e]; [|by inversion Hp; subst].
  destruct (uploadTempTableFile _ _ _) as [[e|] s1] eqn:Hup;
    apply uploadTempTableFile_shared in Hup as (_ & Ht & _);
    inversion Hp; subst; exact Ht.
Qed.

Lemma sendCompleted_sent w s r s' :
  sendCompleted tf w s = (r, s') →
  completedTables s' = completedTables s ++ [w].
Proof.
  unfold sendCompleted. intros Hp. by apply processCompletedTable_sent in Hp.
Qed.

(** The writers sent while the levels are fetched have all reached the
    threshold. *)
Lemma levelLoop_sent_full fuel absent numAbsent s r s' :
  levelLoop tf range_of fuel absent numAbsent s = (r, s') →
  Forall (fun w => chunksPerTF (puller s) ≤ ChunkCount w) (completedTables s) →
  Forall (fun w => chunksPerTF (puller s) ≤ ChunkCount w) (completedTables s').
Proof.
  intros Hl Hs.
  eapply (levelLoop_kept tf range_of (chunksPerTF (puller s))
            (sinkDBCS (puller s)) (fun _ => True) (fun _ => True)
            (fun w => chunksPerTF (puller s) ≤ ChunkCount w)) in Hl.
  - by destruct Hl as (_ & _ & _ & Hl).
  - done.
  - done.
  - done.
  - done.
  - intros. by apply Forall_true.
  - done.
  - repeat split; [|done]. by apply Forall_true.
Qed.

(** C7. Of the writers a pull has sent on [completedTables], in the order
    they were sent, all have at least [chunksPerTF] chunks at the moment
    they are sent, except possibly the last one: that one is the writer
    left when the loop over the levels has ended without error (the absent
    set has drained), and it is sent only when it holds a chunk. *)
Theorem writer_rotation (fuel : nat) (s : State)
    (o : outcome_of unit) (s' : State) :
  completedTables s = [] →
  Pull tf range_of fuel s = (o, s') →
  ∃ full last : list CmpChunkTableWriter,
    completedTables s' = full ++ last ∧
    Forall (fun w => chunksPerTF (puller s) ≤ ChunkCount w) full ∧
    (last = [] ∨
     ∃ (s1 : State) (w : CmpChunkTableWriter),
       levelLoop tf range_of fuel (hashes (puller s))
         (len_set (hashes (puller s))) (set_sema (fun n => n + 1) s)
       = (Done (Ok tt), s1) ∧
       completedTables s1 = full ∧
       wr (puller s1) = Some w ∧
       0 < ChunkCount w ∧
       last = [w]).
Proof.
  intros Hnone. unfold Pull. cbn [puller set_sema].
  destruct (levelLoop _ _ _ _ _ _) as [[[[]|e]|] s1] eqn:Hl.
  - pose proof Hl as Hfull.
    apply levelLoop_sent_full in Hfull; [|cbn; rewrite Hnone; constructor].
    cbn [puller set_sema] in Hfull.
    unfold flushLast.
    destruct (wr (puller s1)) as [w|] eqn:Hwr.
    + destruct (Z.gtb_spec (ChunkCount w) 0) as [Hpos|Hzero].
      * destruct (sendCompleted tf w s1) as [[e|] s2] eqn:Hsend;
          apply sendCompleted_sent in Hsend.
        -- intros [= <- <-]. exists (completedTables s1), [w].
           repeat split; [done|done|]. right. exists s1, w. done.
        -- unfold commitManifest.
           destruct (AddTableFilesToManifest _ _); intros [= <- <-];
             exists (completedTables s1), [w]; cbn;
             (repeat split; [done|done|]); right; exists s1, w; done.
      * unfold commitManifest.
        destruct (AddTableFilesToManifest _ _); intros [= <- <-];
          exists (completedTables s1), []; cbn; rewrite app_nil_r;
          (repeat split; [done|]); by left.
    + unfold commitManifest.
      destruct (AddTableFilesToManifest _ _); intros [= <- <-];
        exists (completedTables s1), []; cbn; rewrite app_nil_r;
        (repeat split; [done|]); by left.
  - intros [= <- <-]. exists (completedTables s1), []. rewrite app_nil_r.
    apply levelLoop_sent_full in Hl; [|cbn; rewrite Hnone; constructor].
    repeat split; [done|]. by left.
  - intros [= <- <-]. exists (completedTables s1), []. rewrite app_nil_r.
    apply levelLoop_sent_full in Hl; [|cbn; rewrite Hnone; constructor].
    repeat split; [done|]. by left.
Qed.

End Rotation.

(** [pullOf] is the state a pull starts in after [NewPuller]. *)
Lemma pullOf_NewPuller :
  ∀ p d,
    NewPuller Fixtures.quietOS Fixtures.plainFormat "tmp" 2
      (Fixtures.graphStore "v" Fixtures.tree) (Fixtures.graphStore "v" ∅)
      Fixtures.walkBytes [1%N] false Fixtures.emptyDir
    = (Ok p, d) →
    initState p d = Fixtures.pullOf Fixtures.tree 2.
Proof. intros p d Hnew. vm_compute in Hnew. by inversion Hnew. Qed.

Lemma writer_rotation_witness :
  ∃ full last : list CmpChunkTableWriter,
    map ChunkCount full = [2] ∧ map ChunkCount last = [1] ∧
    completedTables
      (snd (Pull Fixtures.plainFormat elements 10 (Fixtures.pullOf Fixtures.tree 2)))
    = full ++ last ∧
    Forall (fun w => 2 ≤ ChunkCount w) full.
Proof.
  destruct (writer_rotation Fixtures.plainFormat elements 10
              (Fixtures.pullOf Fixtures.tree 2) _ _ eq_refl
              (surjective_pairing _))
    as (full & last & Hsent & Hfull & Hlast).
  exists full, last.
  assert (Hrun :
    map ChunkCount (completedTables
      (snd (Pull Fixtures.plainFormat elements 10
              (Fixtures.pullOf Fixtures.tree 2)))) = [2; 1])
    by (vm_compute; reflexivity).
  rewrite Hsent, map_app in Hrun.
  destruct Hlast as [-> | (s1 & w & _ & _ & _ & Hpos & ->)].
  - rewrite app_nil_r in Hrun.
    apply (f_equal (Forall (fun n => 2 ≤ n))) in Hrun.
    assert (Hall : Forall (fun n => 2 ≤ n) (map ChunkCount full))
      by (apply Forall_map; exact Hfull).
    rewrite Hrun in Hall. inversion Hall as [|? ? _ Htl]; subst.
    inversion Htl as [|? ? Hone _]; subst. lia.
  - cbn [map] in Hrun.
    change [2; 1] with ([2] ++ [1]) in Hrun.
    apply app_inj_tail in Hrun as [Hfull2 Hone].
    split; [exact Hfull2|]. split; [cbn [map]; by rewrite Hone|].
    split; [exact Hsent | exact Hfull].
Defined.

(** ** The size of the batches *)

Section BatchBound.

Context (range_of : HashSet → list Hash).








End BatchBound.



(** [limitToNewChunks] on five addresses with batches of at most two: three
    batches, of two, two and one. *)
Example limitToNewChunks_five :
  let '(n, batches, dl) :=
    limitToNewChunks elements (list_to_set [1; 2; 3; 4; 5]%N) ∅ 2 in
  n = 5 ∧ map len_set batches = [2; 2; 1] ∧ len_set dl = 5.
Proof. vm_compute. done. Qed.

(** ** Pulls that end

    The tree [1 → {2, 3}] into an empty sink: three chunks are fetched in two
    levels and go into one table file, which is uploaded, removed from the
    temp directory and committed. The chain of five chunks with
    [chunksPerTF = 2]: three table files of two, two and one chunks, all in
    the one commit. *)

Example pull_small_tree :
  ∃ s' : State,
    Pull Fixtures.plainFormat elements 10 (Fixtures.pullOf Fixtures.tree 10)
    = (Done (Ok tt), s') ∧
    fetchedSourceChunks (pstats (puller s')) = 3 ∧
    map ChunkCount (completedTables s') = [3] ∧
    last (calls s') = Some (CallAddTableFilesToManifest {[ "123"%string := 3 ]}) ∧
    elements (tables (dir s')) = [].
Proof.
  eexists. split; [vm_compute; reflexivity|].
  repeat split; vm_compute; reflexivity.
Qed.

Example pull_rotation :
  ∃ s' : State,
    Pull Fixtures.plainFormat elements 20 (Fixtures.pullOf Fixtures.chain5 2)
    = (Done (Ok tt), s') ∧
    map ChunkCount (completedTables s') = [2; 2; 1] ∧
    last (calls s')
    = Some (CallAddTableFilesToManifest
              {[ "12"%string := 2; "34"%string := 2; "5"%string := 1 ]}).
Proof.
  eexists. split; [vm_compute; reflexivity|].
  split; vm_compute; reflexivity.
Qed.

(** ** Temp files *)

(** The chain [1 → 2 → 3 → 4] with [chunksPerTF = 2]: the first writer takes
    chunks 1 and 2 and is uploaded and removed; the second, made during the
    pull, takes chunk 3; the source has no chunk 4, [getCmp] fails, and the
    pull returns the error with the second writer's file still there. *)
Lemma broken_chain_run :
  ∃ s' : State,
    Pull Fixtures.plainFormat elements 10 (Fixtures.pullOf Fixtures.brokenChain 2)
    = (Done (Err errIncompleteFetch), s') ∧
    elements (tables (dir s')) = [1%nat].
Proof.
  eexists. split; [vm_compute; reflexivity | vm_compute; reflexivity].
Qed.

Lemma temp_dir_clean_after_counterexample :
  ¬ temp_dir_clean_after Fixtures.plainFormat elements 10
      (Fixtures.pullOf Fixtures.brokenChain 2).
Proof.
  intros Hclean. destruct broken_chain_run as (s' & Hrun & Hleft).
  apply Hclean in Hrun.
  assert (Hin : 1%nat ∈ tables (dir s')).
  { apply elem_of_elements. rewrite Hleft. apply list_elem_of_here. }
  apply Hrun in Hin. cbn in Hin.
  apply elem_of_singleton in Hin. discriminate.
Qed.

(** ** A chunk that refers to itself *)

Section Cycle.

Import Fixtures.

Lemma fetchesOf_app h cs cs' :
  fetchesOf h (cs ++ cs') = (fetchesOf h cs + fetchesOf h cs')%nat.
Proof.
  induction cs as [|call cs IH]; [done|].
  destruct call; cbn [app fetchesOf]; try case_decide; lia.
Qed.

Lemma bodyAttempts_plain t reads : ∀ attempt localUploaded st,
  fst (bodyAttempts plainFormat t reads attempt localUploaded st) = None.
Proof.
  induction reads as [|n reads IH]; intros attempt lu st; [done|].
  cbn [bodyAttempts]. unfold openBody. cbn [readerFails plainFormat].
  destruct (lu =? 0); cbn [readBody]; unfold readBody; apply IH.
Qed.

Lemma cycling_processCompletedTable w s :
  cycling s →
  ∃ s', processCompletedTable plainFormat w s = (None, s') ∧
        cycling s' ∧
        fetchesOf 1 (calls s') = fetchesOf 1 (calls s).
Proof.
  intros (Hwaf & Hsrc & Hsink & Hdl & Hwr).
  unfold processCompletedTable, Finish. cbn [finishFails plainFormat].
  unfold uploadTempTableFile.
  cbn [puller set_sema sinkDBCS id numChunks contentHash contentLen read].
  rewrite Hsink.
  cbn [WriteTableFile graphStore store attempts outcome].
  match goal with
  | |- context [bodyAttempts ?tf ?t ?reads ?a ?lu ?st] =>
      pose proof (bodyAttempts_plain t reads a lu st) as Hbody;
      destruct (bodyAttempts tf t reads a lu st) as [bodyErr st1]
  end.
  cbn in Hbody. subst bodyErr.
  eexists. split; [reflexivity|]. split.
  - repeat split; assumption.
  - cbn [calls set_fileIdToNumChunks set_dir log_call set_puller set_sema].
    rewrite fetchesOf_app. cbn. lia.
Qed.

Lemma selfCycle_source :
  sourceOf (graphStore "v" selfCycle) {[ 1%N ]}
  = ([mkCompressedChunk 1 [Byte.x01]], None).
Proof. vm_compute. reflexivity. Qed.

Lemma selfCycle_refs (nextLevel : HashSet) :
  nextLevel ∪ dom (collectRefs [(1%N, false)]) = nextLevel ∪ {[ 1%N ]}.
Proof.
  unfold collectRefs. cbn [fold_left fst snd].
  by rewrite insert_empty, dom_singleton_L.
Qed.

Lemma cycling_getCmp nextLevel s :
  cycling s →
  ∃ s', getCmp plainFormat {[ 1%N ]} nextLevel s = (Ok (nextLevel ∪ {[ 1%N ]}), s') ∧
        cycling s' ∧
        fetchesOf 1 (calls s') = S (fetchesOf 1 (calls s)).
Proof.
  intros (Hwaf & Hsrc & Hsink & Hdl & [w Hwr]).
  unfold getCmp.
  cbn [puller set_puller log_call with_stats srcChunkStore].
  rewrite Hsrc, selfCycle_source.
  cbn [getCmpLoop]. unfold getCmpChunk.
  cbn [puller set_puller log_call with_stats ToChunk plainFormat waf wr].
  rewrite Hwaf, Hwr.
  cbn [decodeId walkBytes FullCompressedChunk map hash_of_byte Byte.to_N].
  unfold AddCmpChunk. cbn [addFails plainFormat].
  cbn [puller set_puller log_call with_stats with_wr chunksPerTF].
  rewrite selfCycle_refs.
  match goal with
  | |- context [sendCompleted plainFormat ?w1 ?s0] =>
      set (s0' := s0); set (w' := w1) in *
  end.
  assert (Hs0 : cycling s0') by (repeat split; try assumption; by eexists).
  assert (Hf0 : fetchesOf 1 (calls s0') = S (fetchesOf 1 (calls s))).
  { subst s0'. cbn [calls set_puller log_call]. rewrite fetchesOf_app.
    cbn [fetchesOf]. rewrite decide_True by (by apply elem_of_singleton).
    lia. }
  assert (Hseen : negb (0 + 1 =? len_set ({[ 1%N ]} : gset N)) = false)
    by (vm_compute; reflexivity).
  clearbody s0'. clear Hwaf Hsrc Hsink Hdl Hwr.
  destruct (ChunkCount w' >=? chunksPerTF (puller s)).
  - unfold sendCompleted.
    destruct (cycling_processCompletedTable w' (send_completed w' s0'))
      as (s1 & -> & Hs1 & Hf1); [exact Hs0|].
    unfold NewCmpChunkTableWriter. cbn [newWriterFails plainFormat].
    rewrite Hseen. eexists. split; [reflexivity|]. split.
    + destruct Hs1 as (? & ? & ? & ? & ?).
      repeat split; try assumption. by eexists.
    + cbn [calls set_puller set_dir set_sema]. rewrite Hf1. exact Hf0.
  - rewrite Hseen. eexists. split; [reflexivity|]. split; assumption.
Qed.

Lemma selfCycle_limit :
  limitToNewChunks elements {[ 1%N ]} ∅ maxBatch = (1, [{[ 1%N ]}], ∅).
Proof. vm_compute. reflexivity. Qed.

Lemma selfCycle_sink :
  HasMany (graphStore "v" ∅) {[ 1%N ]} = Ok {[ 1%N ]}.
Proof. vm_compute. reflexivity. Qed.

Lemma selfCycle_next : (∅ : gset N) ∪ {[ 1%N ]} = {[ 1%N ]}.
Proof. apply (left_id_L ∅ (∪)). Qed.

(** One turn of the loop over the batches of a level: the chunk is fetched
    and its own address is the next level. *)
Lemma cycling_batchLoop fuel s :
  cycling s →
  ∃ s',
    batchLoop plainFormat elements fuel [{[ 1%N ]}] 0 ∅ s
    = (match fuel with
       | S (S _) => Done (Ok {[ 1%N ]})
       | _ => OutOfFuel
       end, s') ∧
    cycling s' ∧
    fetchesOf 1 (calls s') = (fetchesOf 1 (calls s) + Nat.min fuel 1)%nat.
Proof.
  intros Hs. destruct fuel as [|fuel]; cbn [batchLoop].
  - exists s. split; [reflexivity|]. split; [exact Hs|]. cbn. lia.
  - cbn [lookup list_lookup puller log_call].
    destruct Hs as (Hwaf & Hsrc & Hsink & Hdl & Hwr).
    rewrite Hsink, selfCycle_sink.
    replace (len_set ({[ 1%N ]} : gset N) >? 0) with true
      by (vm_compute; reflexivity).
    destruct (cycling_getCmp ∅ (log_call (CallHasMany {[ 1%N ]}) s))
      as (s1 & -> & Hs1 & Hf1); [by repeat split|].
    rewrite selfCycle_next.
    replace (len_set ({[ 1%N ]} : gset N) >=? maxBatch) with false
      by (vm_compute; reflexivity).
    cbn [calls log_call] in Hf1. rewrite fetchesOf_app in Hf1.
    cbn [fetchesOf] in Hf1.
    destruct fuel as [|fuel]; cbn [batchLoop].
    + exists s1. split; [reflexivity|]. split; [exact Hs1|]. cbn. lia.
    + cbn [insert list_insert lookup list_lookup].
      exists s1. split; [reflexivity|]. split; [exact Hs1|]. cbn. lia.
Qed.

Lemma cycling_levelLoop fuel : ∀ s,
  cycling s →
  ∃ s',
    levelLoop plainFormat elements fuel {[ 1%N ]} 1 s = (OutOfFuel, s') ∧
    fetchesOf 1 (calls s') = (fetchesOf 1 (calls s) + (fuel - 1))%nat.
Proof.
  induction fuel as [|fuel IH]; intros s Hs; cbn [levelLoop].
  - exists s. split; [done|]. lia.
  - replace (1 >? 0) with true by reflexivity.
    destruct Hs as (Hwaf & Hsrc & Hsink & Hdl & Hwr).
    rewrite Hdl, selfCycle_limit.
    destruct (cycling_batchLoop fuel (set_puller (with_downloaded ∅) s))
      as (s1 & -> & Hs1 & Hf1); [by repeat split|].
    cbn [calls set_puller] in Hf1.
    destruct fuel as [|[|fuel]].
    + exists s1. split; [done|]. cbn in Hf1. lia.
    + exists s1. split; [done|]. cbn in Hf1. lia.
    + destruct (IH s1 Hs1) as (s2 & -> & Hf2).
      exists s2. split; [done|]. cbn in Hf1. lia.
Qed.

End Cycle.

(** C2. On the source that holds the single chunk 1 whose only outbound
    address is 1, with root 1 and an empty sink: nothing marks chunk 1 as
    downloaded, so every level asks the source for it again and gives it
    back as the next level. Whatever [chunksPerTF] and however many turns
    the loops are given, [Pull] has not returned, and with [fuel] turns the
    source was asked for chunk 1 [fuel - 1] times. *)
Theorem self_cycle_fetched_again (chunksPerTF : Z) (fuel : nat) :
  ∃ s' : State,
    Pull Fixtures.plainFormat elements fuel
      (Fixtures.pullOf Fixtures.selfCycle chunksPerTF) = (OutOfFuel, s') ∧
    fetchesOf 1 (calls s') = (fuel - 1)%nat.
Proof.
  destruct (cycling_levelLoop fuel
              (set_sema (fun n => n + 1)
                 (Fixtures.pullOf Fixtures.selfCycle chunksPerTF)))
    as (s1 & Hl & Hf).
  { repeat split. by eexists. }
  exists s1. split.
  - unfold Pull.
    change (hashes (puller (Fixtures.pullOf Fixtures.selfCycle chunksPerTF)))
      with ({[ 1%N ]} : gset N).
    replace (len_set ({[ 1%N ]} : gset N)) with 1 by (vm_compute; reflexivity).
    by rewrite Hl.
  - by rewrite Hf.
Qed.

(** ** The sampled rates *)

Lemma u64_sub_diag (x : Z) : u64_sub x x = 0.
Proof. unfold u64_sub, u64. by rewrite Z.sub_diag. Qed.

Lemma floor_below_one (x : spec_float) :
  let stored := if SFltb x f64_one then f64_zero else x in
  SFltb stored f64_one = true → stored = f64_zero.
Proof. cbv zeta. by destruct (SFltb x f64_one) eqn:Hlt; [|rewrite Hlt]. Qed.

(** C9. The sampling period is 100 ms, so ten samples make a second and the
    counter delta since the last sample (in [uint64] arithmetic) times ten is
    the sample's rate per second. The weight is the [float64] nearest to
    1/10. The new rate is the sample itself when the stored rate is zero
    (the rate is seeded by the first sample that is not zero: from a zero
    rate a zero delta leaves zero), and [ema + 0.1 * (sample - ema)]
    otherwise; a result below 1 is stored as 0, so a stored rate below 1 is
    0. The same holds of both rates, and the last-seen counters become the
    counters just read. *)
Theorem emitStats_sample (s : stats) (r : sampler) :
  sampleduration = 100 * Millisecond ∧
  Z.quot Second sampleduration = 10 ∧
  samplesinsec = 10 ∧
  weight = SFdiv 53 1024 (float64_of_uint64 1) (float64_of_uint64 10) ∧
  (let rate (new last : Z) (ema : spec_float) : spec_float :=
     let sample := float64_of_uint64 (u64_mul (u64_sub new last) 10) in
     let smoothed :=
       if SFeqb ema f64_zero then sample
       else f64_add ema (f64_mul weight (f64_sub sample ema)) in
     if SFltb smoothed f64_one then f64_zero else smoothed in
   sendBytesPerSec (sampleRates s r)
   = rate (finishedSendBytes s) (lastSendBytes r) (sendBytesPerSec r) ∧
   fetchedSourceBytesPerSec (sampleRates s r)
   = rate (fetchedSourceBytes s) (lastFetchedBytes r)
          (fetchedSourceBytesPerSec r) ∧
   (∀ counter, rate counter counter f64_zero = f64_zero)) ∧
  (SFltb (sendBytesPerSec (sampleRates s r)) f64_one = true →
   sendBytesPerSec (sampleRates s r) = f64_zero) ∧
  (SFltb (fetchedSourceBytesPerSec (sampleRates s r)) f64_one = true →
   fetchedSourceBytesPerSec (sampleRates s r) = f64_zero) ∧
  lastSendBytes (sampleRates s r) = finishedSendBytes s ∧
  lastFetchedBytes (sampleRates s r) = fetchedSourceBytes s.
Proof.
  assert (Hten : samplesinsec = 10) by (vm_compute; reflexivity).
  split; [reflexivity|]. split; [vm_compute; reflexivity|].
  split; [exact Hten|]. split; [vm_compute; reflexivity|].
  unfold sampleRates. rewrite Hten. cbn [sendBytesPerSec fetchedSourceBytesPerSec
    lastSendBytes lastFetchedBytes].
  split; [|split; [|split; [|split]]].
  - cbv zeta. split; [|split].
    + by destruct (SFeqb (sendBytesPerSec r) f64_zero).
    + by destruct (SFeqb (fetchedSourceBytesPerSec r) f64_zero).
    + intros counter. rewrite u64_sub_diag. vm_compute. reflexivity.
  - apply floor_below_one.
  - apply floor_below_one.
  - reflexivity.
  - reflexivity.
Qed.

(** Counters read at five ticks: nothing sent at the first two, 1000 bytes
    by the third, nothing more by the fourth, 2000 more by the fifth. The
    rate stays 0, is seeded with 10000, decays to 9000 and rises to 10100. *)
Example sampleLoop_rates :
  let at_ (sent : Z) := mkStats sent 0 0 0 0 in
  map (fun ticks => sendBytesPerSec (sampleLoop (map at_ ticks) sampler0))
      [[0]; [0; 0]; [0; 0; 1000]; [0; 0; 1000; 1000]; [0; 0; 1000; 1000; 3000]]
  = map float64_of_uint64 [0; 0; 10000; 9000; 10100].
Proof. vm_compute. reflexivity. Qed.

(** * More properties of the package *)

(** [set_solver] clears hypotheses as it goes and warns when one is gone
    already. *)
#[local] Set Warnings "-clear-no-such-hyp".

(** ** The log file and the calls of the sink *)

Lemma Logf_dir p line d :
  tables (Logf p line d) = tables d ∧
  fresh (Logf p line d) = fresh d ∧
  log_grows (pushLogFile d) (pushLogFile (Logf p line d)) ∧
  (pushLog p = None → Logf p line d = d).
Proof.
  unfold Logf. destruct (pushLog p).
  - split; [done|]. split; [done|]. split; [|done]. right. by exists [line].
  - split; [done|]. split; [done|]. split; [by left|done].
Qed.

Lemma Logfs_dir p lines : ∀ d,
  tables (Logfs p lines d) = tables d ∧
  fresh (Logfs p lines d) = fresh d ∧
  log_grows (pushLogFile d) (pushLogFile (Logfs p lines d)) ∧
  (pushLog p = None → Logfs p lines d = d).
Proof.
  unfold Logfs.
  induction lines as [|line lines IH]; intros d; cbn [fold_left].
  - split; [done|]. split; [done|]. split; [by left|done].
  - destruct (Logf_dir p line d) as (Ht & Hf & Hg & Hn).
    destruct (IH (Logf p line d)) as (Ht' & Hf' & Hg' & Hn').
    split; [congruence|]. split; [congruence|]. split.
    + destruct Hg as [Hg|[new1 Hg]], Hg' as [Hg'|[new2 Hg']].
      * left. congruence.
      * right. exists new2. by rewrite Hg', Hg.
      * right. exists new1. by rewrite Hg', Hg.
      * right. exists (new1 ++ new2). rewrite Hg', Hg. cbn.
        by rewrite app_assoc.
    + intros Hnone. by rewrite (Hn' Hnone), (Hn Hnone).
Qed.

Lemma log_call_tables c s : tables (dir (log_call c s)) = tables (dir s).
Proof. apply Logfs_dir. Qed.

Lemma log_call_fresh c s : fresh (dir (log_call c s)) = fresh (dir s).
Proof. apply Logfs_dir. Qed.

(** ** What an upload and a received table file do to the state *)

Lemma bodyAttempts_source_counters tf t reads : ∀ attempt localUploaded st,
  let st' := snd (bodyAttempts tf t reads attempt localUploaded st) in
  totalSourceChunks st' = totalSourceChunks st ∧
  fetchedSourceChunks st' = fetchedSourceChunks st ∧
  fetchedSourceBytes st' = fetchedSourceBytes st.
Proof.
  induction reads as [|n reads IH]; intros attempt lu st; [done|].
  cbn [bodyAttempts]. unfold openBody, readBody.
  destruct (readerFails tf (w_path (read t)) attempt); [done|].
  destruct (lu =? 0);
    match goal with
    | |- context [bodyAttempts tf t reads ?a ?l ?s] =>
        destruct (IH a l s) as (-> & -> & ->)
    end; done.
Qed.

Lemma uploadTempTableFile_shape tf t s :
  ∃ ret st',
    uploadTempTableFile tf t s
    = (ret,
       set_dir (remove_table (w_path (read t)))
         (log_call (CallWriteTableFile (id t) (numChunks t) ret)
            (set_puller (with_stats (fun _ => st')) s))) ∧
    totalSourceChunks st' = totalSourceChunks (pstats (puller s)) ∧
    fetchedSourceChunks st' = fetchedSourceChunks (pstats (puller s)) ∧
    fetchedSourceBytes st' = fetchedSourceBytes (pstats (puller s)).
Proof.
  unfold uploadTempTableFile.
  match goal with
  | |- context [bodyAttempts tf t ?reads ?a ?l ?st] =>
      pose proof (bodyAttempts_source_counters tf t reads a l st) as Hc;
      destruct (bodyAttempts tf t reads a l st) as [bodyErr st1]
  end.
  cbn in Hc. eexists _, st1. split; [reflexivity|exact Hc].
Qed.

(** A received table file whose [Finish] fails only gives its permit back;
    otherwise it is uploaded and removed, and recorded in the map when the
    upload returned no error. *)
Lemma processCompletedTable_shape tf w s r s' :
  processCompletedTable tf w s = (r, s') →
  (∃ e, finishFails tf (w_chunks w) = Some e ∧ r = Some e ∧
        s' = set_sema (fun n => n - 1) s) ∨
  (∃ st',
     finishFails tf (w_chunks w) = None ∧
     totalSourceChunks st' = totalSourceChunks (pstats (puller s)) ∧
     fetchedSourceChunks st' = fetchedSourceChunks (pstats (puller s)) ∧
     fetchedSourceBytes st' = fetchedSourceBytes (pstats (puller s)) ∧
     s' = (match r with
           | None => set_fileIdToNumChunks
                       (insert (tableId tf (w_chunks w)) (ChunkCount w))
           | Some _ => fun s => s
           end)
            (set_dir (remove_table (w_path w))
               (log_call (CallWriteTableFile (tableId tf (w_chunks w))
                            (ChunkCount w) r)
                  (set_puller (with_stats (fun _ => st'))
                     (set_sema (fun n => n - 1) s))))).
Proof.
  unfold processCompletedTable, Finish.
  destruct (finishFails tf (w_chunks w)) as [e|] eqn:Hfin.
  - intros [= <- <-]. left. by exists e.
  - match goal with
    | |- context [uploadTempTableFile tf ?t ?s0] =>
        destruct (uploadTempTableFile_shape tf t s0)
          as (ret & st' & Hup & Ht & Hf & Hb)
    end.
    rewrite Hup. cbn in Ht, Hf, Hb.
    destruct ret as [e|]; intros [= <- <-]; right; exists st'; done.
Qed.

(** ** One chunk through [getCmp], case by case *)

Lemma getCmpChunk_shape tf c seen nextLevel s r s' :
  getCmpChunk tf c seen nextLevel s = (r, s') →
  let s0 :=
    set_puller (with_stats (add_fetchedSourceChunks 1))
      (set_puller (with_stats (add_fetchedSourceBytes (len_bytes c))) s) in
  ((∃ e, r = Err e) ∧ s' = s0) ∨
  ∃ w chnk walked,
    wr (puller s) = Some w ∧
    ToChunk tf c = Ok chnk ∧
    waf (puller s) chnk = Ok walked ∧
    addFails tf (w_chunks w) c = None ∧
    let w1 := mkWriter (w_path w) (w_chunks w ++ [c]) (w_finished w) in
    let s1 :=
      set_puller (with_stats (add_bufferedSendBytes (len_bytes c)))
        (set_puller (with_wr (Some w1)) s0) in
    let next := (seen + 1, nextLevel ∪ dom (collectRefs walked)) in
    (ChunkCount w1 < chunksPerTF (puller s) ∧ r = Ok next ∧ s' = s1) ∨
    (chunksPerTF (puller s) ≤ ChunkCount w1 ∧
     ∃ ro s2,
       sendCompleted tf w1 s1 = (ro, s2) ∧
       match ro with
       | Some e => r = Err e ∧ s' = s2
       | None =>
           let s3 := set_sema (fun n => n + 1) (set_puller (with_wr None) s2) in
           match newWriterFails tf (fresh (dir s2)) with
           | Some e => r = Err e ∧ s' = set_dir (fun _ => dir s2) s3
           | None =>
               r = Ok next ∧
               s' = set_puller
                      (with_wr (Some (mkWriter (fresh (dir s2)) [] false)))
                      (set_dir
                         (fun _ =>
                            mkTempDir ({[ fresh (dir s2) ]} ∪ tables (dir s2))
                              (S (fresh (dir s2))) (pushLogFile (dir s2)))
                         s3)
           end
       end).
Proof.
  unfold getCmpChunk. intros Hg. cbv zeta.
  cbn [puller set_puller with_stats waf wr chunksPerTF] in Hg.
  destruct (ToChunk tf c) as [chnk|e] eqn:Hdec;
    [|inversion Hg; subst; left; eauto].
  destruct (waf (puller s) chnk) as [walked|e] eqn:Hwalk;
    [|inversion Hg; subst; left; eauto].
  destruct (wr (puller s)) as [w|] eqn:Hwr;
    [|inversion Hg; subst; left; eauto].
  unfold AddCmpChunk in Hg.
  destruct (addFails tf (w_chunks w) c) as [e|] eqn:Hadd;
    [inversion Hg; subst; left; eauto|].
  right. exists w, chnk, walked. repeat (split; [done|]).
  cbn [puller set_puller with_stats with_wr chunksPerTF] in Hg.
  destruct (Z.geb_spec (ChunkCount (mkWriter (w_path w) (w_chunks w ++ [c])
                                      (w_finished w)))
              (chunksPerTF (puller s))) as [Hfull|Hnot].
  - right. split; [lia|].
    destruct (sendCompleted tf _ _) as [[e|] s2] eqn:Hsend.
    + inversion Hg; subst. eexists _, _. split; [reflexivity|]. done.
    + eexists _, _. split; [reflexivity|].
      unfold NewCmpChunkTableWriter in Hg. cbn [dir set_sema set_puller] in Hg.
      destruct (newWriterFails tf (fresh (dir s2))) as [e|];
        inversion Hg; subst; done.
  - left. inversion Hg; subst. done.
Qed.

(** ** Carrying a property through the loops of a pull *)

Section PullInduction.

Context (tf : TableFormat) (range_of : HashSet → list Hash).
Context (P Pfail : State → Prop).

Lemma getCmpLoop_holds :
  (∀ c seen nl s r s',
     P s → getCmpChunk tf c seen nl s = (r, s') → holds_after P Pfail r s') →
  ∀ found seen nl s r s',
    P s → getCmpLoop tf found seen nl s = (r, s') → holds_after P Pfail r s'.
Proof.
  intros Hchunk found.
  induction found as [|c found IH]; cbn [getCmpLoop];
    intros seen nl s r s' HP Hl.
  - by inversion Hl; subst.
  - destruct (getCmpChunk tf c seen nl s) as [[[seen1 nl1]|e] s1] eqn:Hc;
      apply Hchunk in Hc; try done.
    + by eapply IH.
    + by inversion Hl; subst.
Qed.

Hypothesis step_getCmp :
  ∀ batch batch' nl s r s',
    P s →
    HasMany (sinkDBCS (puller s)) batch = Ok batch' →
    0 < len_set batch' →
    getCmp tf batch' nl (log_call (CallHasMany batch) s) = (r, s') →
    holds_after P Pfail r s'.
Hypothesis step_has_err :
  ∀ batch e s,
    P s → HasMany (sinkDBCS (puller s)) batch = Err e →
    Pfail (log_call (CallHasMany batch) s).
Hypothesis step_has_none :
  ∀ batch batch' s,
    P s → HasMany (sinkDBCS (puller s)) batch = Ok batch' →
    len_set batch' ≤ 0 →
    P (log_call (CallHasMany batch) s).
Hypothesis step_limit :
  ∀ absent s n bs dl,
    P s →
    limitToNewChunks range_of absent (downloaded (puller s)) maxBatch
      = (n, bs, dl) →
    P (set_puller (with_downloaded dl) s).

Lemma batchLoop_holds fuel : ∀ absentBatches i nextAbsent s o s',
  P s →
  batchLoop tf range_of fuel absentBatches i nextAbsent s = (o, s') →
  holds_at P Pfail o s'.
Proof.
  induction fuel as [|fuel IH]; cbn [batchLoop];
    intros absentBatches i nextAbsent s o s' HP Hb.
  - by inversion Hb; subst.
  - destruct (absentBatches !! i) as [batch|]; [|by inversion Hb; subst].
    cbn [puller log_call] in Hb.
    destruct (HasMany (sinkDBCS (puller s)) batch) as [batch'|e] eqn:Hhas.
    + destruct (Z.gtb_spec (len_set batch') 0) as [Hpos|Hzero].
      * destruct (getCmp _ _ _ _) as [[nextAbsent1|e] s1] eqn:Hg;
          eapply step_getCmp in Hg; try done; try lia.
        -- destruct (len_set nextAbsent1 >=? maxBatch).
           ++ destruct (limitToNewChunks _ _ _ _) as [[n bs] dl] eqn:Hlim.
              eapply IH; [|exact Hb]. by eapply step_limit.
           ++ by eapply IH.
        -- by inversion Hb; subst.
      * eapply IH; [|exact Hb]. by eapply step_has_none.
    + inversion Hb; subst. by eapply step_has_err.
Qed.

Lemma levelLoop_holds fuel : ∀ absent numAbsent s o s',
  P s →
  levelLoop tf range_of fuel absent numAbsent s = (o, s') →
  holds_at P Pfail o s'.
Proof.
  induction fuel as [|fuel IH]; cbn [levelLoop];
    intros absent numAbsent s o s' HP Hl.
  - by inversion Hl; subst.
  - destruct (numAbsent >? 0); [|by inversion Hl; subst].
    destruct (limitToNewChunks _ _ _ _) as [[n bs] dl] eqn:Hlim.
    eapply step_limit in Hlim; [|exact HP].
    destruct (batchLoop _ _ _ _ _ _ _) as [[[nextAbsent|e]|] s1] eqn:Hb;
      eapply batchLoop_holds in Hb; try done.
    + by eapply IH.
    + by inversion Hl; subst.
    + by inversion Hl; subst.
Qed.

Hypothesis step_sema : ∀ s, P s → P (set_sema (fun n => n + 1) s).
Hypothesis step_send :
  ∀ w s r s',
    P s → wr (puller s) = Some w → 0 < ChunkCount w →
    sendCompleted tf w s = (r, s') → holds_after_opt P Pfail r s'.
Hypothesis step_commit :
  ∀ s r s', P s → commitManifest s = (r, s') → holds_after_opt P Pfail r s'.

Lemma Pull_holds fuel s o s' :
  P s → Pull tf range_of fuel s = (o, s') → holds_at P Pfail o s'.
Proof.
  intros HP. unfold Pull.
  destruct (levelLoop _ _ _ _ _ _) as [[[[]|e]|] s1] eqn:Hl;
    eapply levelLoop_holds in Hl; try (by apply step_sema).
  - unfold flushLast.
    assert (Hflush : ∀ r2 s2,
      match wr (puller s1) with
      | Some w =>
          if ChunkCount w >? 0 then sendCompleted tf w s1 else (None, s1)
      | None => (None, s1)
      end = (r2, s2) → holds_after_opt P Pfail r2 s2).
    { intros r2 s2 Hf. destruct (wr (puller s1)) as [w|] eqn:Hwr.
      - destruct (Z.gtb_spec (ChunkCount w) 0).
        + by eapply step_send.
        + by inversion Hf; subst.
      - by inversion Hf; subst. }
    destruct (match wr (puller s1) with Some _ => _ | None => _ end)
      as [[e|] s2]; specialize (Hflush _ _ eq_refl).
    + by intros [= <- <-].
    + destruct (commitManifest s2) as [r3 s3] eqn:Hc.
      eapply step_commit in Hc; [|exact Hflush].
      destruct r3; by intros [= <- <-].
  - by intros [= <- <-].
  - by intros [= <- <-].
Qed.

End PullInduction.

(** ** What [NewPuller] returns *)

Section NewPullerResult.

Context (os : OS) (tf : TableFormat) (dirName : string) (perFile : Z)
        (srcCS sinkCS : ChunkStore)
        (walkAddrs : WalkAddrs) (roots : list Hash) (withStats : bool)
        (d : TempDir).

Local Abbreviation new :=
  (NewPuller os tf dirName perFile srcCS sinkCS walkAddrs roots withStats d).

(** X1. A puller is returned only when the four checks have passed and the
    writer could be made. It starts with the roots as [hashes], nothing
    downloaded, all counters at zero and an empty writer over a new file,
    the only table file added to the temp directory. *)
Theorem NewPuller_returns_puller (p : Puller) (d' : TempDir) :
  new = (Ok p, d') →
  HasMany srcCS (list_to_set roots) = Ok ∅ ∧
  (∃ sinkMissing : HashSet,
     HasMany sinkCS (list_to_set roots) = Ok sinkMissing ∧ sinkMissing ≠ ∅) ∧
  Version srcCS = Version sinkCS ∧
  GetManyCompressed srcCS = Some (srcChunkStore p) ∧
  newWriterFails tf (fresh d) = None ∧
  waf p = walkAddrs ∧ sinkDBCS p = sinkCS ∧
  hashes p = list_to_set roots ∧ downloaded p = ∅ ∧
  wr p = Some (mkWriter (fresh d) [] false) ∧
  tempDir p = dirName ∧ chunksPerTF p = perFile ∧ statsCh p = withStats ∧
  pstats p = stats0 ∧
  tables d' = {[ fresh d ]} ∪ tables d ∧ fresh d' = S (fresh d).
Proof.
  unfold NewPuller, NewPuller_traced, NewCmpChunkTableWriter, OpenPushLog.
  destruct (HasMany srcCS _) as [srcMissing|e]; [|done].
  destruct (len_set srcMissing =? 0) eqn:Hsrc; [|done].
  apply len_set_zero in Hsrc as ->. cbn [negb].
  destruct (HasMany sinkCS _) as [sinkMissing|e]; [|done].
  destruct (len_set sinkMissing =? 0) eqn:Hsink; [done|].
  apply len_set_nonzero in Hsink.
  destruct (String.eqb_spec (Version srcCS) (Version sinkCS)) as [Hv|Hv];
    [|done].
  cbn [negb].
  destruct (GetManyCompressed srcCS) as [getMany|]; [|done].
  destruct (newWriterFails tf (fresh d)); [done|].
  destruct (LookupEnv os "PUSH_LOG") as [dbg|].
  - destruct (String.eqb (ToLower dbg) "true").
    + destruct (openFileFails os _); intros [= <- <-]; cbn; eauto 20.
    + intros [= <- <-]; cbn; eauto 20.
  - intros [= <- <-]; cbn; eauto 20.
Qed.

(** X2. An error of [NewPuller] leaves the temp directory as it was: no
    table file and no log file has been made. An error of the source's
    [HasMany] is returned as it is, and so is one of the sink's when the
    source holds all the roots. *)
Theorem NewPuller_error_leaves_temp_dir (e : error) (d' : TempDir) :
  new = (Err e, d') →
  d' = d ∧
  (∀ e1, HasMany srcCS (list_to_set roots) = Err e1 → e = e1) ∧
  (∀ e2, HasMany srcCS (list_to_set roots) = Ok ∅ →
         HasMany sinkCS (list_to_set roots) = Err e2 → e = e2).
Proof.
  unfold NewPuller, NewPuller_traced, NewCmpChunkTableWriter, OpenPushLog.
  destruct (HasMany srcCS _) as [srcMissing|e1].
  - destruct (len_set srcMissing =? 0) eqn:Hsrc; cbn [negb].
    + destruct (HasMany sinkCS _) as [sinkMissing|e2].
      * destruct (len_set sinkMissing =? 0);
          [intros [= <- <-]; by repeat split|].
        destruct (negb _); [intros [= <- <-]; by repeat split|].
        destruct (GetManyCompressed srcCS);
          [|intros [= <- <-]; by repeat split].
        destruct (newWriterFails tf (fresh d));
          [intros [= <- <-]; by repeat split|].
        destruct (LookupEnv os "PUSH_LOG") as [dbg|]; [|done].
        destruct (String.eqb (ToLower dbg) "true"); [|done].
        by destruct (openFileFails os _).
      * intros [= <- <-]. repeat split; [done|].
        by intros ? _ [= <-].
    + intros [= <- <-]. repeat split; [done|].
      intros e2 [= ->]. done.
  - intros [= <- <-]. repeat split; [|done]. by intros ? [= <-].
Qed.

(** X3. The puller has a logger exactly when [PUSH_LOG] is a spelling of
    "true" and [<tempDir>/push.log] could be opened; the file is then empty,
    whatever it held before. Otherwise the log file is as it was. *)
Theorem NewPuller_logger (p : Puller) (d' : TempDir) :
  new = (Ok p, d') →
  let path := filepath_Join dirName "push.log" in
  let wanted :=
    ∃ dbg, LookupEnv os "PUSH_LOG" = Some dbg ∧
           ToLower dbg = "true"%string ∧ openFileFails os path = None in
  (wanted → pushLog p = Some path ∧ pushLogFile d' = Some []) ∧
  (¬ wanted → pushLog p = None ∧ pushLogFile d' = pushLogFile d).
Proof.
  unfold NewPuller, NewPuller_traced, NewCmpChunkTableWriter, OpenPushLog.
  destruct (HasMany srcCS _) as [srcMissing|e]; [|done].
  destruct (negb _); [done|].
  destruct (HasMany sinkCS _) as [sinkMissing|e]; [|done].
  destruct (len_set sinkMissing =? 0); [done|].
  destruct (negb _); [done|].
  destruct (GetManyCompressed srcCS) as [getMany|]; [|done].
  destruct (newWriterFails tf (fresh d)); [done|].
  destruct (LookupEnv os "PUSH_LOG") as [dbg|].
  - destruct (String.eqb_spec (ToLower dbg) "true") as [Htrue|Hother].
    + destruct (openFileFails os _) as [e|] eqn:Hopen;
        intros [= <- <-]; cbn; split.
      * intros (? & [= <-] & _ & ?). congruence.
      * done.
      * done.
      * intros Hnot. destruct Hnot. eauto.
    + intros [= <- <-]; cbn; split.
      * intros (? & [= <-] & ? & _). done.
      * done.
  - intros [= <- <-]; cbn; split.
    + intros (? & ? & _). done.
    + done.
Qed.

End NewPullerResult.

Lemma NewPuller_of_tree :
  ∃ p d',
    NewPuller Fixtures.quietOS Fixtures.plainFormat "tmp" 2
      (Fixtures.graphStore "v" Fixtures.tree) (Fixtures.graphStore "v" ∅)
      Fixtures.walkBytes [1%N] false Fixtures.emptyDir
    = (Ok p, d').
Proof. eexists _, _. vm_compute. reflexivity. Qed.

Lemma NewPuller_returns_puller_witness :
  ∃ p d',
    NewPuller Fixtures.quietOS Fixtures.plainFormat "tmp" 2
      (Fixtures.graphStore "v" Fixtures.tree) (Fixtures.graphStore "v" ∅)
      Fixtures.walkBytes [1%N] false Fixtures.emptyDir
    = (Ok p, d') ∧
    downloaded p = ∅ ∧ wr p = Some (mkWriter 0 [] false) ∧
    pstats p = stats0 ∧ fresh d' = 1%nat.
Proof.
  destruct NewPuller_of_tree as (p & d' & Hnew). exists p, d'.
  split; [exact Hnew|].
  destruct (NewPuller_returns_puller _ _ _ _ _ _ _ _ _ _ p d' Hnew)
    as (_ & _ & _ & _ & _ & _ & _ & _ & Hdl & Hwr & _ & _ & _ & Hst & _
        & Hfresh).
  repeat split; assumption.
Defined.

Lemma NewPuller_version_mismatch :
  NewPuller Fixtures.quietOS Fixtures.plainFormat "tmp" 2
    (Fixtures.graphStore "v1" Fixtures.tree) (Fixtures.graphStore "v2" ∅)
    Fixtures.walkBytes [1%N] false Fixtures.emptyDir
  = (Err (ErrVersions "v1" "v2"), Fixtures.emptyDir).
Proof. vm_compute. reflexivity. Qed.

Lemma NewPuller_error_leaves_temp_dir_witness :
  snd (NewPuller Fixtures.quietOS Fixtures.plainFormat "tmp" 2
         (Fixtures.graphStore "v1" Fixtures.tree) (Fixtures.graphStore "v2" ∅)
         Fixtures.walkBytes [1%N] false Fixtures.emptyDir)
  = Fixtures.emptyDir.
Proof.
  rewrite NewPuller_version_mismatch.
  exact (proj1 (NewPuller_error_leaves_temp_dir _ _ _ _ _ _ _ _ _ _ _ _
                  NewPuller_version_mismatch)).
Defined.

Lemma NewPuller_with_log :
  ∃ p,
    NewPuller (mkOS (fun _ => Some "TRUE"%string) (fun _ => None))
      Fixtures.plainFormat "tmp" 2
      (Fixtures.graphStore "v" Fixtures.tree) (Fixtures.graphStore "v" ∅)
      Fixtures.walkBytes [1%N] false (mkTempDir ∅ 0 (Some ["old"%string]))
    = (Ok p, mkTempDir {[ 0%nat ]} 1 (Some [])).
Proof. eexists. vm_compute. reflexivity. Qed.

Lemma NewPuller_logger_witness :
  ∃ p,
    NewPuller (mkOS (fun _ => Some "TRUE"%string) (fun _ => None))
      Fixtures.plainFormat "tmp" 2
      (Fixtures.graphStore "v" Fixtures.tree) (Fixtures.graphStore "v" ∅)
      Fixtures.walkBytes [1%N] false (mkTempDir ∅ 0 (Some ["old"%string]))
    = (Ok p, mkTempDir {[ 0%nat ]} 1 (Some [])) ∧
    pushLog p = Some "tmp/push.log"%string.
Proof.
  destruct NewPuller_with_log as (p & Hnew). exists p.
  split; [exact Hnew|].
  destruct (NewPuller_logger _ _ _ _ _ _ _ _ _ _ _ _ Hnew) as [Hyes _].
  apply Hyes. exists "TRUE"%string. repeat split.
Defined.

(** ** What [limitToNewChunks] returns *)

Section LimitExact.

Context (range_of : HashSet → list Hash).
Hypothesis range_of_keys : visits_keys range_of.

Lemma range_of_set (hs : HashSet) : list_to_set (range_of hs) = hs.
Proof.
  apply set_eq. intros k. rewrite elem_of_list_to_set. apply range_of_keys.
Qed.

Lemma removeSeen_absent smaller downloaded : ∀ absent : HashSet,
  removeSeen smaller true downloaded absent = absent ∖ list_to_set smaller.
Proof.
  unfold removeSeen.
  induction smaller as [|k smaller IH]; intros absent; cbn [fold_left].
  - set_solver.
  - rewrite IH. case_decide; set_solver.
Qed.

Lemma removeSeen_downloaded smaller (downloaded : HashSet) :
  ∀ absent : HashSet,
    removeSeen smaller false downloaded absent
    = absent ∖ (list_to_set smaller ∩ downloaded).
Proof.
  unfold removeSeen.
  induction smaller as [|k smaller IH]; intros absent; cbn [fold_left].
  - set_solver.
  - rewrite IH. case_decide; set_solver.
Qed.

Lemma total_len_app (a b : list HashSet) :
  total_len (a ++ b) = total_len a + total_len b.
Proof.
  induction a as [|x a IH]; [done|].
  change (len_set x + total_len (a ++ b)
          = len_set x + total_len a + total_len b).
  lia.
Qed.

Lemma len_set_empty : len_set ∅ = 0.
Proof. unfold len_set. by rewrite size_empty. Qed.

Lemma len_set_insert_new (k : Hash) (hs : HashSet) :
  k ∉ hs → len_set ({[ k ]} ∪ hs) = len_set hs + 1.
Proof.
  intros Hk. unfold len_set.
  rewrite size_union by set_solver. rewrite size_singleton. lia.
Qed.

(** The loop of the second branch: what it has when it ends. *)
Lemma fillBatches_exact (batchSize : Z) (keys : list Hash) :
  ∀ (downloaded : HashSet) done (cur : HashSet) total n batches dl',
    ⋃ done ∪ cur ⊆ downloaded →
    fillBatches keys batchSize downloaded done cur total = (n, batches, dl') →
    dl' = downloaded ∪ list_to_set keys ∧
    ⋃ batches = ⋃ done ∪ cur ∪ (list_to_set keys ∖ downloaded) ∧
    n = total + len_set (list_to_set keys ∖ downloaded) ∧
    total_len batches = total_len done + len_set cur + (n - total).
Proof.
  induction keys as [|k keys IH]; cbn [fillBatches];
    intros downloaded done cur total n batches dl' Hsub Hfill.
  - injection Hfill as <- <- <-. rewrite union_list_app_L, total_len_app.
    cbn. repeat split.
    + set_solver.
    + set_solver.
    + replace (∅ ∖ downloaded) with (∅ : gset N) by set_solver.
      rewrite len_set_empty. lia.
    + lia.
  - case_decide as Hin.
    + apply IH in Hfill as (-> & -> & -> & ->); [|exact Hsub]. clear IH.
      replace (list_to_set (k :: keys) ∖ downloaded)
        with (list_to_set keys ∖ downloaded : gset N) by set_solver.
      split; [set_solver|]. split; [set_solver|]. split; reflexivity.
    + assert (Hcut :
        (list_to_set (k :: keys) ∖ downloaded : gset N)
        = {[ k ]} ∪ (list_to_set keys ∖ ({[ k ]} ∪ downloaded))).
      { clear -Hin. apply set_eq. intros x.
        destruct (decide (x = k)) as [->|Hne].
        - set_solver.
        - set_solver. }
      assert (Hcount :
        len_set (list_to_set (k :: keys) ∖ downloaded)
        = len_set (list_to_set keys ∖ ({[ k ]} ∪ downloaded)) + 1).
      { rewrite Hcut. apply len_set_insert_new. clear. set_solver. }
      assert (Hcur : len_set ({[ k ]} ∪ cur) = len_set cur + 1)
        by (apply len_set_insert_new; clear IH Hfill; set_solver).
      destruct (Z.rem (total + 1) batchSize =? 0).
      * apply IH in Hfill as (-> & -> & -> & ->); clear IH.
        -- rewrite union_list_app_L, total_len_app, Hcount, Hcut.
           split; [set_solver|]. split; [set_solver|]. split; [lia|].
           change (total_len [{[ k ]} ∪ cur])
             with (len_set ({[ k ]} ∪ cur) + 0).
           rewrite len_set_empty. lia.
        -- rewrite union_list_app_L. set_solver.
      * apply IH in Hfill as (-> & -> & -> & ->); clear IH.
        -- rewrite Hcount, Hcut.
           split; [set_solver|]. split; [set_solver|]. split; lia.
        -- set_solver.
Qed.

(** X4. The batches hold the addresses of [absent] that are not in
    [downloaded], each of them in one batch: their union is that set, and
    the count returned is both its size and the sum of the sizes of the
    batches. *)
Theorem limitToNewChunks_partitions (absent downloaded : HashSet)
    (maxBatchSize : Z) (n : Z) (batches : list HashSet) (dl' : HashSet) :
  0 < maxBatchSize →
  limitToNewChunks range_of absent downloaded maxBatchSize = (n, batches, dl') →
  ⋃ batches = absent ∖ downloaded ∧
  n = len_set (absent ∖ downloaded) ∧
  total_len batches = n.
Proof.
  intros _. unfold limitToNewChunks.
  destruct (len_set absent <? maxBatchSize).
  - assert (Hnew :
      (if len_set absent >? len_set downloaded
       then removeSeen (range_of downloaded) true downloaded absent
       else removeSeen (range_of absent) false downloaded absent)
      = absent ∖ downloaded).
    { destruct (len_set absent >? len_set downloaded).
      - by rewrite removeSeen_absent, range_of_set.
      - rewrite removeSeen_downloaded, range_of_set. set_solver. }
    rewrite Hnew. intros [= <- <- <-]. cbn.
    repeat split; [set_solver|lia].
  - intros Hfill. apply fillBatches_exact in Hfill; [|set_solver].
    destruct Hfill as (_ & Hunion & Hn & Hsum).
    rewrite range_of_set in Hunion, Hn. cbn in Hunion.
    change (total_len []) with 0 in Hsum. rewrite len_set_empty in Hsum.
    split; [set_solver|]. split; lia.
Qed.

(** X5. Below [maxBatchSize] addresses, [downloaded] is left as it was: the
    addresses returned are not marked. From [maxBatchSize] on, every address
    of [absent] is in [downloaded] afterwards. *)
Theorem limitToNewChunks_marks (absent downloaded : HashSet)
    (maxBatchSize : Z) (n : Z) (batches : list HashSet) (dl' : HashSet) :
  0 < maxBatchSize →
  limitToNewChunks range_of absent downloaded maxBatchSize = (n, batches, dl') →
  (len_set absent < maxBatchSize → dl' = downloaded) ∧
  (maxBatchSize ≤ len_set absent → dl' = downloaded ∪ absent).
Proof.
  intros _. unfold limitToNewChunks.
  destruct (Z.ltb_spec (len_set absent) maxBatchSize) as [Hsmall|Hlarge].
  - intros [= _ _ <-]. split; [done|lia].
  - intros Hfill. apply fillBatches_exact in Hfill; [|set_solver].
    destruct Hfill as (-> & _). rewrite range_of_set. split; [lia|done].
Qed.

End LimitExact.

Lemma elements_visits_keys : visits_keys elements.
Proof. intros hs k. apply elem_of_elements. Qed.

Lemma triple_eta {A B C : Type} (x : A * B * C) : x = (x.1.1, x.1.2, x.2).
Proof. by destruct x as [[? ?] ?]. Qed.

Lemma limitToNewChunks_partitions_witness :
  let r := limitToNewChunks elements (list_to_set [1; 2; 3; 4; 5]%N)
             {[ 2%N ]} 2 in
  ⋃ r.1.2 = list_to_set [1; 2; 3; 4; 5]%N ∖ {[ 2%N ]} ∧
  r.1.1 = len_set (list_to_set [1; 2; 3; 4; 5]%N ∖ {[ 2%N ]}) ∧
  total_len r.1.2 = r.1.1.
Proof.
  apply (limitToNewChunks_partitions elements elements_visits_keys
           (list_to_set [1; 2; 3; 4; 5]%N) {[ 2%N ]} 2 _ _
           (limitToNewChunks elements (list_to_set [1; 2; 3; 4; 5]%N)
              {[ 2%N ]} 2).2).
  - lia.
  - apply triple_eta.
Defined.

Lemma limitToNewChunks_marks_witness :
  (limitToNewChunks elements (list_to_set [1; 2; 3]%N) {[ 7%N ]} 2).2
  = {[ 7%N ]} ∪ list_to_set [1; 2; 3]%N ∧
  (limitToNewChunks elements (list_to_set [1; 2; 3]%N) {[ 7%N ]} 4).2
  = {[ 7%N ]}.
Proof.
  split.
  - eapply (limitToNewChunks_marks elements elements_visits_keys
              (list_to_set [1; 2; 3]%N) {[ 7%N ]} 2).
    + lia.
    + apply triple_eta.
    + vm_compute. discriminate.
  - eapply (limitToNewChunks_marks elements elements_visits_keys
              (list_to_set [1; 2; 3]%N) {[ 7%N ]} 4).
    + lia.
    + apply triple_eta.
    + vm_compute. reflexivity.
Defined.

(** ** What a pull leaves as it was *)

Lemma same_config_refl p : same_config p p.
Proof. by repeat split. Qed.

Lemma log_grows_refl l : log_grows l l.
Proof. by left. Qed.

Lemma log_grows_trans l1 l2 l3 :
  log_grows l1 l2 → log_grows l2 l3 → log_grows l1 l3.
Proof.
  intros [->|[new1 ->]] [->|[new2 ->]].
  - by left.
  - right. by exists new2.
  - right. by exists new1.
  - right. exists (new1 ++ new2). cbn. by rewrite app_assoc.
Qed.

(** A state that differs from [s] in the puller, the permits, the map, the
    calls or the table files sent, and has the temp directory of [s]. *)
Lemma extends_same_dir_of s s' :
  same_config (puller s) (puller s') →
  downloaded (puller s) ⊆ downloaded (puller s') →
  calls s `prefix_of` calls s' →
  completedTables s `prefix_of` completedTables s' →
  dir s' = dir s →
  extends s s'.
Proof.
  intros Hcfg Hdl Hcalls Hsent Hdir. unfold extends. rewrite Hdir.
  split; [exact Hcfg|]. split; [exact Hdl|]. split; [exact Hcalls|].
  split; [exact Hsent|]. split; [apply log_grows_refl|].
  split; [done|]. split; [done|]. intros x Hx. by left.
Qed.

Lemma extends_refl s : extends s s.
Proof. by apply extends_same_dir_of; [apply same_config_refl|..]. Qed.

Lemma extends_trans s1 s2 s3 : extends s1 s2 → extends s2 s3 → extends s1 s3.
Proof.
  intros ((?&?&?&?&?&?&Hlog&?) & Hd1 & Hc1 & Ht1 & Hg1 & Hl1 & Hf1 & Hx1)
         ((?&?&?&?&?&?&?&?) & Hd2 & Hc2 & Ht2 & Hg2 & Hl2 & Hf2 & Hx2).
  split; [repeat split; congruence|].
  split; [set_solver|]. split; [by etrans|]. split; [by etrans|].
  split; [by eapply log_grows_trans|].
  split; [intros Hnone; rewrite Hl2; [by apply Hl1|congruence]|].
  split; [lia|].
  intros x Hx. destruct (Hx2 x Hx) as [Hin|Hnew]; [|right; lia].
  destruct (Hx1 x Hin) as [Hin1|Hnew1]; [by left|right; lia].
Qed.

Lemma extends_puller f s :
  same_config (puller s) (f (puller s)) →
  downloaded (puller s) ⊆ downloaded (f (puller s)) →
  extends s (set_puller f s).
Proof. intros Hcfg Hdl. by apply extends_same_dir_of. Qed.

Lemma extends_with_stats f s : extends s (set_puller (with_stats f) s).
Proof. apply extends_puller; [by repeat split|done]. Qed.

Lemma extends_with_wr w s : extends s (set_puller (with_wr w) s).
Proof. apply extends_puller; [by repeat split|done]. Qed.

Lemma extends_with_downloaded dl s :
  downloaded (puller s) ⊆ dl → extends s (set_puller (with_downloaded dl) s).
Proof. intros Hdl. apply extends_puller; [by repeat split|done]. Qed.

Lemma extends_set_sema f s : extends s (set_sema f s).
Proof. by apply extends_same_dir_of; [apply same_config_refl|..]. Qed.

Lemma extends_set_fileIdToNumChunks f s : extends s (set_fileIdToNumChunks f s).
Proof. by apply extends_same_dir_of; [apply same_config_refl|..]. Qed.

Lemma extends_log_call c s : extends s (log_call c s).
Proof.
  destruct (Logfs_dir (puller s) (sinkLines (puller s) c) (dir s))
    as (Htables & Hfresh & Hgrows & Hnone).
  split; [apply same_config_refl|]. split; [done|].
  split; [by apply prefix_app_r|]. split; [done|].
  split; [exact Hgrows|].
  split; [intros Hno; cbn; by rewrite Hnone|].
  split; [cbn; lia|].
  cbn. rewrite Htables. intros x Hx. by left.
Qed.

Lemma extends_send_completed w s : extends s (send_completed w s).
Proof.
  apply extends_same_dir_of; [apply same_config_refl|done| |by apply prefix_app_r|done].
  done.
Qed.

Lemma extends_remove_table path s : extends s (set_dir (remove_table path) s).
Proof.
  split; [apply same_config_refl|]. split; [done|]. split; [done|].
  split; [done|]. split; [apply log_grows_refl|]. split; [done|].
  split; [done|]. cbn. intros x Hx. left. set_solver.
Qed.

Lemma extends_new_table d s :
  d = dir s →
  extends s
    (set_dir (fun _ => mkTempDir ({[ fresh d ]} ∪ tables d)
                         (S (fresh d)) (pushLogFile d)) s).
Proof.
  intros ->. split; [apply same_config_refl|]. split; [done|].
  split; [done|]. split; [done|]. split; [apply log_grows_refl|].
  split; [done|]. split; [cbn; lia|].
  cbn. intros x [->%elem_of_singleton|Hx]%elem_of_union; [right; lia|by left].
Qed.

Lemma extends_same_dir d s : d = dir s → extends s (set_dir (fun _ => d) s).
Proof.
  intros ->. by apply extends_same_dir_of; [apply same_config_refl|..].
Qed.

Ltac extends_steps :=
  repeat first
    [ apply extends_refl
    | eapply extends_trans;
      [|first [ apply extends_with_stats | apply extends_with_wr
              | apply extends_set_sema | apply extends_set_fileIdToNumChunks
              | apply extends_log_call | apply extends_send_completed
              | apply extends_remove_table ]] ].

Section Frame.

Context (tf : TableFormat) (range_of : HashSet → list Hash).

Lemma sendCompleted_extends w s r s' :
  sendCompleted tf w s = (r, s') → extends s s'.
Proof.
  unfold sendCompleted. intros Hp.
  apply processCompletedTable_shape in Hp
    as [(e & _ & _ & ->)|(st' & _ & _ & _ & _ & ->)].
  - extends_steps.
  - destruct r; extends_steps.
Qed.

Lemma getCmpChunk_extends c seen nextLevel s r s' :
  getCmpChunk tf c seen nextLevel s = (r, s') → extends s s'.
Proof.
  intros Hg. apply getCmpChunk_shape in Hg. cbv zeta in Hg.
  destruct Hg as [[_ ->]|(w & chnk & walked & _ & _ & _ & _ & Hg)];
    [extends_steps|].
  destruct Hg as [(_ & _ & ->)|(_ & ro & s2 & Hsend & Hg)]; [extends_steps|].
  apply sendCompleted_extends in Hsend.
  eapply extends_trans; [|eapply extends_trans; [exact Hsend|]];
    [extends_steps|].
  destruct ro as [e|]; [destruct Hg as [_ ->]; apply extends_refl|].
  destruct (newWriterFails tf (fresh (dir s2))).
  - destruct Hg as [_ ->].
    eapply extends_trans; [|by apply extends_same_dir]. extends_steps.
  - destruct Hg as [_ ->].
    eapply extends_trans; [|apply extends_with_wr].
    eapply extends_trans; [|by apply extends_new_table].
    extends_steps.
Qed.

Lemma fillBatches_grows (batchSize : Z) (keys : list Hash) :
  ∀ (downloaded : HashSet) done cur total n batches dl',
    fillBatches keys batchSize downloaded done cur total = (n, batches, dl') →
    downloaded ⊆ dl'.
Proof.
  induction keys as [|k keys IH]; cbn [fillBatches];
    intros downloaded done cur total n batches dl' Hfill.
  - by injection Hfill as _ _ <-.
  - case_decide; [by eapply IH|].
    destruct (Z.rem (total + 1) batchSize =? 0);
      apply IH in Hfill; set_solver.
Qed.

Lemma limitToNewChunks_grows absent (downloaded : HashSet) maxBatchSize
    n batches dl' :
  limitToNewChunks range_of absent downloaded maxBatchSize = (n, batches, dl') →
  downloaded ⊆ dl'.
Proof.
  unfold limitToNewChunks. destruct (len_set absent <? maxBatchSize).
  - by intros [= _ _ <-].
  - apply fillBatches_grows.
Qed.

Lemma getCmp_extends batch nextLevel s r s' :
  getCmp tf batch nextLevel s = (r, s') → extends s s'.
Proof.
  unfold getCmp. cbn [puller log_call set_puller with_stats srcChunkStore].
  destruct (srcChunkStore (puller s) batch) as [found srcErr].
  destruct (getCmpLoop tf found 0 nextLevel _) as [r1 s1] eqn:Hl.
  assert (Hext : extends s s1).
  { eapply (getCmpLoop_holds tf (extends s) (extends s)) in Hl.
    - by destruct r1.
    - clear. intros c seen nl s0 r s' Hs Hc.
      apply getCmpChunk_extends in Hc.
      destruct r; cbn; by eapply extends_trans.
    - extends_steps. }
  destruct r1 as [[seen nl1]|e]; [|by intros [= <- <-]].
  destruct srcErr; [by intros [= <- <-]|].
  destruct (negb _); by intros [= <- <-].
Qed.

(** X6. Whatever a pull returns, and when it runs out of fuel, it has left
    the configuration of the puller as it was; it has only added to
    [downloaded], to the calls made, to the table files sent and to the end
    of the log file (where a logging sink writes through [Logf]; nothing is
    added when the puller has no logger); and the temp directory holds no
    table file that was not there before or was made by this pull. *)
Theorem Pull_extends (fuel : nat) (s : State) (o : outcome_of unit)
    (s' : State) :
  Pull tf range_of fuel s = (o, s') → extends s s'.
Proof.
  intros Hp.
  eapply (Pull_holds tf range_of (extends s) (extends s)) in Hp.
  - by destruct o as [[]|].
  - intros batch batch' nl s0 r s1 Hs _ _ Hg. apply getCmp_extends in Hg.
    assert (extends s s1)
      by (eapply extends_trans; [|exact Hg]; extends_steps; exact Hs).
    by destruct r.
  - intros batch e s0 Hs _. eapply extends_trans; [exact Hs|extends_steps].
  - intros batch batch' s0 Hs _ _.
    eapply extends_trans; [exact Hs|extends_steps].
  - intros absent s0 n bs dl Hs Hlim. apply limitToNewChunks_grows in Hlim.
    eapply extends_trans; [exact Hs|by apply extends_with_downloaded].
  - intros s0 Hs. eapply extends_trans; [exact Hs|extends_steps].
  - intros w s0 r s1 Hs _ _ Hsend. apply sendCompleted_extends in Hsend.
    assert (extends s s1) by (by eapply extends_trans).
    by destruct r.
  - intros s0 r s1 Hs [= <- <-].
    assert (extends s (log_call (CallAddTableFilesToManifest
                                   (fileIdToNumChunks s0)) s0))
      by (eapply extends_trans; [exact Hs|extends_steps]).
    by destruct (AddTableFilesToManifest _ _).
  - apply extends_refl.
Qed.

End Frame.

Lemma Pull_extends_witness :
  extends (Fixtures.pullOf Fixtures.tree 2)
    (Pull Fixtures.plainFormat elements 10 (Fixtures.pullOf Fixtures.tree 2)).2.
Proof.
  apply (Pull_extends Fixtures.plainFormat elements 10
           (Fixtures.pullOf Fixtures.tree 2)
           (Pull Fixtures.plainFormat elements 10
              (Fixtures.pullOf Fixtures.tree 2)).1).
  apply surjective_pairing.
Defined.

(** With [PUSH_LOG=true] and a sink that logs, [NewPuller] leaves an empty
    log file and the pull adds one line for each call it makes on the
    sink. *)
Lemma logging_sink_run :
  ∃ p d s',
    NewPuller loggingOS Fixtures.plainFormat "tmp" 2
      (Fixtures.graphStore "v" Fixtures.tree) loggingSink
      Fixtures.walkBytes [1%N] false Fixtures.emptyDir = (Ok p, d) ∧
    pushLogFile d = Some [] ∧
    Pull Fixtures.plainFormat elements 10 (initState p d)
    = (Done (Ok tt), s') ∧
    pushLogFile (dir s')
    = Some ["HasMany"; "HasMany"; "WriteTableFile 12"; "HasMany";
            "WriteTableFile 3"; "AddTableFilesToManifest"]%string.
Proof.
  eexists _, _, _.
  split; [vm_compute; reflexivity|]. split; [vm_compute; reflexivity|].
  split; vm_compute; reflexivity.
Qed.

(** ** Temp files are removed by the upload, and by nothing else *)

Section UploadOnly.

Context (tf : TableFormat) (range_of : HashSet → list Hash).

Lemma handed_to_upload_mono s s' x :
  extends s s' → handed_to_upload tf s x → handed_to_upload tf s' x.
Proof.
  intros (_ & _ & Hcalls & Hsent & _) (w & ret & Hw & Hpath & Hcall).
  exists w, ret. split; [by eapply elem_of_prefix|].
  split; [exact Hpath|]. by eapply elem_of_prefix.
Qed.

Lemma removes_by_upload_refl s : removes_by_upload tf s s.
Proof.
  split; [apply extends_refl|]. intros x [Hx|Hx]; [by left|lia].
Qed.

Lemma removes_by_upload_trans s1 s2 s3 :
  removes_by_upload tf s1 s2 → removes_by_upload tf s2 s3 →
  removes_by_upload tf s1 s3.
Proof.
  intros [He1 Hx1] [He2 Hx2]. split; [by eapply extends_trans|].
  intros x Hx.
  assert (Hf1 : (fresh (dir s1) ≤ fresh (dir s2))%nat)
    by (by destruct He1 as (_ & _ & _ & _ & _ & _ & Hf & _)).
  destruct (decide (x ∈ tables (dir s1) ∨
                    (fresh (dir s1) ≤ x < fresh (dir s2))%nat))
    as [Hold|Hnew].
  - destruct (Hx1 x Hold) as [Hin|Hup].
    + apply Hx2. by left.
    + right. by eapply handed_to_upload_mono.
  - apply Hx2. right. destruct Hx as [Hx|Hx]; [by destruct Hnew; left|].
    split; [|lia].
    destruct (decide (fresh (dir s2) ≤ x)%nat) as [|Hlt]; [done|].
    destruct Hnew. right. lia.
Qed.

(** A step that removes no table file. *)
Lemma removes_by_upload_kept s s' :
  extends s s' →
  tables (dir s) ⊆ tables (dir s') →
  (∀ x, (fresh (dir s) ≤ x < fresh (dir s'))%nat → x ∈ tables (dir s')) →
  removes_by_upload tf s s'.
Proof.
  intros Hext Hold Hnew. split; [exact Hext|].
  intros x [Hx|Hx]; left; [by apply Hold|by apply Hnew].
Qed.

Lemma removes_by_upload_same_dir s s' :
  extends s s' → dir s' = dir s → removes_by_upload tf s s'.
Proof.
  intros Hext Hdir. apply removes_by_upload_kept; [exact Hext|..];
    rewrite Hdir; [done|]. intros x Hx. lia.
Qed.

Lemma removes_by_upload_log_call c s : removes_by_upload tf s (log_call c s).
Proof.
  apply removes_by_upload_kept; [apply extends_log_call|..].
  - by rewrite log_call_tables.
  - rewrite log_call_fresh. intros x Hx. lia.
Qed.

(** The upload of a table file that was sent: the one step that removes. *)
Lemma removes_by_upload_upload w ret s :
  w ∈ completedTables s →
  removes_by_upload tf s
    (set_dir (remove_table (w_path w))
       (log_call (CallWriteTableFile (tableId tf (w_chunks w))
                    (ChunkCount w) ret) s)).
Proof.
  intros Hw. split.
  - eapply extends_trans; [apply extends_log_call|apply extends_remove_table].
  - cbn [dir set_dir remove_table tables fresh].
    rewrite log_call_tables, log_call_fresh.
    intros x [Hx|Hx]; [|lia].
    destruct (decide (x = w_path w)) as [->|Hne].
    + right. exists w, ret. split; [exact Hw|]. split; [done|].
      cbn [calls set_dir log_call]. apply elem_of_app. right. by left.
    + left. set_solver.
Qed.

Lemma sendCompleted_removes_by_upload w s r s' :
  sendCompleted tf w s = (r, s') → removes_by_upload tf s s'.
Proof.
  unfold sendCompleted. intros Hp.
  apply processCompletedTable_shape in Hp
    as [(e & _ & _ & ->)|(st' & _ & _ & _ & _ & ->)].
  - apply removes_by_upload_same_dir; [extends_steps|done].
  - eapply removes_by_upload_trans;
      [apply (removes_by_upload_same_dir s
                (set_puller (with_stats (fun _ => st'))
                   (set_sema (fun n => n - 1) (send_completed w s))));
         [extends_steps|done]|].
    eapply removes_by_upload_trans.
    + apply (removes_by_upload_upload w r). cbn.
      apply elem_of_app. right. by left.
    + destruct r; [apply removes_by_upload_refl|].
      apply removes_by_upload_same_dir; [extends_steps|done].
Qed.

Lemma getCmpChunk_removes_by_upload c seen nextLevel s r s' :
  getCmpChunk tf c seen nextLevel s = (r, s') → removes_by_upload tf s s'.
Proof.
  intros Hg. apply getCmpChunk_shape in Hg. cbv zeta in Hg.
  destruct Hg as [[_ ->]|(w & chnk & walked & _ & _ & _ & _ & Hg)];
    [apply removes_by_upload_same_dir; [extends_steps|done]|].
  destruct Hg as [(_ & _ & ->)|(_ & ro & s2 & Hsend & Hg)];
    [apply removes_by_upload_same_dir; [extends_steps|done]|].
  apply sendCompleted_removes_by_upload in Hsend.
  eapply removes_by_upload_trans;
    [|eapply removes_by_upload_trans; [exact Hsend|]];
    [apply removes_by_upload_same_dir; [extends_steps|done]|].
  destruct ro as [e|]; [destruct Hg as [_ ->]; apply removes_by_upload_refl|].
  destruct (newWriterFails tf (fresh (dir s2))).
  - destruct Hg as [_ ->].
    apply removes_by_upload_same_dir; [|done].
    eapply extends_trans; [|by apply extends_same_dir]. extends_steps.
  - destruct Hg as [_ ->]. apply removes_by_upload_kept.
    + eapply extends_trans; [|apply extends_with_wr].
      eapply extends_trans; [|by apply extends_new_table]. extends_steps.
    + cbn. set_solver.
    + cbn. intros x Hx. assert (x = fresh (dir s2)) as -> by lia. set_solver.
Qed.

Lemma getCmp_removes_by_upload batch nextLevel s r s' :
  getCmp tf batch nextLevel s = (r, s') → removes_by_upload tf s s'.
Proof.
  unfold getCmp. cbn [puller log_call set_puller with_stats srcChunkStore].
  destruct (srcChunkStore (puller s) batch) as [found srcErr].
  destruct (getCmpLoop tf found 0 nextLevel _) as [r1 s1] eqn:Hl.
  assert (Hkeeps : removes_by_upload tf s s1).
  { eapply (getCmpLoop_holds tf (removes_by_upload tf s)
              (removes_by_upload tf s)) in Hl.
    - by destruct r1.
    - clear Hl. intros c seen nl s0 rc sc Hs Hc.
      apply getCmpChunk_removes_by_upload in Hc.
      destruct rc; cbn; by eapply removes_by_upload_trans.
    - eapply removes_by_upload_trans;
        [|apply removes_by_upload_log_call].
      apply removes_by_upload_same_dir; [extends_steps|done]. }
  destruct r1 as [[seen nl1]|e]; [|by intros [= <- <-]].
  destruct srcErr; [by intros [= <- <-]|].
  destruct (negb _); by intros [= <- <-].
Qed.

Lemma Pull_removes_by_upload fuel s o s' :
  Pull tf range_of fuel s = (o, s') → removes_by_upload tf s s'.
Proof.
  intros Hp.
  eapply (Pull_holds tf range_of (removes_by_upload tf s)
            (removes_by_upload tf s)) in Hp.
  - by destruct o as [[]|].
  - intros batch batch' nl s0 r s1 Hs _ _ Hg.
    apply getCmp_removes_by_upload in Hg.
    assert (removes_by_upload tf s s1).
    { eapply removes_by_upload_trans; [exact Hs|].
      eapply removes_by_upload_trans; [|exact Hg].
      apply removes_by_upload_log_call. }
    by destruct r.
  - intros batch e s0 Hs _.
    eapply removes_by_upload_trans; [exact Hs|].
    apply removes_by_upload_log_call.
  - intros batch batch' s0 Hs _ _.
    eapply removes_by_upload_trans; [exact Hs|].
    apply removes_by_upload_log_call.
  - intros absent s0 n bs dl Hs Hlim.
    apply (limitToNewChunks_grows range_of) in Hlim.
    eapply removes_by_upload_trans; [exact Hs|].
    apply removes_by_upload_same_dir; [|done].
    by apply extends_with_downloaded.
  - intros s0 Hs. eapply removes_by_upload_trans; [exact Hs|].
    apply removes_by_upload_same_dir; [extends_steps|done].
  - intros w s0 r s1 Hs _ _ Hsend.
    apply sendCompleted_removes_by_upload in Hsend.
    assert (removes_by_upload tf s s1)
      by (by eapply removes_by_upload_trans).
    by destruct r.
  - intros s0 r s1 Hs [= <- <-].
    assert (removes_by_upload tf s
              (log_call (CallAddTableFilesToManifest (fileIdToNumChunks s0))
                 s0))
      by (eapply removes_by_upload_trans;
            [exact Hs|apply removes_by_upload_log_call]).
    by destruct (AddTableFilesToManifest _ _).
  - apply removes_by_upload_refl.
Qed.

(** C5. The table file handed to [uploadTempTableFile] is removed from the
    temp directory when the call returns, whether [WriteTableFile] returned
    an error or not; the other table files and the counter are left as
    they were, and the log file has only gained what a logging sink wrote
    during the call (nothing when the puller has no logger). Nothing else
    in a pull removes a table file: whatever the pull returns, a table file
    that was in the temp directory before or was made during the pull is
    still there afterwards, unless its writer was sent on [completedTables]
    and handed to [WriteTableFile]. The file of a writer that never got
    that far is not removed. *)
Theorem temp_files_removed_by_upload_only :
  (∀ (t : tempTblFile) (s : State),
     let s' := snd (uploadTempTableFile tf t s) in
     (w_path (read t) ∉ tables (dir s')) ∧
     (tables (dir s') = tables (dir s) ∖ {[ w_path (read t) ]}) ∧
     (fresh (dir s') = fresh (dir s)) ∧
     log_grows (pushLogFile (dir s)) (pushLogFile (dir s')) ∧
     (pushLog (puller s) = None →
      pushLogFile (dir s') = pushLogFile (dir s))) ∧
  (∀ (fuel : nat) (s : State) (o : outcome_of unit) (s' : State),
     Pull tf range_of fuel s = (o, s') →
     ∀ x, x ∈ tables (dir s) ∨ (fresh (dir s) ≤ x < fresh (dir s'))%nat →
          x ∈ tables (dir s') ∨ handed_to_upload tf s' x).
Proof.
  split.
  - intros t s.
    destruct (uploadTempTableFile_shape tf t s) as (ret & st' & -> & _).
    cbn [snd dir set_dir remove_table tables fresh pushLogFile].
    rewrite log_call_tables, log_call_fresh.
    match goal with
    | |- context [log_call ?c ?s0] =>
        destruct (Logfs_dir (puller s0) (sinkLines (puller s0) c) (dir s0))
          as (_ & _ & Hgrows & Hnone)
    end.
    split; [set_solver|]. split; [done|]. split; [done|].
    split; [exact Hgrows|].
    intros Hno. change (dir (log_call ?c ?s0))
      with (Logfs (puller s0) (sinkLines (puller s0) c) (dir s0)).
    by rewrite (Hnone Hno).
  - intros fuel s o s' Hp x Hx.
    apply Pull_removes_by_upload in Hp as [_ Hkeeps]. by apply Hkeeps.
Qed.

End UploadOnly.

Lemma temp_files_removed_by_upload_only_witness :
  ∃ s',
    Pull Fixtures.plainFormat elements 10
      (Fixtures.pullOf Fixtures.brokenChain 2)
    = (Done (Err errIncompleteFetch), s') ∧
    handed_to_upload Fixtures.plainFormat s' 0%nat ∧
    1%nat ∈ tables (dir s').
Proof.
  destruct broken_chain_run as (s' & Hrun & Hleft). exists s'.
  split; [exact Hrun|].
  assert (Hone : ∀ x, x ∈ tables (dir s') ↔ x = 1%nat).
  { intros x. rewrite <- elem_of_elements, Hleft. apply list_elem_of_singleton. }
  split; [|by apply Hone].
  destruct (proj2 (temp_files_removed_by_upload_only Fixtures.plainFormat
                     elements) 10%nat _ _ s' Hrun 0%nat) as [Hin|Hup].
  - left. change (0%nat ∈ ({[ 0%nat ]} : gset nat)). by apply elem_of_singleton.
  - by apply Hone in Hin.
  - exact Hup.
Defined.

(** ** A batch that passes *)

Lemma getCmp_passes tf batch nextLevel s nextLevel1 s' :
  getCmp tf batch nextLevel s = (Ok nextLevel1, s') →
  ∃ found,
    srcChunkStore (puller s) batch = (found, None) ∧
    Z.of_nat (length found) = len_set batch ∧
    getCmpLoop tf found 0 nextLevel (getCmpStart batch s)
    = (Ok (len_set batch, nextLevel1), s').
Proof.
  unfold getCmp. fold (getCmpStart batch s).
  change (srcChunkStore (puller (getCmpStart batch s)) batch)
    with (srcChunkStore (puller s) batch).
  destruct (srcChunkStore (puller s) batch) as [found srcErr].
  destruct (getCmpLoop tf found 0 nextLevel _) as [[[seen nl1]|e] s1] eqn:Hl;
    [|done].
  destruct srcErr; [done|].
  destruct (Z.eqb_spec seen (len_set batch)) as [->|]; [|done].
  intros [= <- <-]. exists found. repeat split; [|exact Hl].
  apply getCmpLoop_seen in Hl. lia.
Qed.

(** ** The counters of chunks asked for and fetched *)

Lemma u64_add_add (a b c : Z) : u64_add (u64_add a b) c = u64_add a (b + c).
Proof.
  unfold u64_add, u64. rewrite Zplus_mod_idemp_l. f_equal. lia.
Qed.

Section SourceCounters.

Context (tf : TableFormat) (range_of : HashSet → list Hash).

Local Abbreviation total s := (totalSourceChunks (pstats (puller s))).
Local Abbreviation fetched s := (fetchedSourceChunks (pstats (puller s))).
Local Abbreviation fetchedBytes s := (fetchedSourceBytes (pstats (puller s))).

Lemma sendCompleted_source_counters w s r s' :
  sendCompleted tf w s = (r, s') →
  total s' = total s ∧ fetched s' = fetched s ∧
  fetchedBytes s' = fetchedBytes s.
Proof.
  unfold sendCompleted. intros Hp.
  apply processCompletedTable_shape in Hp
    as [(e & _ & _ & ->)|(st' & _ & Ht & Hf & Hb & ->)]; [done|].
  by destruct r.
Qed.

Lemma getCmpChunk_source_counters c seen nextLevel s r s' :
  getCmpChunk tf c seen nextLevel s = (r, s') →
  total s' = total s ∧ fetched s' = u64_add (fetched s) 1 ∧
  fetchedBytes s' = u64_add (fetchedBytes s) (len_bytes c).
Proof.
  intros Hg. apply getCmpChunk_shape in Hg. cbv zeta in Hg.
  destruct Hg as [[_ ->]|(w & chnk & walked & _ & _ & _ & _ & Hg)]; [done|].
  destruct Hg as [(_ & _ & ->)|(_ & ro & s2 & Hsend & Hg)]; [done|].
  apply sendCompleted_source_counters in Hsend as (Ht & Hf & Hb).
  cbn in Ht, Hf, Hb.
  destruct ro as [e|]; [by destruct Hg as [_ ->]|].
  destruct (newWriterFails tf (fresh (dir s2))); by destruct Hg as [_ ->].
Qed.

Lemma getCmpLoop_source_counters found : ∀ seen nextLevel s seen1 nextLevel1 s',
  getCmpLoop tf found seen nextLevel s = (Ok (seen1, nextLevel1), s') →
  total s' = total s ∧
  (found ≠ [] → fetched s' = u64_add (fetched s) (Z.of_nat (length found))).
Proof.
  induction found as [|c found IH]; cbn [getCmpLoop];
    intros seen nextLevel s seen1 nextLevel1 s' Hl.
  - by injection Hl as _ _ <-.
  - destruct (getCmpChunk tf c seen nextLevel s) as [[[seen2 nl2]|e] s2] eqn:Hc;
      [|done].
    apply getCmpChunk_source_counters in Hc as (Ht & Hf & _).
    pose proof Hl as Hrest. apply IH in Hrest as (Ht' & Hf').
    split; [congruence|]. intros _.
    destruct found as [|c' found].
    + cbn [getCmpLoop] in Hl. injection Hl as _ _ <-. exact Hf.
    + rewrite Hf', Hf, u64_add_add by done. f_equal. cbn [length]. lia.
Qed.

Lemma getCmp_source_counters batch nextLevel s nextLevel1 s' :
  0 < len_set batch →
  getCmp tf batch nextLevel s = (Ok nextLevel1, s') →
  total s' = u64_add (total s) (len_set batch) ∧
  fetched s' = u64_add (fetched s) (len_set batch).
Proof.
  intros Hpos Hg. apply getCmp_passes in Hg as (found & _ & Hlen & Hl).
  apply getCmpLoop_source_counters in Hl as (Ht & Hf).
  split; [exact Ht|]. rewrite <- Hlen. apply Hf.
  intros ->. cbn in Hlen. lia.
Qed.

(** X7. When the counter of chunks fetched and the counter of chunks asked
    for agree at the start, they agree after a pull that returns no error
    (and where the loops run out of fuel, which is between two batches):
    every batch that passes has added its size to both. *)
Theorem Pull_fetched_all (fuel : nat) (s : State) (o : outcome_of unit)
    (s' : State) :
  fetched s = total s →
  Pull tf range_of fuel s = (o, s') →
  (∀ e, o ≠ Done (Err e)) →
  fetched s' = total s'.
Proof.
  intros Hstart Hp Hok.
  eapply (Pull_holds tf range_of (fun s => fetched s = total s)
            (fun _ => True)) in Hp.
  - destruct o as [[[]|e]|]; [exact Hp|by destruct (Hok e)|exact Hp].
  - intros batch batch' nl s0 r s1 Hs _ Hpos Hg. destruct r as [nl1|]; [|done].
    apply getCmp_source_counters in Hg as (Ht & Hf); [|exact Hpos].
    cbn in *. congruence.
  - done.
  - done.
  - done.
  - done.
  - intros w s0 r s1 Hs _ _ Hsend.
    apply sendCompleted_source_counters in Hsend as (Ht & Hf & _).
    destruct r; [done|]. cbn. congruence.
  - intros s0 r s1 Hs [= <- <-]. by destruct (AddTableFilesToManifest _ _).
  - exact Hstart.
Qed.

End SourceCounters.

Lemma Pull_fetched_all_witness :
  let s' := (Pull Fixtures.plainFormat elements 10
               (Fixtures.pullOf Fixtures.tree 2)).2 in
  fetchedSourceChunks (pstats (puller s'))
  = totalSourceChunks (pstats (puller s')).
Proof.
  apply (Pull_fetched_all Fixtures.plainFormat elements 10
           (Fixtures.pullOf Fixtures.tree 2)
           (Pull Fixtures.plainFormat elements 10
              (Fixtures.pullOf Fixtures.tree 2)).1).
  - reflexivity.
  - apply surjective_pairing.
  - intros e. vm_compute. discriminate.
Defined.

(** ** Bytes buffered and bytes sent *)

Ltac u64_arith :=
  unfold u64_add, u64_sub, u64, two64 in *;
  Z.div_mod_to_equations; lia.

Lemma u64_range (z : Z) : 0 ≤ u64 z < two64.
Proof. unfold u64, two64. apply Z.mod_pos_bound. lia. Qed.

Lemma u64_idem (z : Z) : u64 (u64 z) = u64 z.
Proof. unfold u64. apply Z.mod_mod. unfold two64. lia. Qed.

Lemma chunkDataLen_app (a b : list CompressedChunk) :
  chunkDataLen (a ++ b) = chunkDataLen a + chunkDataLen b.
Proof. induction a as [|c a IH]; cbn [chunkDataLen app]; lia. Qed.

Section Balance.

Context (tf : TableFormat) (range_of : HashSet → list Hash).
Context (sink : ChunkStore).
Hypothesis sink_reads : reads_to_end sink.
Hypothesis tf_opens : readers_open tf.

Local Abbreviation buffered s := (bufferedSendBytes (pstats (puller s))).
Local Abbreviation finished s := (finishedSendBytes (pstats (puller s))).

Lemma sendCompleted_sends w s s' :
  sinkDBCS (puller s) = sink →
  w_finished w = false →
  sendCompleted tf w s = (None, s') →
  let D := chunkDataLen (w_chunks w) in
  let C := u64 (D + indexAndFooterLen tf (w_chunks w)) in
  finished s' = u64_add (finished s) C ∧
  buffered s' = u64_add (buffered s) (u64_sub (u64 C) (u64 D)) ∧
  wr (puller s') = wr (puller s) ∧
  sinkDBCS (puller s') = sink.
Proof.
  intros Hsink Hopen.
  unfold sendCompleted, processCompletedTable, Finish.
  destruct (finishFails tf (w_chunks w)); [done|].
  unfold uploadTempTableFile.
  cbn [puller set_sema send_completed sinkDBCS id read numChunks chunksLen
       contentLen contentHash].
  rewrite Hsink.
  match goal with
  | |- context [WriteTableFile sink ?a ?b ?c ?d] =>
      destruct (sink_reads a b c d) as (k & -> & Hk)
  end.
  cbn [bodyAttempts]. unfold openBody, readBody.
  cbn [read w_path contentLen chunksLen]. rewrite tf_opens.
  cbn [Z.eqb].
  unfold ContentLength at 1 2 3 4 5. cbn [w_finished w_chunks]. rewrite Hopen.
  destruct (outcome _); [done|].
  intros [= <-]. cbn. split; [|split; [|done]].
  - f_equal.
    unfold ContentLength in Hk. cbn [w_finished w_chunks] in Hk.
    rewrite u64_idem in Hk.
    pose proof (u64_range (chunkDataLen (w_chunks w)
                           + indexAndFooterLen tf (w_chunks w))).
    lia.
  - unfold ContentLength. by rewrite Hopen.
Qed.

Local Abbreviation inv s := (sinkDBCS (puller s) = sink ∧ balanced s).

Lemma getCmpChunk_balanced c seen nextLevel s r s' :
  inv s →
  getCmpChunk tf c seen nextLevel s = (r, s') →
  holds_after (fun s => inv s) (fun _ => True) r s'.
Proof.
  intros (Hsink & Hopen & Hfin & Hbuf) Hg.
  destruct r as [next|e]; [cbn|done].
  apply getCmpChunk_shape in Hg. cbv zeta in Hg.
  destruct Hg as [[[e [=]] _]|(w & chnk & walked & Hwr & _ & _ & _ & Hg)].
  unfold unsent in Hbuf. rewrite Hwr in Hbuf.
  pose proof (Hopen w Hwr) as Hw.
  destruct Hg as [(_ & _ & ->)|(_ & ro & s2 & Hsend & Hg)].
  - split; [exact Hsink|]. split; [|split].
    + cbn. by intros ? [= <-].
    + exact Hfin.
    + unfold unsent. cbn. rewrite chunkDataLen_app. cbn [chunkDataLen].
      rewrite Hbuf. u64_arith.
  - destruct ro as [e|]; [by destruct Hg as [[=] _]|].
    apply sendCompleted_sends in Hsend as (HF & HB & _ & Hsink2);
      [|exact Hsink|exact Hw].
    cbn in HF, HB. rewrite chunkDataLen_app in HF, HB.
    cbn [chunkDataLen] in HF, HB.
    destruct (newWriterFails tf (fresh (dir s2)));
      [by destruct Hg as [[=] _]|].
    destruct Hg as [_ ->]. split; [exact Hsink2|]. split; [|split].
    + cbn. by intros ? [= <-].
    + cbn. rewrite HF. unfold u64_add. by rewrite u64_idem.
    + unfold unsent. cbn. rewrite HB, HF, Hbuf. u64_arith.
Qed.

Lemma getCmp_balanced batch nextLevel s r s' :
  inv s →
  getCmp tf batch nextLevel s = (r, s') →
  holds_after (fun s => inv s) (fun _ => True) r s'.
Proof.
  intros Hinv. unfold getCmp.
  cbn [puller log_call set_puller with_stats srcChunkStore].
  destruct (srcChunkStore (puller s) batch) as [found srcErr].
  destruct (getCmpLoop tf found 0 nextLevel _) as [r1 s1] eqn:Hl.
  eapply (getCmpLoop_holds tf (fun s => inv s) (fun _ => True)) in Hl.
  - destruct r1 as [[seen nl1]|e]; [|by intros [= <- <-]].
    destruct srcErr; [by intros [= <- <-]|].
    destruct (negb _); by intros [= <- <-].
  - intros c seen nl s0 r0 s0' Hs Hc. by eapply getCmpChunk_balanced.
  - exact Hinv.
Qed.

(** X8. With a sink that reads every table file once and to its end, a pull
    that returns no error has sent every byte it has buffered: the two
    counters are equal. *)
Theorem Pull_sends_all_buffered (fuel : nat) (s s' : State) :
  sinkDBCS (puller s) = sink →
  balanced s →
  Pull tf range_of fuel s = (Done (Ok tt), s') →
  buffered s' = finished s'.
Proof.
  intros Hsink Hbal. unfold Pull.
  destruct (levelLoop _ _ _ _ _ _) as [[[[]|e]|] s1] eqn:Hl; [|done|done].
  eapply (levelLoop_holds tf range_of (fun s => inv s) (fun _ => True))
    in Hl.
  - cbn in Hl. destruct Hl as (Hsink1 & Hopen & Hfin & Hbuf).
    assert (Hflushed : ∀ s2,
      flushLast tf s1 = (None, s2) → buffered s2 = finished s2).
    { unfold flushLast, unsent in *. intros s2 Hf.
      destruct (wr (puller s1)) as [w|] eqn:Hwr.
      - destruct (Z.gtb_spec (ChunkCount w) 0) as [Hpos|Hzero].
        + apply sendCompleted_sends in Hf as (HF & HB & _ & _);
            [|exact Hsink1|by apply Hopen].
          cbn in HF, HB. rewrite HB, HF, Hbuf. u64_arith.
        + injection Hf as <-.
          assert (Hnone : w_chunks w = []).
          { unfold ChunkCount in Hzero. destruct (w_chunks w); [done|].
            cbn [length] in Hzero. lia. }
          rewrite Hnone in Hbuf. cbn [chunkDataLen] in Hbuf.
          rewrite Hbuf, Z.add_0_r. by rewrite <- Hfin.
      - injection Hf as <-.
        rewrite Hbuf, Z.add_0_r. by rewrite <- Hfin. }
    destruct (flushLast tf s1) as [[e|] s2]; [done|].
    pose proof (Hflushed s2 eq_refl) as Heq.
    unfold commitManifest.
    destruct (AddTableFilesToManifest _ _); [done|].
    intros [= <-]. exact Heq.
  - intros batch batch' nl s0 r s0' Hs _ _ Hg.
    eapply getCmp_balanced; [|exact Hg]. exact Hs.
  - done.
  - intros batch batch' s0 Hs _ _. exact Hs.
  - intros absent s0 n bs dl Hs _. exact Hs.
  - split; [exact Hsink|exact Hbal].
Qed.

End Balance.

Lemma graphStore_reads_to_end version graph :
  reads_to_end (Fixtures.graphStore version graph).
Proof. intros id n md5 len. exists len. split; [reflexivity|lia]. Qed.

Lemma pull_tree_done :
  ∃ s', Pull Fixtures.plainFormat elements 10 (Fixtures.pullOf Fixtures.tree 2)
        = (Done (Ok tt), s').
Proof. eexists. vm_compute. reflexivity. Qed.

Lemma Pull_sends_all_buffered_witness :
  ∃ s',
    Pull Fixtures.plainFormat elements 10 (Fixtures.pullOf Fixtures.tree 2)
    = (Done (Ok tt), s') ∧
    bufferedSendBytes (pstats (puller s'))
    = finishedSendBytes (pstats (puller s')).
Proof.
  destruct pull_tree_done as (s' & Hrun). exists s'.
  split; [exact Hrun|].
  apply (Pull_sends_all_buffered Fixtures.plainFormat elements
           (Fixtures.graphStore "v" ∅) (graphStore_reads_to_end "v" ∅)
           (fun _ _ => eq_refl) 10 (Fixtures.pullOf Fixtures.tree 2) s').
  - reflexivity.
  - split; [|split].
    + intros w [= <-]. reflexivity.
    + reflexivity.
    + reflexivity.
  - exact Hrun.
Defined.

(** ** What is packed, and in which order *)

Lemma delivered_app src cs cs' :
  delivered src (cs ++ cs') = delivered src cs ++ delivered src cs'.
Proof. unfold delivered. apply flat_map_app. Qed.

Lemma delivered_uploads src cs :
  Forall is_upload cs → delivered src cs = [].
Proof.
  induction 1 as [|c cs Hc _ IH]; [done|].
  destruct c; done.
Qed.

Section Packing.

Context (tf : TableFormat) (range_of : HashSet → list Hash).

(** Sending a writer leaves the puller's writer as it is, adds the writer
    to the table files sent, and makes no call but a [WriteTableFile]. *)
Lemma sendCompleted_effect w s r s' :
  sendCompleted tf w s = (r, s') →
  wr (puller s') = wr (puller s) ∧
  completedTables s' = completedTables s ++ [w] ∧
  ∃ new, calls s' = calls s ++ new ∧ Forall is_upload new.
Proof.
  unfold sendCompleted. intros Hp.
  apply processCompletedTable_shape in Hp
    as [(e & _ & _ & ->)|(st' & _ & _ & _ & _ & ->)].
  - repeat split. exists []. by rewrite app_nil_r.
  - destruct r; (repeat split; eexists [_]; split; [reflexivity|]);
      by repeat constructor.
Qed.

Lemma getCmpChunk_packed c seen nextLevel s next s' :
  getCmpChunk tf c seen nextLevel s = (Ok next, s') →
  packed s' = packed s ++ [c] ∧
  ∃ new, calls s' = calls s ++ new ∧ Forall is_upload new.
Proof.
  intros Hg. apply getCmpChunk_shape in Hg. cbv zeta in Hg.
  destruct Hg as [[[e [=]] _]|(w & chnk & walked & Hwr & _ & _ & _ & Hg)].
  unfold packed at 2. rewrite Hwr.
  destruct Hg as [(_ & _ & ->)|(_ & ro & s2 & Hsend & Hg)].
  - split; [|exists []; by rewrite app_nil_r].
    unfold packed, sent_chunks. cbn. by rewrite app_assoc.
  - destruct ro as [e|]; [by destruct Hg as [[=] _]|].
    apply sendCompleted_effect in Hsend as (_ & Hsent & new & Hcalls & Hnew).
    destruct (newWriterFails tf (fresh (dir s2)));
      [by destruct Hg as [[=] _]|].
    destruct Hg as [_ ->]. split; [|by exists new].
    unfold packed, sent_chunks. cbn. rewrite Hsent. cbn.
    rewrite map_app, concat_app, app_nil_r. cbn.
    by rewrite app_nil_r, app_assoc.
Qed.

Lemma getCmpLoop_packed found : ∀ seen nextLevel s next s',
  getCmpLoop tf found seen nextLevel s = (Ok next, s') →
  packed s' = packed s ++ found ∧
  ∃ new, calls s' = calls s ++ new ∧ Forall is_upload new.
Proof.
  induction found as [|c found IH]; cbn [getCmpLoop];
    intros seen nextLevel s next s' Hl.
  - injection Hl as _ <-. split; [by rewrite app_nil_r|].
    exists []. by rewrite app_nil_r.
  - destruct (getCmpChunk tf c seen nextLevel s) as [[[seen2 nl2]|e] s2] eqn:Hc;
      [|done].
    apply getCmpChunk_packed in Hc as (Hp & new & Hcalls & Hnew).
    apply IH in Hl as (Hp' & new' & Hcalls' & Hnew').
    split; [by rewrite Hp', Hp, <- app_assoc|].
    exists (new ++ new'). split; [by rewrite Hcalls', Hcalls, app_assoc|].
    by apply Forall_app.
Qed.

Lemma follows_HasMany src start batch s :
  follows src start s → follows src start (log_call (CallHasMany batch) s).
Proof.
  intros [Hsrc Hp]. split; [exact Hsrc|].
  cbn [calls log_call]. rewrite delivered_app. cbn [delivered flat_map].
  rewrite app_nil_r. exact Hp.
Qed.

Lemma getCmp_packed src start batch nextLevel s r s' :
  follows src start s →
  getCmp tf batch nextLevel s = (r, s') →
  holds_after (follows src start) (fun _ => True) r s'.
Proof.
  intros [Hsrc Hp] Hg. destruct r as [nl1|]; [cbn|done].
  pose proof Hg as Hext. apply getCmp_extends in Hext as ((_ & Hsame & _) & _).
  apply getCmp_passes in Hg as (found & Hfound & _ & Hl).
  apply getCmpLoop_packed in Hl as (Hp' & new & Hcalls & Hnew).
  split; [congruence|].
  rewrite Hp', Hcalls. unfold getCmpStart. cbn [calls log_call set_puller].
  rewrite !delivered_app, (delivered_uploads _ new Hnew), app_nil_r.
  unfold packed, sent_chunks in *. cbn in *. rewrite Hp.
  rewrite <- Hsrc, Hfound. cbn. by rewrite app_nil_r, app_assoc.
Qed.

(** X9. A pull that returns no error has put every chunk the source handed
    over into a table file it has sent, once, in the order in which the
    chunks arrived, after the chunks its writer held at the start. *)
Theorem Pull_packs_delivered (fuel : nat) (s s' : State) :
  calls s = [] →
  Pull tf range_of fuel s = (Done (Ok tt), s') →
  sent_chunks s' = packed s ++ delivered (srcChunkStore (puller s)) (calls s').
Proof.
  intros Hnone. unfold Pull.
  destruct (levelLoop _ _ _ _ _ _) as [[[[]|e]|] s1] eqn:Hl; [|done|done].
  eapply (levelLoop_holds tf range_of
            (follows (srcChunkStore (puller s)) (packed s))
            (fun _ => True)) in Hl.
  - cbn in Hl. destruct Hl as [Hsrc Hp].
    assert (Hflushed : ∀ s2,
      flushLast tf s1 = (None, s2) →
      sent_chunks s2
      = packed s ++ delivered (srcChunkStore (puller s)) (calls s2)).
    { unfold flushLast. intros s2 Hf. unfold packed at 1 in Hp.
      destruct (wr (puller s1)) as [w|] eqn:Hwr.
      - destruct (Z.gtb_spec (ChunkCount w) 0) as [Hpos|Hzero].
        + apply sendCompleted_effect in Hf as (_ & Hsent & new & Hcalls & Hnew).
          unfold sent_chunks in *.
          rewrite Hsent, map_app, concat_app, Hcalls, delivered_app,
            (delivered_uploads _ new Hnew), app_nil_r.
          cbn. by rewrite app_nil_r.
        + injection Hf as <-.
          assert (Hempty : w_chunks w = []).
          { unfold ChunkCount in Hzero. destruct (w_chunks w); [done|].
            cbn [length] in Hzero. lia. }
          by rewrite Hempty, app_nil_r in Hp.
      - injection Hf as <-. by rewrite app_nil_r in Hp. }
    destruct (flushLast tf s1) as [[e|] s2]; [done|].
    pose proof (Hflushed s2 eq_refl) as Heq.
    unfold commitManifest.
    destruct (AddTableFilesToManifest _ _); [done|].
    intros [= <-]. unfold sent_chunks in *.
    cbn [calls log_call completedTables].
    rewrite delivered_app, Heq. cbn. by rewrite app_nil_r.
  - intros batch batch' nl s0 r s0' Hs _ _ Hg.
    eapply getCmp_packed; [|exact Hg]. by apply follows_HasMany.
  - done.
  - intros batch batch' s0 Hs _ _. by apply follows_HasMany.
  - intros absent s0 n bs dl Hs _. exact Hs.
  - split; [done|]. cbn [calls set_sema]. rewrite Hnone.
    cbn [delivered flat_map].
    by rewrite app_nil_r.
Qed.

End Packing.

Lemma Pull_packs_delivered_witness :
  ∃ s',
    Pull Fixtures.plainFormat elements 10 (Fixtures.pullOf Fixtures.tree 2)
    = (Done (Ok tt), s') ∧
    map chunkHash (sent_chunks s') = [1%N; 2%N; 3%N].
Proof.
  destruct pull_tree_done as (s' & Hrun). exists s'.
  split; [exact Hrun|].
  rewrite (Pull_packs_delivered Fixtures.plainFormat elements 10
             (Fixtures.pullOf Fixtures.tree 2) s' eq_refl Hrun).
  assert (Hcalls :
    calls (Pull Fixtures.plainFormat elements 10
             (Fixtures.pullOf Fixtures.tree 2)).2
    = calls s') by (by rewrite Hrun).
  rewrite <- Hcalls. vm_compute. reflexivity.
Defined.

(** ** The next level *)

Lemma collectRefs_dom_from (walked : list (Hash * bool)) :
  ∀ refs : gmap N bool,
    dom (fold_left (fun (refs : gmap N bool) (hl : Hash * bool) =>
                      <[ fst hl := snd hl ]> refs) walked refs)
    = dom refs ∪ list_to_set walked.*1.
Proof.
  induction walked as [|[h l] walked IH]; intros refs; cbn [fold_left].
  - set_solver.
  - rewrite IH, dom_insert_L. cbn. set_solver.
Qed.

Lemma collectRefs_dom (walked : list (Hash * bool)) (h : Hash) :
  h ∈ dom (collectRefs walked) ↔ ∃ isleaf, (h, isleaf) ∈ walked.
Proof.
  unfold collectRefs. rewrite collectRefs_dom_from, dom_empty_L.
  rewrite elem_of_union, elem_of_list_to_set, list_elem_of_fmap.
  split.
  - intros [Hin|([h' l] & -> & Hin)]; [set_solver|]. by exists l.
  - intros [l Hin]. right. by exists (h, l).
Qed.

Section NextLevel.

Context (tf : TableFormat).

Lemma getCmpChunk_next c seen nextLevel s seen1 nextLevel1 s' :
  getCmpChunk tf c seen nextLevel s = (Ok (seen1, nextLevel1), s') →
  ∃ chnk walked,
    ToChunk tf c = Ok chnk ∧ waf (puller s) chnk = Ok walked ∧
    nextLevel1 = nextLevel ∪ dom (collectRefs walked).
Proof.
  intros Hg. apply getCmpChunk_shape in Hg. cbv zeta in Hg.
  destruct Hg as [[[e [=]] _]|(w & chnk & walked & _ & Hdec & Hwalk & _ & Hg)].
  exists chnk, walked. split; [exact Hdec|]. split; [exact Hwalk|].
  destruct Hg as [(_ & [= _ <-] & _)|(_ & ro & s2 & _ & Hg)]; [done|].
  destruct ro as [e|]; [by destruct Hg as [[=] _]|].
  destruct (newWriterFails tf (fresh (dir s2)));
    [by destruct Hg as [[=] _]|].
  by destruct Hg as [[= _ <-] _].
Qed.

Lemma getCmpLoop_next found : ∀ seen nextLevel s seen1 nextLevel1 s',
  getCmpLoop tf found seen nextLevel s = (Ok (seen1, nextLevel1), s') →
  ∀ h, h ∈ nextLevel1 ↔
       h ∈ nextLevel ∨ referenced tf (waf (puller s)) found h.
Proof.
  induction found as [|c found IH]; cbn [getCmpLoop];
    intros seen nextLevel s seen1 nextLevel1 s' Hl h.
  - injection Hl as _ <- _. split; [by left|].
    intros [Hin|(c & ? & ? & ? & Hc & _)]; [done|]. by apply elem_of_nil in Hc.
  - destruct (getCmpChunk tf c seen nextLevel s) as [[[seen2 nl2]|e] s2] eqn:Hc;
      [|done].
    pose proof Hc as Hext.
    apply getCmpChunk_extends in Hext as ((Hwaf & _) & _).
    apply getCmpChunk_next in Hc as (chnk & walked & Hdec & Hwalk & ->).
    rewrite (IH _ _ _ _ _ _ Hl h), Hwaf, elem_of_union, collectRefs_dom.
    split.
    + intros [[Hin|[l Hin]]|(c' & chnk' & walked' & l & Hc' & Hrest)].
      * by left.
      * right. exists c, chnk, walked, l. split; [by left|done].
      * right. exists c', chnk', walked', l. split; [by right|done].
    + intros [Hin|(c' & chnk' & walked' & l & Hc' & Hdec' & Hwalk' & Hin)].
      * by left; left.
      * apply elem_of_cons in Hc' as [->|Hc'].
        -- left. right. exists l. congruence.
        -- right. exists c', chnk', walked', l. done.
Qed.

(** X10. When a batch passes, [nextLevel] has gained the outbound addresses
    of the chunks the source handed over, as the walker reports them, leaves
    and inner chunks alike, and nothing else. *)
Theorem getCmp_next_level (batch nextLevel : HashSet) (s : State)
    (nextLevel1 : HashSet) (s' : State) :
  getCmp tf batch nextLevel s = (Ok nextLevel1, s') →
  ∀ h, h ∈ nextLevel1 ↔
       h ∈ nextLevel ∨
       referenced tf (waf (puller s)) (srcChunkStore (puller s) batch).1 h.
Proof.
  intros Hg h. apply getCmp_passes in Hg as (found & -> & _ & Hl).
  by rewrite (getCmpLoop_next _ _ _ _ _ _ _ Hl h).
Qed.

End NextLevel.

Lemma getCmp_of_root :
  ∃ s',
    getCmp Fixtures.plainFormat {[ 1%N ]} ∅ (Fixtures.pullOf Fixtures.tree 2)
    = (Ok {[ 2%N; 3%N ]}, s').
Proof. eexists. vm_compute. reflexivity. Qed.

Lemma getCmp_next_level_witness :
  referenced Fixtures.plainFormat Fixtures.walkBytes
    (Fixtures.sourceOf (Fixtures.graphStore "v" Fixtures.tree) {[ 1%N ]}).1
    2%N.
Proof.
  destruct getCmp_of_root as (s' & Hrun).
  destruct (proj1 (getCmp_next_level Fixtures.plainFormat _ _ _ _ _ Hrun 2%N))
    as [Hin|Href].
  - set_solver.
  - by apply elem_of_empty in Hin.
  - exact Href.
Defined.

(** ** The sink is asked first *)

Lemma last_call_snoc prev cs c : last_call prev (cs ++ [c]) = Some c.
Proof. unfold last_call. by rewrite last_snoc. Qed.

Lemma asked_first_app sink cs : ∀ prev cs',
  asked_first sink prev (cs ++ cs') ↔
  asked_first sink prev cs ∧ asked_first sink (last_call prev cs) cs'.
Proof.
  induction cs as [|c cs IH]; intros prev cs'; cbn [app asked_first].
  - unfold last_call. cbn. tauto.
  - rewrite IH.
    assert (Hlast : last_call (Some c) cs = last_call prev (c :: cs)).
    { unfold last_call. destruct cs as [|c' cs]; [done|].
      change (last (c :: c' :: cs)) with (last (c' :: cs)).
      destruct (last (c' :: cs)) eqn:Hl; [done|].
      by apply last_None in Hl. }
    rewrite Hlast. tauto.
Qed.

Lemma asked_first_uploads sink new : ∀ prev,
  Forall is_upload new → asked_first sink prev new.
Proof.
  induction new as [|c new IH]; intros prev Hnew; [done|].
  inversion Hnew as [|? ? Hc Hrest]; subst. split; [|by apply IH].
  by destruct c.
Qed.

Section AskedFirst.

Context (tf : TableFormat) (range_of : HashSet → list Hash).

Lemma getCmpChunk_calls c seen nextLevel s r s' :
  getCmpChunk tf c seen nextLevel s = (r, s') →
  ∃ new, calls s' = calls s ++ new ∧ Forall is_upload new.
Proof.
  intros Hg. apply getCmpChunk_shape in Hg. cbv zeta in Hg.
  destruct Hg as [[_ ->]|(w & chnk & walked & _ & _ & _ & _ & Hg)];
    [exists []; by rewrite app_nil_r|].
  destruct Hg as [(_ & _ & ->)|(_ & ro & s2 & Hsend & Hg)];
    [exists []; by rewrite app_nil_r|].
  apply (sendCompleted_effect tf) in Hsend as (_ & _ & new & Hcalls & Hnew).
  cbn [calls set_puller] in Hcalls.
  exists new. split; [|exact Hnew]. rewrite <- Hcalls.
  destruct ro as [e|]; [by destruct Hg as [_ ->]|].
  destruct (newWriterFails tf (fresh (dir s2))); by destruct Hg as [_ ->].
Qed.

Lemma getCmp_calls batch nextLevel s r s' :
  getCmp tf batch nextLevel s = (r, s') →
  ∃ new,
    calls s' = calls s ++ CallGetManyCompressed batch :: new ∧
    Forall is_upload new.
Proof.
  unfold getCmp. cbn [puller log_call set_puller with_stats srcChunkStore].
  destruct (srcChunkStore (puller s) batch) as [found srcErr].
  destruct (getCmpLoop tf found 0 nextLevel _) as [r1 s1] eqn:Hl.
  assert (Hcalls : ∃ new,
    calls s1 = calls s ++ CallGetManyCompressed batch :: new ∧
    Forall is_upload new).
  { eapply (getCmpLoop_holds tf
              (fun s1 => ∃ new,
                 calls s1 = calls s ++ CallGetManyCompressed batch :: new ∧
                 Forall is_upload new)
              (fun s1 => ∃ new,
                 calls s1 = calls s ++ CallGetManyCompressed batch :: new ∧
                 Forall is_upload new)) in Hl.
    - by destruct r1.
    - clear. intros c seen nl s0 r s0' (new & Hs & Hnew) Hc.
      apply getCmpChunk_calls in Hc as (new' & Hc & Hnew').
      assert (∃ new0,
        calls s0' = calls s ++ CallGetManyCompressed batch :: new0 ∧
        Forall is_upload new0).
      { exists (new ++ new'). split; [|by apply Forall_app].
        rewrite Hc, Hs. by rewrite <- app_assoc. }
      by destruct r.
    - exists []. split; [done|constructor]. }
  destruct r1 as [[seen nl1]|e]; [|by intros [= <- <-]].
  destruct srcErr; [by intros [= <- <-]|].
  destruct (negb _); by intros [= <- <-].
Qed.

Lemma driver_calls_app cs cs' :
  driver_calls (cs ++ cs') = driver_calls cs ++ driver_calls cs'.
Proof. unfold driver_calls. apply filter_app. Qed.

Lemma driver_calls_uploads new : Forall is_upload new → driver_calls new = [].
Proof.
  induction 1 as [|c new Hc _ IH]; [done|].
  destruct c; done.
Qed.

Local Abbreviation asks sink s :=
  (sinkDBCS (puller s) = sink ∧
   asked_first sink None (driver_calls (calls s))).

(** X11. Among the calls of [HasMany] and [GetManyCompressed] that a pull
    makes, every call of the source's [GetManyCompressed] comes right after
    a call of the sink's [HasMany] and asks for what the sink has answered
    it lacks, which is at least one address. *)
Theorem Pull_asks_sink_first (fuel : nat) (s : State) (o : outcome_of unit)
    (s' : State) :
  asked_first (sinkDBCS (puller s)) None (driver_calls (calls s)) →
  Pull tf range_of fuel s = (o, s') →
  asked_first (sinkDBCS (puller s)) None (driver_calls (calls s')).
Proof.
  intros Hstart Hp.
  eapply (Pull_holds tf range_of
            (fun s0 => asks (sinkDBCS (puller s)) s0)
            (fun s0 => asks (sinkDBCS (puller s)) s0)) in Hp.
  - by destruct o as [[]|]; destruct Hp.
  - intros batch batch' nl s0 r s1 [Hsink Hs] Hhas Hpos Hg.
    assert (asks (sinkDBCS (puller s)) s1); [|by destruct r].
    pose proof Hg as Hext.
    apply getCmp_extends in Hext as ((_ & _ & Hsame & _) & _).
    apply getCmp_calls in Hg as (new & -> & Hnew).
    split; [cbn in Hsame; congruence|].
    cbn [calls log_call].
    change (CallGetManyCompressed batch' :: new)
      with ([CallGetManyCompressed batch'] ++ new).
    rewrite !driver_calls_app, (driver_calls_uploads new Hnew), app_nil_r.
    change (driver_calls [CallHasMany batch]) with [CallHasMany batch].
    change (driver_calls [CallGetManyCompressed batch'])
      with [CallGetManyCompressed batch'].
    rewrite !asked_first_app, !last_call_snoc.
    split; [split; [exact Hs|done]|].
    split; [|done]. exists batch. by rewrite <- Hsink.
  - intros batch e s0 [Hsink Hs] _. split; [exact Hsink|].
    cbn [calls log_call]. rewrite driver_calls_app, asked_first_app.
    by repeat split.
  - intros batch batch' s0 [Hsink Hs] _ _. split; [exact Hsink|].
    cbn [calls log_call]. rewrite driver_calls_app, asked_first_app.
    by repeat split.
  - intros absent s0 n bs dl Hs _. exact Hs.
  - intros s0 Hs. exact Hs.
  - intros w s0 r s1 [Hsink Hs] _ _ Hsend.
    assert (asks (sinkDBCS (puller s)) s1); [|by destruct r].
    pose proof Hsend as Hext.
    apply sendCompleted_extends in Hext as ((_ & _ & Hsame & _) & _).
    apply sendCompleted_effect in Hsend as (_ & _ & new & -> & Hnew).
    split; [congruence|].
    by rewrite driver_calls_app, (driver_calls_uploads new Hnew), app_nil_r.
  - intros s0 r s1 [Hsink Hs] [= <- <-].
    assert (asks (sinkDBCS (puller s))
              (log_call (CallAddTableFilesToManifest (fileIdToNumChunks s0))
                 s0)); [|by destruct (AddTableFilesToManifest _ _)].
    split; [exact Hsink|].
    cbn [calls log_call]. rewrite driver_calls_app.
    change (driver_calls [CallAddTableFilesToManifest (fileIdToNumChunks s0)])
      with (@nil Call).
    by rewrite app_nil_r.
  - split; [done|exact Hstart].
Qed.

End AskedFirst.

Lemma Pull_asks_sink_first_witness :
  asked_first (Fixtures.graphStore "v" ∅) None
    (driver_calls
       (calls (Pull Fixtures.plainFormat elements 10
                 (Fixtures.pullOf Fixtures.tree 2)).2)).
Proof.
  apply (Pull_asks_sink_first Fixtures.plainFormat elements 10
           (Fixtures.pullOf Fixtures.tree 2)
           (Pull Fixtures.plainFormat elements 10
              (Fixtures.pullOf Fixtures.tree 2)).1).
  - exact I.
  - apply surjective_pairing.
Defined.

(** ** The temp files of a pull that returns no error *)

Section TempFiles.

Context (tf : TableFormat) (range_of : HashSet → list Hash).

Lemma sendCompleted_removes w s s' :
  sendCompleted tf w s = (None, s') →
  tables (dir s') = tables (dir s) ∖ {[ w_path w ]} ∧
  fresh (dir s') = fresh (dir s) ∧
  wr (puller s') = wr (puller s).
Proof.
  unfold sendCompleted. intros Hp.
  apply processCompletedTable_shape in Hp
    as [(e & _ & [=] & _)|(st' & _ & _ & _ & _ & ->)].
  cbn [dir set_fileIdToNumChunks set_dir remove_table tables fresh].
  by rewrite log_call_tables, log_call_fresh.
Qed.

Lemma only_own_log_call old c s : only_own old s → only_own old (log_call c s).
Proof. unfold only_own. by rewrite log_call_tables. Qed.

Lemma getCmpChunk_only_own old c seen nextLevel s r s' :
  only_own old s →
  getCmpChunk tf c seen nextLevel s = (r, s') →
  holds_after (only_own old) (fun _ => True) r s'.
Proof.
  unfold only_own, own_file. intros Hown Hg.
  destruct r as [next|e]; [cbn|done].
  apply getCmpChunk_shape in Hg. cbv zeta in Hg.
  destruct Hg as [[[e [=]] _]|(w & chnk & walked & Hwr & _ & _ & _ & Hg)].
  rewrite Hwr in Hown.
  destruct Hg as [(_ & _ & ->)|(_ & ro & s2 & Hsend & Hg)]; [exact Hown|].
  destruct ro as [e|]; [by destruct Hg as [[=] _]|].
  apply sendCompleted_removes in Hsend as (Htables & _ & _).
  cbn in Htables.
  destruct (newWriterFails tf (fresh (dir s2)));
    [by destruct Hg as [[=] _]|].
  destruct Hg as [_ ->]. cbn. rewrite Htables. set_solver.
Qed.

Lemma getCmp_only_own old batch nextLevel s r s' :
  only_own old s →
  getCmp tf batch nextLevel s = (r, s') →
  holds_after (only_own old) (fun _ => True) r s'.
Proof.
  intros Hown. unfold getCmp.
  cbn [puller log_call set_puller with_stats srcChunkStore].
  destruct (srcChunkStore (puller s) batch) as [found srcErr].
  destruct (getCmpLoop tf found 0 nextLevel _) as [r1 s1] eqn:Hl.
  eapply (getCmpLoop_holds tf (only_own old) (fun _ => True)) in Hl.
  - destruct r1 as [[seen nl1]|e]; [|by intros [= <- <-]].
    destruct srcErr; [by intros [= <- <-]|].
    destruct (negb _); by intros [= <- <-].
  - intros c seen nl s0 r0 s0' Hs Hc. by eapply getCmpChunk_only_own.
  - exact Hown.
Qed.

(** X12. After a pull that returns no error, the temp directory holds no
    table file of the pull, with one exception: the file of the last writer,
    when that writer is empty. Such a writer is left when the last chunk
    packed has filled a table file. The files that were there before, the
    one of the first writer apart, may still be there. *)
Theorem Pull_leaves_only_empty_writer (fuel : nat) (s s' : State) :
  Pull tf range_of fuel s = (Done (Ok tt), s') →
  ∀ x, x ∈ tables (dir s') →
       x ∈ tables (dir s) ∖ own_file s ∨
       ∃ w, wr (puller s') = Some w ∧ w_chunks w = [] ∧ x = w_path w.
Proof.
  unfold Pull.
  destruct (levelLoop _ _ _ _ _ _) as [[[[]|e]|] s1] eqn:Hl; [|done|done].
  eapply (levelLoop_holds tf range_of
            (only_own (tables (dir s) ∖ own_file s)) (fun _ => True)) in Hl.
  - cbn in Hl. unfold only_own, own_file in Hl.
    assert (Hflushed : ∀ s2 x,
      flushLast tf s1 = (None, s2) → x ∈ tables (dir s2) →
      x ∈ tables (dir s) ∖ own_file s ∨
      ∃ w, wr (puller s2) = Some w ∧ w_chunks w = [] ∧ x = w_path w).
    { unfold flushLast. intros s2 x Hf Hx.
      destruct (wr (puller s1)) as [w|] eqn:Hwr.
      - destruct (Z.gtb_spec (ChunkCount w) 0) as [Hpos|Hzero].
        + apply sendCompleted_removes in Hf as (Htables & _ & _).
          left. set_solver.
        + injection Hf as <-.
          assert (Hempty : w_chunks w = []).
          { unfold ChunkCount in Hzero. destruct (w_chunks w); [done|].
            cbn [length] in Hzero. lia. }
          apply Hl in Hx.
          apply elem_of_union in Hx as [Hx| ->%elem_of_singleton];
            [by left|right; by exists w].
      - injection Hf as <-. left. set_solver. }
    destruct (flushLast tf s1) as [[e|] s2]; [done|].
    unfold commitManifest.
    destruct (AddTableFilesToManifest _ _); [done|].
    intros [= <-] x Hx. rewrite log_call_tables in Hx.
    by apply (Hflushed s2 x eq_refl).
  - intros batch batch' nl s0 r s0' Hs _ _ Hg.
    eapply getCmp_only_own; [|exact Hg]. by apply only_own_log_call.
  - done.
  - intros batch batch' s0 Hs _ _. by apply only_own_log_call.
  - intros absent s0 n bs dl Hs _. exact Hs.
  - unfold only_own. cbn. intros x Hx.
    destruct (decide (x ∈ own_file s)); set_solver.
Qed.

End TempFiles.

(** The tree of three chunks with [chunksPerTF = 3]: the third chunk
    fills the table file, a new writer is made, and its file is left. *)
Lemma pull_tree_full_file :
  ∃ s',
    Pull Fixtures.plainFormat elements 10 (Fixtures.pullOf Fixtures.tree 3)
    = (Done (Ok tt), s') ∧
    elements (tables (dir s')) = [1%nat] ∧
    wr (puller s') = Some (mkWriter 1 [] false).
Proof.
  eexists. split; [vm_compute; reflexivity|].
  split; vm_compute; reflexivity.
Qed.

Lemma Pull_leaves_only_empty_writer_witness :
  ∃ s',
    Pull Fixtures.plainFormat elements 10 (Fixtures.pullOf Fixtures.tree 3)
    = (Done (Ok tt), s') ∧
    ∃ w, wr (puller s') = Some w ∧ w_chunks w = [] ∧ w_path w = 1%nat.
Proof.
  destruct pull_tree_full_file as (s' & Hrun & Hleft & Hwr). exists s'.
  split; [exact Hrun|].
  assert (Hin : 1%nat ∈ tables (dir s'))
    by (apply elem_of_elements; rewrite Hleft; by left).
  destruct (Pull_leaves_only_empty_writer Fixtures.plainFormat elements 10
              (Fixtures.pullOf Fixtures.tree 3) s' Hrun 1%nat Hin)
    as [Hold|(w & Hw & Hempty & Hpath)].
  - apply elem_of_difference in Hold as [Hold _].
    change (1%nat ∈ ({[ 0%nat ]} : gset nat)) in Hold.
    apply elem_of_singleton in Hold. discriminate.
  - exists w. by repeat split.
Defined.

(** ** The goroutine that uploads *)

Section Uploads.

Context (tf : TableFormat).

Lemma uploadTempTableFile_effect f s ret s' :
  uploadTempTableFile tf f s = (ret, s') →
  calls s' = calls s ++ [uploadCall ret f] ∧
  tables (dir s') = tables (dir s) ∖ {[ w_path (read f) ]}.
Proof.
  destruct (uploadTempTableFile_shape tf f s) as (ret0 & st' & -> & _).
  intros [= <- <-]. split; [done|].
  cbn [dir set_dir remove_table tables]. by rewrite log_call_tables.
Qed.

(** X13. [goUploadTempTableFile] uploads the table files in the order it
    receives them and removes each from the temp directory. When an upload
    returns an error it returns that error: the file is removed all the
    same, and the files after it are neither uploaded nor removed. *)
Theorem goUploadTempTableFile_first_error (files : list tempTblFile) :
  ∀ (s : State) (r : option error) (s' : State),
    goUploadTempTableFile tf files s = (r, s') →
    match r with
    | None =>
        calls s' = calls s ++ map (uploadCall None) files ∧
        tables (dir s') = tables (dir s) ∖ paths files
    | Some e =>
        ∃ done f rest,
          files = done ++ f :: rest ∧
          calls s' = calls s ++ map (uploadCall None) done
                             ++ [uploadCall (Some e) f] ∧
          tables (dir s') = tables (dir s) ∖ paths (done ++ [f])
    end.
Proof.
  induction files as [|f files IH]; cbn [goUploadTempTableFile];
    intros s r s' Hgo.
  - injection Hgo as <- <-. unfold paths. cbn. rewrite app_nil_r.
    split; [done|set_solver].
  - destruct (uploadTempTableFile tf f s) as [[e|] s1] eqn:Hup;
      apply uploadTempTableFile_effect in Hup as (Hcalls & Htables).
    + injection Hgo as <- <-. exists [], f, files. unfold paths. cbn.
      repeat split; [exact Hcalls|]. rewrite Htables. set_solver.
    + apply IH in Hgo. destruct r as [e|].
      * destruct Hgo as (done & f' & rest & -> & Hcalls' & Htables').
        exists (f :: done), f', rest. repeat split.
        -- rewrite Hcalls', Hcalls. cbn [map]. by rewrite <- !app_assoc.
        -- rewrite Htables', Htables. unfold paths. cbn. set_solver.
      * destruct Hgo as (Hcalls' & Htables'). split.
        -- rewrite Hcalls', Hcalls. cbn [map]. by rewrite <- app_assoc.
        -- rewrite Htables', Htables. unfold paths. cbn. set_solver.
Qed.

End Uploads.

Lemma upload_three_files :
  ∃ s',
    goUploadTempTableFile Fixtures.plainFormat threeFiles uploadState
    = (Some (ErrExternal 5), s') ∧
    elements (tables (dir s')) = [2%nat; 3%nat].
Proof. eexists. split; [vm_compute; reflexivity|vm_compute; reflexivity]. Qed.

Lemma goUploadTempTableFile_first_error_witness :
  ∃ s' done f rest,
    threeFiles = done ++ f :: rest ∧
    calls s'
    = map (uploadCall None) done ++ [uploadCall (Some (ErrExternal 5)) f] ∧
    elements (tables (dir s')) = [2%nat; 3%nat].
Proof.
  destruct upload_three_files as (s' & Hrun & Hleft).
  destruct (goUploadTempTableFile_first_error Fixtures.plainFormat threeFiles
              uploadState _ s' Hrun)
    as (done & f & rest & Hfiles & Hcalls & _).
  exists s', done, f, rest. repeat split; assumption.
Defined.

(** ** The commit decides *)

Section CommitLast.

Context (tf : TableFormat) (range_of : HashSet → list Hash).

Local Abbreviation quiet sink s :=
  (sinkDBCS (puller s) = sink ∧ no_commit (calls s)).

Lemma no_commit_app cs cs' :
  no_commit cs → no_commit cs' → no_commit (cs ++ cs').
Proof.
  intros Hcs Hcs' m Hin. apply elem_of_app in Hin as [Hin|Hin].
  - by apply (Hcs m).
  - by apply (Hcs' m).
Qed.

Lemma no_commit_of_uploads new : Forall is_upload new → no_commit new.
Proof.
  intros Hnew m Hin. rewrite Forall_forall in Hnew. by apply Hnew in Hin.
Qed.

Lemma no_commit_uploads cs new :
  no_commit cs → Forall is_upload new → no_commit (cs ++ new).
Proof.
  intros Hcs Hnew. apply no_commit_app; [exact Hcs|].
  by apply no_commit_of_uploads.
Qed.

(** X14. A pull calls [AddTableFilesToManifest] at most once, as its last
    call, and only when every level was fetched and the last writer was
    sent without error; what the pull returns is then what that call
    returns. A pull that returns another error, or runs out of fuel, has
    not called it. *)
Theorem Pull_commit_decides (fuel : nat) (s : State) (o : outcome_of unit)
    (s' : State) :
  no_commit (calls s) →
  Pull tf range_of fuel s = (o, s') →
  (no_commit (calls s') ∧ o ≠ Done (Ok tt)) ∨
  ∃ pre,
    calls s' = pre ++ [CallAddTableFilesToManifest (fileIdToNumChunks s')] ∧
    no_commit pre ∧
    o = Done (match AddTableFilesToManifest (sinkDBCS (puller s))
                      (fileIdToNumChunks s') with
              | Some e => Err e
              | None => Ok tt
              end).
Proof.
  intros Hstart. unfold Pull.
  destruct (levelLoop _ _ _ _ _ _) as [o1 s1] eqn:Hl.
  eapply (levelLoop_holds tf range_of
            (fun s0 => quiet (sinkDBCS (puller s)) s0)
            (fun s0 => quiet (sinkDBCS (puller s)) s0)) in Hl.
  - destruct o1 as [[[]|e]|]; cbn in Hl; destruct Hl as [Hsink Hquiet].
    + assert (Hflushed : ∀ r2 s2,
        flushLast tf s1 = (r2, s2) →
        quiet (sinkDBCS (puller s)) s2).
      { unfold flushLast. intros r2 s2 Hf.
        destruct (wr (puller s1)) as [w|];
          [|by injection Hf as _ <-].
        destruct (ChunkCount w >? 0); [|by injection Hf as _ <-].
        pose proof Hf as Hext.
        apply sendCompleted_extends in Hext as ((_ & _ & Hsame & _) & _).
        apply sendCompleted_effect in Hf as (_ & _ & new & -> & Hnew).
        split; [congruence|by apply no_commit_uploads]. }
      destruct (flushLast tf s1) as [[e|] s2] eqn:Hf;
        destruct (Hflushed _ _ eq_refl) as [Hsink2 Hquiet2].
      * intros [= <- <-]. by left.
      * unfold commitManifest. rewrite Hsink2.
        destruct (AddTableFilesToManifest _ _) as [e|] eqn:Hadd;
          intros [= <- <-]; right; exists (calls s2); cbn;
          by rewrite Hadd.
    + intros [= <- <-]. by left.
    + intros [= <- <-]. by left.
  - intros batch batch' nl s0 r s0' [Hsink Hquiet] _ _ Hg.
    assert (quiet (sinkDBCS (puller s)) s0'); [|by destruct r].
    pose proof Hg as Hext.
    apply getCmp_extends in Hext as ((_ & _ & Hsame & _) & _).
    apply getCmp_calls in Hg as (new & -> & Hnew).
    split; [cbn in Hsame; congruence|].
    cbn [calls log_call].
    apply no_commit_app; [by apply no_commit_snoc|].
    intros m Hin. apply elem_of_cons in Hin as [?|Hin]; [done|].
    by apply (no_commit_of_uploads new Hnew m).
  - intros batch e s0 [Hsink Hquiet] _. split; [exact Hsink|].
    cbn [calls log_call]. by apply no_commit_snoc.
  - intros batch batch' s0 [Hsink Hquiet] _ _. split; [exact Hsink|].
    cbn [calls log_call]. by apply no_commit_snoc.
  - intros absent s0 n bs dl Hs _. exact Hs.
  - split; [done|exact Hstart].
Qed.

End CommitLast.

Lemma Pull_commit_decides_witness :
  ∃ s' pre,
    Pull Fixtures.plainFormat elements 10 (Fixtures.pullOf Fixtures.tree 2)
    = (Done (Ok tt), s') ∧
    calls s' = pre ++ [CallAddTableFilesToManifest (fileIdToNumChunks s')] ∧
    no_commit pre.
Proof.
  destruct pull_tree_done as (s' & Hrun).
  destruct (Pull_commit_decides Fixtures.plainFormat elements 10
              (Fixtures.pullOf Fixtures.tree 2) _ s'
              (fun m Hin => proj1 (elem_of_nil _) Hin) Hrun)
    as [[_ Hne]|(pre & Hcalls & Hpre & _)].
  - by destruct Hne.
  - exists s', pre. by repeat split.
Defined.

(** ** The permits of [tablefileSema] *)

Section Permits.

Context (tf : TableFormat) (range_of : HashSet → list Hash).

Lemma sendCompleted_releases w s r s' :
  sendCompleted tf w s = (r, s') →
  tablefileSema s' = tablefileSema s - 1.
Proof.
  unfold sendCompleted. intros Hp.
  apply processCompletedTable_shape in Hp
    as [(e & _ & _ & ->)|(st' & _ & _ & _ & _ & ->)]; [done|].
  by destruct r.
Qed.

Lemma getCmpChunk_permits c seen nextLevel s r s' :
  getCmpChunk tf c seen nextLevel s = (r, s') →
  holds_after (fun s' => tablefileSema s' = tablefileSema s)
    (fun _ => True) r s'.
Proof.
  intros Hg. destruct r as [next|e]; [cbn|done].
  apply getCmpChunk_shape in Hg. cbv zeta in Hg.
  destruct Hg as [[[e [=]] _]|(w & chnk & walked & _ & _ & _ & _ & Hg)].
  destruct Hg as [(_ & _ & ->)|(_ & ro & s2 & Hsend & Hg)]; [done|].
  destruct ro as [e|]; [by destruct Hg as [[=] _]|].
  apply sendCompleted_releases in Hsend. cbn in Hsend.
  destruct (newWriterFails tf (fresh (dir s2)));
    [by destruct Hg as [[=] _]|].
  destruct Hg as [_ ->]. cbn. lia.
Qed.

Lemma getCmp_permits (held : Z) batch nextLevel s r s' :
  tablefileSema s = held →
  getCmp tf batch nextLevel s = (r, s') →
  holds_after (fun s' => tablefileSema s' = held) (fun _ => True) r s'.
Proof.
  intros Hheld. unfold getCmp.
  cbn [puller log_call set_puller with_stats srcChunkStore].
  destruct (srcChunkStore (puller s) batch) as [found srcErr].
  destruct (getCmpLoop tf found 0 nextLevel _) as [r1 s1] eqn:Hl.
  eapply (getCmpLoop_holds tf (fun s' => tablefileSema s' = held)
            (fun _ => True)) in Hl.
  - destruct r1 as [[seen nl1]|e]; [|by intros [= <- <-]].
    destruct srcErr; [by intros [= <- <-]|].
    destruct (negb _); by intros [= <- <-].
  - intros c seen nl s0 r0 s0' Hs Hc. apply getCmpChunk_permits in Hc.
    destruct r0; [cbn in *; congruence|done].
  - exact Hheld.
Qed.

(** X15. The pull takes a permit for its first writer and one for every
    writer it makes later, and a permit is given back for every table file
    received. After a pull that returns no error all permits are back when
    the last writer was sent; when the last writer was empty and so was not
    sent, its permit is still held. *)
Theorem Pull_permits (fuel : nat) (s s' : State) :
  Pull tf range_of fuel s = (Done (Ok tt), s') →
  tablefileSema s'
  = tablefileSema s
    + match wr (puller s') with
      | Some w => if ChunkCount w >? 0 then 0 else 1
      | None => 1
      end.
Proof.
  unfold Pull.
  destruct (levelLoop _ _ _ _ _ _) as [[[[]|e]|] s1] eqn:Hl; [|done|done].
  eapply (levelLoop_holds tf range_of
            (fun s0 => tablefileSema s0 = tablefileSema s + 1)
            (fun _ => True)) in Hl.
  - cbn in Hl.
    assert (Hflushed : ∀ s2,
      flushLast tf s1 = (None, s2) →
      tablefileSema s2
      = tablefileSema s
        + match wr (puller s2) with
          | Some w => if ChunkCount w >? 0 then 0 else 1
          | None => 1
          end).
    { unfold flushLast. intros s2 Hf.
      destruct (wr (puller s1)) as [w|] eqn:Hwr.
      - destruct (ChunkCount w >? 0) eqn:Hpos.
        + pose proof Hf as Hsema. apply sendCompleted_releases in Hsema.
          apply sendCompleted_effect in Hf as (Hsame & _).
          rewrite Hsame, Hwr, Hpos. lia.
        + injection Hf as <-. rewrite Hwr, Hpos. lia.
      - injection Hf as <-. rewrite Hwr. lia. }
    destruct (flushLast tf s1) as [[e|] s2]; [done|].
    pose proof (Hflushed s2 eq_refl) as Heq.
    unfold commitManifest.
    destruct (AddTableFilesToManifest _ _); [done|].
    intros [= <-]. exact Heq.
  - intros batch batch' nl s0 r s0' Hs _ _ Hg.
    eapply getCmp_permits; [|exact Hg]. exact Hs.
  - done.
  - intros batch batch' s0 Hs _ _. exact Hs.
  - intros absent s0 n bs dl Hs _. exact Hs.
  - reflexivity.
Qed.

End Permits.

Lemma Pull_permits_witness :
  ∃ s',
    Pull Fixtures.plainFormat elements 10 (Fixtures.pullOf Fixtures.tree 3)
    = (Done (Ok tt), s') ∧
    tablefileSema s' = 1.
Proof.
  destruct pull_tree_full_file as (s' & Hrun & _ & Hwr). exists s'.
  split; [exact Hrun|].
  rewrite (Pull_permits Fixtures.plainFormat elements 10
             (Fixtures.pullOf Fixtures.tree 3) s' Hrun), Hwr.
  reflexivity.
Defined.

(** ** Ticks at which nothing has moved *)

(** X16. While the counter of bytes sent stays where the sampler last saw it
    and the stored rate is zero, the rate is zero after every tick. *)
Theorem sampleLoop_idle (ticks : list stats) : ∀ r : sampler,
  sendBytesPerSec r = f64_zero →
  Forall (fun t => finishedSendBytes t = lastSendBytes r) ticks →
  sendBytesPerSec (sampleLoop ticks r) = f64_zero ∧
  lastSendBytes (sampleLoop ticks r) = lastSendBytes r.
Proof.
  unfold sampleLoop.
  induction ticks as [|t ticks IH]; intros r Hzero Hsame; [done|].
  inversion Hsame as [|? ? Ht Hrest]; subst. cbn [fold_left].
  assert (Hstep : sendBytesPerSec (sampleRates t r) = f64_zero ∧
                  lastSendBytes (sampleRates t r) = lastSendBytes r).
  { unfold sampleRates. cbn [sendBytesPerSec lastSendBytes].
    rewrite Hzero, Ht, u64_sub_diag. split; [|done].
    vm_compute. reflexivity. }
  destruct Hstep as [Hrate Hlast].
  destruct (IH (sampleRates t r) Hrate) as [Hrate' Hlast'].
  - by rewrite Hlast.
  - split; [exact Hrate'|congruence].
Qed.

Lemma sampleLoop_idle_witness :
  sendBytesPerSec
    (sampleLoop [mkStats 0 7 0 0 0; mkStats 0 9 1 1 5] sampler0)
  = f64_zero.
Proof.
  apply (sampleLoop_idle [mkStats 0 7 0 0 0; mkStats 0 9 1 1 5] sampler0).
  - reflexivity.
  - repeat constructor.
Defined.

(** ** The last level *)

Section LastLevel.

Context (tf : TableFormat) (range_of : HashSet → list Hash).
Context (sink : ChunkStore).
Hypothesis sink_subset : ∀ b b', HasMany sink b = Ok b' → b' ⊆ b.

Lemma fillBatches_none (batchSize : Z) (keys : list Hash) :
  ∀ (downloaded : HashSet) done (cur : HashSet) total n batches dl',
    fillBatches keys batchSize downloaded done cur total = (n, batches, dl') →
    total ≤ n ∧ (n = total → batches = done ++ [cur]).
Proof.
  induction keys as [|k keys IH]; cbn [fillBatches];
    intros downloaded done cur total n batches dl' Hfill.
  - injection Hfill as <- <- _. by split.
  - case_decide; [by eapply IH|].
    destruct (Z.rem (total + 1) batchSize =? 0);
      apply IH in Hfill as [Hle _]; (split; [lia|intros ->; lia]).
Qed.

Lemma limitToNewChunks_none absent (downloaded : HashSet) maxBatchSize
    n batches dl' :
  limitToNewChunks range_of absent downloaded maxBatchSize = (n, batches, dl') →
  n ≤ 0 → batches = [∅].
Proof.
  unfold limitToNewChunks. destruct (len_set absent <? maxBatchSize).
  - intros [= <- <- _] Hn. f_equal. apply len_set_zero, Z.eqb_eq.
    unfold len_set in *. lia.
  - intros Hfill Hn. apply fillBatches_none in Hfill as [Hle Hsame].
    apply Hsame. lia.
Qed.

Lemma batchLoop_sink fuel absentBatches i nextAbsent s o s' :
  batchLoop tf range_of fuel absentBatches i nextAbsent s = (o, s') →
  sinkDBCS (puller s') = sinkDBCS (puller s).
Proof.
  intros Hb.
  eapply (batchLoop_holds tf range_of
            (fun s0 => sinkDBCS (puller s0) = sinkDBCS (puller s))
            (fun s0 => sinkDBCS (puller s0) = sinkDBCS (puller s))) in Hb.
  - by destruct o as [[]|].
  - intros batch batch' nl s0 r s1 Hs _ _ Hg.
    apply getCmp_extends in Hg as ((_ & _ & Hsame & _) & _).
    assert (sinkDBCS (puller s1) = sinkDBCS (puller s))
      by (cbn in Hsame; congruence).
    by destruct r.
  - by intros batch e s0 Hs _.
  - by intros batch batch' s0 Hs _ _.
  - by intros absent s0 n bs dl Hs _.
  - done.
Qed.

Lemma batchLoop_of_nothing fuel s next s' :
  sinkDBCS (puller s) = sink →
  batchLoop tf range_of fuel [∅] 0 ∅ s = (Done (Ok next), s') →
  s' = log_call (CallHasMany ∅) s.
Proof.
  intros Hsink. destruct fuel as [|fuel]; [done|].
  cbn [batchLoop lookup list_lookup puller log_call]. rewrite Hsink.
  destruct (HasMany sink ∅) as [batch'|e] eqn:Hhas; [|done].
  apply sink_subset in Hhas.
  assert (batch' = ∅) as -> by set_solver.
  rewrite len_set_empty. cbn [Z.gtb Z.compare].
  destruct fuel as [|fuel]; [done|].
  cbn. by intros [= _ <-].
Qed.

Lemma levelLoop_last_call fuel : ∀ absent numAbsent s s',
  sinkDBCS (puller s) = sink →
  0 < numAbsent →
  levelLoop tf range_of fuel absent numAbsent s = (Done (Ok tt), s') →
  ∃ s0, s' = log_call (CallHasMany ∅) s0.
Proof.
  induction fuel as [|fuel IH]; cbn [levelLoop];
    intros absent numAbsent s s' Hsink Hpos Hl; [done|].
  destruct (Z.gtb_spec numAbsent 0); [|lia].
  destruct (limitToNewChunks _ _ _ _) as [[n1 batches] dl] eqn:Hlim.
  destruct (batchLoop _ _ _ _ _ _ _) as [[[next|e]|] s1] eqn:Hb;
    [|done|done].
  destruct (Z.lt_ge_cases 0 n1) as [Hmore|Hnone].
  - eapply IH; [|exact Hmore|exact Hl].
    apply batchLoop_sink in Hb. by rewrite Hb.
  - apply limitToNewChunks_none in Hlim as ->; [|exact Hnone].
    apply batchLoop_of_nothing in Hb as ->; [|exact Hsink].
    destruct fuel as [|fuel]; [done|].
    cbn [levelLoop] in Hl. destruct (Z.gtb_spec n1 0); [lia|].
    injection Hl as <-. by eexists.
Qed.

(** X17. The loop over the levels ends only after a level in which nothing
    was new. With a sink that answers [HasMany] with a subset of what it was
    asked, a pull of at least one root that returns no error has asked the
    sink about the empty set, and has called neither [HasMany] nor
    [GetManyCompressed] after that. *)
Theorem Pull_asks_about_nothing_last (fuel : nat) (s s' : State) :
  sinkDBCS (puller s) = sink →
  hashes (puller s) ≠ ∅ →
  Pull tf range_of fuel s = (Done (Ok tt), s') →
  ∃ pre post,
    calls s' = pre ++ CallHasMany ∅ :: post ∧
    Forall (fun c => driver_call c = false) post.
Proof.
  intros Hsink Hroots. unfold Pull.
  destruct (levelLoop _ _ _ _ _ _) as [[[[]|e]|] s1] eqn:Hl; [|done|done].
  apply levelLoop_last_call in Hl as [s0 ->]; [|exact Hsink|].
  - assert (Hflushed : ∀ s2,
      flushLast tf (log_call (CallHasMany ∅) s0) = (None, s2) →
      ∃ new, calls s2 = calls s0 ++ CallHasMany ∅ :: new ∧
             Forall is_upload new).
    { unfold flushLast. intros s2 Hf.
      destruct (wr _) as [w|];
        [|injection Hf as <-; exists []; by split].
      destruct (ChunkCount w >? 0);
        [|injection Hf as <-; exists []; by split].
      apply sendCompleted_effect in Hf as (_ & _ & new & -> & Hnew).
      exists new. split; [|exact Hnew].
      cbn [calls log_call]. by rewrite <- app_assoc. }
    destruct (flushLast tf _) as [[e|] s2]; [done|].
    destruct (Hflushed s2 eq_refl) as (new & Hcalls & Hnew).
    unfold commitManifest.
    destruct (AddTableFilesToManifest _ _); [done|].
    intros [= <-].
    exists (calls s0),
           (new ++ [CallAddTableFilesToManifest (fileIdToNumChunks s2)]).
    split.
    + cbn [calls log_call]. rewrite Hcalls. by rewrite <- app_assoc.
    + apply Forall_app. split; [|by repeat constructor].
      eapply Forall_impl; [exact Hnew|]. by intros [].
  - assert (len_set (hashes (puller s)) ≠ 0)
      by (intros Hz; by apply Hroots, len_set_zero, Z.eqb_eq).
    unfold len_set in *. lia.
Qed.

End LastLevel.

Lemma graphStore_subset version graph (b b' : HashSet) :
  HasMany (Fixtures.graphStore version graph) b = Ok b' → b' ⊆ b.
Proof. intros [= <-] x Hx. apply elem_of_filter in Hx. tauto. Qed.

Lemma Pull_asks_about_nothing_last_witness :
  ∃ s' pre post,
    Pull Fixtures.plainFormat elements 10 (Fixtures.pullOf Fixtures.tree 2)
    = (Done (Ok tt), s') ∧
    calls s' = pre ++ CallHasMany ∅ :: post ∧
    Forall (fun c => driver_call c = false) post.
Proof.
  destruct pull_tree_done as (s' & Hrun).
  destruct (Pull_asks_about_nothing_last Fixtures.plainFormat elements
              (Fixtures.graphStore "v" ∅) (graphStore_subset "v" ∅)
              10 (Fixtures.pullOf Fixtures.tree 2) s' eq_refl
              (singleton_nonempty 1%N) Hrun)
    as (pre & post & Hcalls & Hpost).
  by exists s', pre, post.
Defined.

(** ** The first error ends the fetching *)

Lemma all_but_last_weaken (P : Call → Prop) cs :
  Forall P cs → all_but_last P cs.
Proof.
  intros Hall init c ->. by apply Forall_app in Hall as [Hinit _].
Qed.

Lemma all_but_last_snoc (P : Call → Prop) cs c :
  Forall P cs → all_but_last P (cs ++ [c]).
Proof. intros Hall init c' Heq. by apply app_inj_tail in Heq as [<- _]. Qed.

Section FirstError.

Context (tf : TableFormat) (range_of : HashSet → list Hash).
Context (src : HashSet → list CompressedChunk * option error)
        (sink : ChunkStore).

Local Abbreviation fine s :=
  (srcChunkStore (puller s) = src ∧ sinkDBCS (puller s) = sink ∧
   Forall (answered src sink) (driver_calls (calls s))).
Local Abbreviation stopped s :=
  (srcChunkStore (puller s) = src ∧ sinkDBCS (puller s) = sink ∧
   all_but_last (answered src sink) (driver_calls (calls s))).

Lemma fine_stopped s : fine s → stopped s.
Proof.
  intros (Hsrc & Hsink & Hall). repeat split; [done|done|].
  by apply all_but_last_weaken.
Qed.

Lemma fine_uploads s s' new :
  fine s → extends s s' → calls s' = calls s ++ new → Forall is_upload new →
  fine s'.
Proof.
  intros (Hsrc & Hsink & Hall) ((_ & Hsrc' & Hsink' & _) & _) -> Hnew.
  split; [congruence|]. split; [congruence|].
  by rewrite driver_calls_app, (driver_calls_uploads new Hnew), app_nil_r.
Qed.

(** X18. Among the calls of [HasMany] and [GetManyCompressed] that a pull
    makes, only the last one can have returned an error: after a call of the
    sink's [HasMany] or of the source's [GetManyCompressed] that fails, the
    pull makes no further such call. When the pull returns no error, none of
    them has failed. *)
Theorem Pull_stops_at_first_error (fuel : nat) (s : State)
    (o : outcome_of unit) (s' : State) :
  srcChunkStore (puller s) = src →
  sinkDBCS (puller s) = sink →
  Forall (answered src sink) (driver_calls (calls s)) →
  Pull tf range_of fuel s = (o, s') →
  all_but_last (answered src sink) (driver_calls (calls s')) ∧
  ((∀ e, o ≠ Done (Err e)) →
   Forall (answered src sink) (driver_calls (calls s'))).
Proof.
  intros Hsrc Hsink Hstart Hp.
  eapply (Pull_holds tf range_of (fun s0 => fine s0) (fun s0 => stopped s0))
    in Hp.
  - destruct o as [[[]|e]|]; cbn in Hp.
    + split; [by apply fine_stopped in Hp as (_ & _ & Hp)|].
      intros _. by destruct Hp as (_ & _ & Hp).
    + split; [by destruct Hp as (_ & _ & Hp)|].
      intros Hok. by destruct (Hok e).
    + split; [by apply fine_stopped in Hp as (_ & _ & Hp)|].
      intros _. by destruct Hp as (_ & _ & Hp).
  - intros batch batch' nl s0 r s1 (Hsrc0 & Hsink0 & Hall) Hhas Hpos Hg.
    pose proof Hg as Hext.
    apply getCmp_extends in Hext as ((_ & Hsrc1 & Hsink1 & _) & _).
    cbn in Hsrc1, Hsink1.
    pose proof Hg as Hcalls.
    apply getCmp_calls in Hcalls as (new & Hcalls & Hnew).
    assert (Hdriver :
      driver_calls (calls s1)
      = (driver_calls (calls s0) ++ [CallHasMany batch])
          ++ [CallGetManyCompressed batch']).
    { rewrite Hcalls. cbn [calls log_call].
      change (CallGetManyCompressed batch' :: new)
        with ([CallGetManyCompressed batch'] ++ new).
      rewrite !driver_calls_app, (driver_calls_uploads new Hnew), app_nil_r.
      done. }
    assert (Hasked :
      Forall (answered src sink)
        (driver_calls (calls s0) ++ [CallHasMany batch])).
    { apply Forall_app. split; [exact Hall|].
      apply Forall_singleton. exists batch'. by rewrite <- Hsink0. }
    destruct r as [nl1|e]; cbn.
    + split; [congruence|]. split; [congruence|].
      rewrite Hdriver. apply Forall_app. split; [exact Hasked|].
      apply Forall_singleton. cbn.
      apply getCmp_passes in Hg as (found & Hfound & _).
      cbn in Hfound. rewrite <- Hsrc0, Hfound. done.
    + split; [congruence|]. split; [congruence|].
      rewrite Hdriver. by apply all_but_last_snoc.
  - intros batch e s0 (Hsrc0 & Hsink0 & Hall) _.
    split; [done|]. split; [done|].
    cbn [calls log_call]. rewrite driver_calls_app.
    by apply all_but_last_snoc.
  - intros batch batch' s0 (Hsrc0 & Hsink0 & Hall) Hhas _.
    split; [done|]. split; [done|].
    cbn [calls log_call]. rewrite driver_calls_app.
    apply Forall_app. split; [exact Hall|].
    apply Forall_singleton. exists batch'. by rewrite <- Hsink0.
  - intros absent s0 n bs dl Hs _. exact Hs.
  - intros s0 Hs. exact Hs.
  - intros w s0 r s1 Hs _ _ Hsend.
    pose proof Hsend as Hext. apply sendCompleted_extends in Hext.
    apply sendCompleted_effect in Hsend as (_ & _ & new & Hcalls & Hnew).
    pose proof (fine_uploads s0 s1 new Hs Hext Hcalls Hnew) as Hfine.
    destruct r; [by apply fine_stopped|exact Hfine].
  - intros s0 r s1 (Hsrc0 & Hsink0 & Hall) [= <- <-].
    assert (Hfine : fine (log_call (CallAddTableFilesToManifest
                                      (fileIdToNumChunks s0)) s0)).
    { split; [done|]. split; [done|].
      cbn [calls log_call]. rewrite driver_calls_app.
      change (driver_calls
                [CallAddTableFilesToManifest (fileIdToNumChunks s0)])
        with (@nil Call).
      by rewrite app_nil_r. }
    destruct (AddTableFilesToManifest _ _); [by apply fine_stopped|exact Hfine].
  - by repeat split.
Qed.

End FirstError.

Lemma Pull_stops_at_first_error_witness :
  Forall (answered (Fixtures.sourceOf (Fixtures.graphStore "v" Fixtures.tree))
            (Fixtures.graphStore "v" ∅))
    (driver_calls
       (calls (Pull Fixtures.plainFormat elements 10
                 (Fixtures.pullOf Fixtures.tree 2)).2)).
Proof.
  destruct pull_tree_done as (s' & Hrun). rewrite Hrun.
  apply (Pull_stops_at_first_error Fixtures.plainFormat elements
           (Fixtures.sourceOf (Fixtures.graphStore "v" Fixtures.tree))
           (Fixtures.graphStore "v" ∅) 10 (Fixtures.pullOf Fixtures.tree 2)
           (Done (Ok tt)) s' eq_refl eq_refl (Forall_nil_2 _) Hrun).
  intros e. discriminate.
Defined.
